(** * A tile dungeon and its grid-locked player: model and properties

    The program is one C++ translation unit.  Its core is embedded here:
    the dungeon generator (room placement with overlap rejection, corridor
    carving), the walkability query, the player's movement and input-timing
    state machine, the camera, the per-frame update of the main loop, the
    three renderers as the sequence of calls they make on the renderer, and
    the main loop with its event handling and menus.

    Modelling conventions.
    - [int] values are integers in [Z]; no computation of the core leaves
      the 32-bit range on the inputs the program produces, and signed
      overflow (undefined in C++) is outside the model.
    - [float] values are read as exact rationals in [Q]: rounding,
      infinities and NaN are outside the model.  Literal assignments are
      compared with Leibniz equality, arithmetic results with [==].
      A value the code accumulates over several calls (move progress, hold
      time) is described call by call and through the accumulated value
      itself, not through the exact sum of the deltas, which a chain of
      binary32 additions need not reach.  [INPUT_BUFFER_TIME] is the
      binary32 value of [0.15f]; [MOVE_SPEED] is exact.
    - The globals [dungeon], [rooms] and the state of [rand()] form the
      [World]; code that touches them lives in the monad [M], whose failure
      case stands for an array access outside [dungeon]'s bounds.
    - [rand()] reads the next element of an arbitrary tape of naturals.
    - The main loop is modelled from the point where SDL is initialised; an
      iteration reads the tick counter, the pending events and the keyboard
      state from its input, and yields the renderer calls and the text it
      emits. *)

From Stdlib Require Import String.
From Stdlib Require Import ZArith QArith Qpower Lia Lqa Bool List.
From stdpp Require Import base list.

Local Open Scope Z_scope.

(** ** Constants *)

Definition SCREEN_WIDTH : Z := 800.
Definition SCREEN_HEIGHT : Z := 600.
Definition TILE_SIZE : Z := 40.
Definition PLAYER_SIZE : Z := 30.
Definition MOVE_SPEED : Q := 8.
(** [0.15f]: the binary32 number nearest to 0.15. *)
Definition INPUT_BUFFER_TIME : Q := 10066330 # 67108864.
Definition DUNGEON_WIDTH : Z := 40.
Definition DUNGEON_HEIGHT : Z := 30.

(** ** Data model *)

Inductive TileType : Set := WALL | FLOOR | CORRIDOR.

(** The enumerators' values; a zero-initialised array holds [FLOOR]. *)
Definition tile_code (t : TileType) : Z :=
  match t with WALL => 1 | FLOOR => 0 | CORRIDOR => 2 end.

Definition tile_eqb (a b : TileType) : bool := tile_code a =? tile_code b.

(** [Direction] is a bitmask enum; any OR of the four bits can occur. *)
Definition Direction := Z.
Definition NONE : Direction := 0.
Definition UP : Direction := 1.
Definition DOWN : Direction := 2.
Definition LEFT : Direction := 4.
Definition RIGHT : Direction := 8.
Definition UP_LEFT : Direction := Z.lor UP LEFT.
Definition UP_RIGHT : Direction := Z.lor UP RIGHT.
Definition DOWN_LEFT : Direction := Z.lor DOWN LEFT.
Definition DOWN_RIGHT : Direction := Z.lor DOWN RIGHT.

(** The condition [dir & flag] of an [if]. *)
Definition has_flag (dir flag : Direction) : bool := negb (Z.land dir flag =? 0).

Record Room : Set := mkRoom {
  room_x : Z;
  room_y : Z;
  room_width : Z;
  room_height : Z
}.

Record Camera : Set := mkCamera {
  cam_x : Q;
  cam_y : Q;
  cam_width : Z;
  cam_height : Z
}.

Record Player : Set := mkPlayer {
  gridX : Z;
  gridY : Z;
  pixelX : Q;
  pixelY : Q;
  isMoving : bool;
  movingDirection : Direction;
  moveProgress : Q;
  targetGridX : Z;
  targetGridY : Z;
  lastInputDirection : Direction;
  inputHoldTime : Q;
  continuousMoveEnabled : bool
}.

(** The globals: [dungeon] is indexed [dungeon[y][x]], a list of rows. *)
Record World : Type := mkWorld {
  dungeon : list (list TileType);
  rooms : list Room;
  rand_tape : nat -> N;
  rand_calls : nat
}.

(** ** The monad of code that touches the globals *)

Definition M (A : Type) : Type := World -> option (A * World).

Definition ret {A : Type} (a : A) : M A := fun w => Some (a, w).

Definition bind {A B : Type} (m : M A) (f : A -> M B) : M B :=
  fun w => match m w with
           | Some (a, w') => f a w'
           | None => None
           end.

Notation "'let*' x ':=' m 'in' k" := (bind m (fun x => k))
  (at level 10, x name, m at level 100, k at level 200).
Notation "'do' m 'then' k" := (bind m (fun _ => k))
  (at level 10, m at level 100, k at level 200).

(** [rand()]: the next element of the tape. *)
Definition rand : M Z :=
  fun w => Some (Z.of_N (rand_tape w (rand_calls w)),
                 mkWorld (dungeon w) (rooms w) (rand_tape w) (S (rand_calls w))).

(** [dungeon[y][x]] as an rvalue; [None] outside the array. *)
Definition cell_at (g : list (list TileType)) (x y : Z) : option TileType :=
  if (0 <=? x) && (0 <=? y) then
    match g !! Z.to_nat y with
    | Some row => row !! Z.to_nat x
    | None => None
    end
  else None.

Definition get_cell (x y : Z) : M TileType :=
  fun w => match cell_at (dungeon w) x y with
           | Some t => Some (t, w)
           | None => None
           end.

(** [dungeon[y][x] = t]; a fault outside the array. *)
Definition set_cell (x y : Z) (t : TileType) : M unit :=
  fun w => match cell_at (dungeon w) x y with
           | Some _ =>
               Some (tt, mkWorld (alter (fun row => <[Z.to_nat x := t]> row)
                                        (Z.to_nat y) (dungeon w))
                                 (rooms w) (rand_tape w) (rand_calls w))
           | None => None
           end.

Definition get_rooms : M (list Room) := fun w => Some (rooms w, w).

(** [rooms.clear()] and [rooms.push_back(r)]. *)
Definition clear_rooms : M unit :=
  fun w => Some (tt, mkWorld (dungeon w) [] (rand_tape w) (rand_calls w)).

Definition push_room (r : Room) : M unit :=
  fun w => Some (tt, mkWorld (dungeon w) (rooms w ++ [r]) (rand_tape w) (rand_calls w)).

(** [for (int i = lo; i < hi; i++) body(i)], the body not assigning [i]. *)
Fixpoint for_loop (n : nat) (i : Z) (body : Z -> M unit) : M unit :=
  match n with
  | O => ret tt
  | S n' => do body i then for_loop n' (i + 1) body
  end.

Definition for_range (lo hi : Z) (body : Z -> M unit) : M unit :=
  for_loop (Z.to_nat (hi - lo)) lo body.

(** ** Dungeon generator *)

(** [generateRoom] leaves [room.x] and [room.y] unset; the caller assigns
    them before any use, and the model holds 0 there meanwhile. *)
Definition generateRoom (minSize maxSize : Z) : M Room :=
  let* r1 := rand in
  let width := minSize + Z.rem r1 (maxSize - minSize + 1) in
  let* r2 := rand in
  let height := minSize + Z.rem r2 (maxSize - minSize + 1) in
  ret (mkRoom 0 0 width height).

Definition rooms_clash (newRoom room : Room) (padding : Z) : bool :=
  (room_x newRoom <? room_x room + room_width room + padding) &&
  (room_x newRoom + room_width newRoom + padding >? room_x room) &&
  (room_y newRoom <? room_y room + room_height room + padding) &&
  (room_y newRoom + room_height newRoom + padding >? room_y room).

Fixpoint roomOverlaps (newRoom : Room) (existingRooms : list Room) (padding : Z)
  : bool :=
  match existingRooms with
  | [] => false
  | room :: rest =>
      if rooms_clash newRoom room padding then true
      else roomOverlaps newRoom rest padding
  end.

Definition in_dungeon (x y : Z) : bool :=
  (y >=? 0) && (y <? DUNGEON_HEIGHT) && (x >=? 0) && (x <? DUNGEON_WIDTH).

Definition carveRoom (room : Room) : M unit :=
  for_range (room_y room) (room_y room + room_height room) (fun y =>
    for_range (room_x room) (room_x room + room_width room) (fun x =>
      if in_dungeon x y then set_cell x y FLOOR else ret tt)).

Definition carve_if_wall (x y : Z) : M unit :=
  if (x >=? 0) && (x <? DUNGEON_WIDTH) && (y >=? 0) && (y <? DUNGEON_HEIGHT) then
    let* t := get_cell x y in
    if tile_eqb t WALL then set_cell x y CORRIDOR else ret tt
  else ret tt.

Definition carveHorizontalCorridor (x1 x2 y : Z) : M unit :=
  let startX := Z.min x1 x2 in
  let endX := Z.max x1 x2 in
  for_range startX (endX + 1) (fun x => carve_if_wall x y).

Definition carveVerticalCorridor (y1 y2 x : Z) : M unit :=
  let startY := Z.min y1 y2 in
  let endY := Z.max y1 y2 in
  for_range startY (endY + 1) (fun y => carve_if_wall x y).

Definition room_centerX (r : Room) : Z := room_x r + Z.quot (room_width r) 2.
Definition room_centerY (r : Room) : Z := room_y r + Z.quot (room_height r) 2.

(** The body of the placement loop of [generateDungeon]. *)
Definition place_attempt : M unit :=
  let* sized := generateRoom 4 9 in
  let* r1 := rand in
  let nx := 1 + Z.rem r1 (DUNGEON_WIDTH - room_width sized - 2) in
  let* r2 := rand in
  let ny := 1 + Z.rem r2 (DUNGEON_HEIGHT - room_height sized - 2) in
  let newRoom := mkRoom nx ny (room_width sized) (room_height sized) in
  let* placed := get_rooms in
  if negb (roomOverlaps newRoom placed 2) then
    do carveRoom newRoom then
    (* if (!rooms.empty()) { Room& prevRoom = rooms.back(); ... } *)
    let* placed := get_rooms in
    do match last placed with
       | Some prevRoom =>
           let prevCenterX := room_centerX prevRoom in
           let prevCenterY := room_centerY prevRoom in
           let newCenterX := room_centerX newRoom in
           let newCenterY := room_centerY newRoom in
           let* r3 := rand in
           if Z.rem r3 2 =? 0 then
             do carveHorizontalCorridor prevCenterX newCenterX prevCenterY then
             carveVerticalCorridor prevCenterY newCenterY newCenterX
           else
             do carveVerticalCorridor prevCenterY newCenterY prevCenterX then
             carveHorizontalCorridor prevCenterX newCenterX newCenterY
       | None => ret tt
       end then
    push_room newRoom
  else ret tt.

(** [while (rooms.size() < numRooms && attempts < maxAttempts)]; the fuel
    bounds the number of iterations and running out of it is a failure. *)
Fixpoint place_loop (fuel : nat) (numRooms attempts maxAttempts : Z) : M unit :=
  let* placed := get_rooms in
  if (Z.of_nat (length placed) <? numRooms) && (attempts <? maxAttempts) then
    match fuel with
    | O => fun _ => None
    | S fuel' =>
        do place_attempt then
        place_loop fuel' numRooms (attempts + 1) maxAttempts
    end
  else ret tt.

Definition generateDungeon : M unit :=
  do for_range 0 DUNGEON_HEIGHT (fun y =>
       for_range 0 DUNGEON_WIDTH (fun x => set_cell x y WALL)) then
  do clear_rooms then
  let* r := rand in
  let numRooms := 8 + Z.rem r 5 in
  let attempts := 0 in
  let maxAttempts := 100 in
  place_loop (Z.to_nat maxAttempts) numRooms attempts maxAttempts.

Definition isWalkable (gridX gridY : Z) : M bool :=
  if (gridX <? 0) || (gridX >=? DUNGEON_WIDTH) ||
     (gridY <? 0) || (gridY >=? DUNGEON_HEIGHT) then ret false
  else
    let* t := get_cell gridX gridY in
    ret (negb (tile_eqb t WALL)).

(** ** Direction input *)

(** The eight scancodes [getDirectionFromInput] reads. *)
Record KeyState : Set := mkKeys {
  key_UP : bool; key_W : bool;
  key_DOWN : bool; key_S : bool;
  key_LEFT : bool; key_A : bool;
  key_RIGHT : bool; key_D : bool
}.

Definition getDirectionFromInput (keyState : KeyState) : Direction :=
  let dirFlags := NONE in
  let dirFlags := if key_UP keyState || key_W keyState
                  then Z.lor dirFlags UP else dirFlags in
  let dirFlags := if key_DOWN keyState || key_S keyState
                  then Z.lor dirFlags DOWN else dirFlags in
  let dirFlags := if key_LEFT keyState || key_A keyState
                  then Z.lor dirFlags LEFT else dirFlags in
  let dirFlags := if key_RIGHT keyState || key_D keyState
                  then Z.lor dirFlags RIGHT else dirFlags in
  dirFlags.

(** The two reference parameters are returned as the pair (targetX, targetY). *)
Definition getTargetFromDirection (dir : Direction) (currentX currentY : Z)
  : Z * Z :=
  let targetX := currentX in
  let targetY := currentY in
  let targetY := if has_flag dir UP then targetY - 1 else targetY in
  let targetY := if has_flag dir DOWN then targetY + 1 else targetY in
  let targetX := if has_flag dir LEFT then targetX - 1 else targetX in
  let targetX := if has_flag dir RIGHT then targetX + 1 else targetX in
  (targetX, targetY).

(** ** Player *)

Definition Qltb (a b : Q) : bool := negb (Qle_bool b a).

(** [cell * TILE_SIZE + (TILE_SIZE - PLAYER_SIZE) / 2], computed in [int]
    and converted to [float]. *)
Definition cell_pixel (cell : Z) : Q :=
  inject_Z (cell * TILE_SIZE + Z.quot (TILE_SIZE - PLAYER_SIZE) 2).

(** The constructor [Player()]. *)
Definition newPlayer : Player :=
  mkPlayer 0 0 0 0 false NONE 0 0 0 NONE 0 false.

Definition setGridPosition (x y : Z) (p : Player) : Player :=
  mkPlayer x y (cell_pixel x) (cell_pixel y)
           (isMoving p) (movingDirection p) (moveProgress p)
           x y
           (lastInputDirection p) (inputHoldTime p) (continuousMoveEnabled p).

Definition startMove (dir : Direction) (destGridX destGridY : Z) (p : Player)
  : Player :=
  mkPlayer (gridX p) (gridY p) (pixelX p) (pixelY p)
           true dir 0
           destGridX destGridY
           (lastInputDirection p) (inputHoldTime p) (continuousMoveEnabled p).

(** [t = 1 - pow(1 - t, 3)]. *)
Definition ease_out_cubic (t : Q) : Q := (1 - (1 - t) ^ 3)%Q.

(** The addition [moveProgress += MOVE_SPEED * deltaTime] and the
    interpolation are exact here; in the code each operation is rounded to
    binary32, and the easing weight is finite as long as the progress is. *)
Definition updateMovement (deltaTime : Q) (p : Player) : Player :=
  if negb (isMoving p) then p
  else
    let progress := (moveProgress p + MOVE_SPEED * deltaTime)%Q in
    if Qle_bool 1 progress then
      mkPlayer (targetGridX p) (targetGridY p)
               (cell_pixel (targetGridX p)) (cell_pixel (targetGridY p))
               false NONE 1
               (targetGridX p) (targetGridY p)
               (lastInputDirection p) (inputHoldTime p)
               (continuousMoveEnabled p)
    else
      let startPixelX := cell_pixel (gridX p) in
      let startPixelY := cell_pixel (gridY p) in
      let endPixelX := cell_pixel (targetGridX p) in
      let endPixelY := cell_pixel (targetGridY p) in
      let t := ease_out_cubic progress in
      mkPlayer (gridX p) (gridY p)
               (startPixelX + (endPixelX - startPixelX) * t)%Q
               (startPixelY + (endPixelY - startPixelY) * t)%Q
               (isMoving p) (movingDirection p) progress
               (targetGridX p) (targetGridY p)
               (lastInputDirection p) (inputHoldTime p)
               (continuousMoveEnabled p).

Definition set_input (last : Direction) (hold : Q) (continuous : bool)
  (p : Player) : Player :=
  mkPlayer (gridX p) (gridY p) (pixelX p) (pixelY p)
           (isMoving p) (movingDirection p) (moveProgress p)
           (targetGridX p) (targetGridY p)
           last hold continuous.

(** The addition [inputHoldTime += deltaTime] is exact here, one rounded
    binary32 addition in the code; the threshold is the code's constant. *)
Definition updateInputTiming (currentInput : Direction) (deltaTime : Q)
  (p : Player) : Player :=
  if currentInput =? NONE then set_input NONE 0 false p
  else if currentInput =? lastInputDirection p then
    let hold := (inputHoldTime p + deltaTime)%Q in
    set_input (lastInputDirection p) hold
              (if Qle_bool INPUT_BUFFER_TIME hold then true
               else continuousMoveEnabled p) p
  else set_input currentInput 0 false p.

Definition shouldAcceptInput (p : Player) : bool :=
  negb (isMoving p) || continuousMoveEnabled p.

(** ** Camera *)

(** The constructor [Camera()]. *)
Definition newCamera : Camera := mkCamera 0 0 SCREEN_WIDTH SCREEN_HEIGHT.

Definition followPlayer (playerX playerY : Q)
  (dungeonPixelWidth dungeonPixelHeight : Z) (c : Camera) : Camera :=
  let width := cam_width c in
  let height := cam_height c in
  let x := (playerX + inject_Z (Z.quot PLAYER_SIZE 2)
            - inject_Z (Z.quot width 2))%Q in
  let y := (playerY + inject_Z (Z.quot PLAYER_SIZE 2)
            - inject_Z (Z.quot height 2))%Q in
  let x := if Qltb x 0 then 0%Q else x in
  let y := if Qltb y 0 then 0%Q else y in
  let x := if Qltb (inject_Z (dungeonPixelWidth - width)) x
           then inject_Z (dungeonPixelWidth - width) else x in
  let y := if Qltb (inject_Z (dungeonPixelHeight - height)) y
           then inject_Z (dungeonPixelHeight - height) else y in
  mkCamera x y width height.

(** ** The per-frame update of the main loop, state PLAYING *)

Record Game : Type := mkGame {
  world : World;
  player : Player;
  camera : Camera
}.

(** One pass through the [gameState == PLAYING] block, for the direction
    read from the keyboard and the frame's time delta.  [None] is a fault of
    the walkability query. *)
Definition playing_frame (currentInput : Direction) (deltaTime : Q) (g : Game)
  : option Game :=
  let p := updateMovement deltaTime (player g) in
  let p := updateInputTiming currentInput deltaTime p in
  let moved :=
    if negb (currentInput =? NONE) && shouldAcceptInput p then
      let '(targetX, targetY) :=
        getTargetFromDirection currentInput (gridX p) (gridY p) in
      match isWalkable targetX targetY (world g) with
      | Some (walkable, w) =>
          Some (w, if walkable then startMove currentInput targetX targetY p
                   else p)
      | None => None
      end
    else Some (world g, p) in
  match moved with
  | Some (w, p) =>
      Some (mkGame w p
              (followPlayer (pixelX p) (pixelY p)
                 (DUNGEON_WIDTH * TILE_SIZE) (DUNGEON_HEIGHT * TILE_SIZE)
                 (camera g)))
  | None => None
  end.

Fixpoint run_frames (frames : list (Direction * Q)) (g : Game) : option Game :=
  match frames with
  | [] => Some g
  | (dir, dt) :: rest =>
      match playing_frame dir dt g with
      | Some g' => run_frames rest g'
      | None => None
      end
  end.

(** ** Vocabulary of the properties *)

(** The array [int dungeon[DUNGEON_HEIGHT][DUNGEON_WIDTH]] has its declared
    shape. *)
Definition wf_dungeon (g : list (list TileType)) : Prop :=
  length g = Z.to_nat DUNGEON_HEIGHT /\
  Forall (fun row => length row = Z.to_nat DUNGEON_WIDTH) g.

(** Total correctness: [m] started in [w] returns, and its result and final
    world satisfy [post]. *)
Definition runs_to {A : Type} (m : M A) (w : World)
  (post : A -> World -> Prop) : Prop :=
  exists a w', m w = Some (a, w') /\ post a w'.

(** What a grid operation leaves alone: the room list and [rand()]'s state. *)
Definition same_rooms_rand (w w' : World) : Prop :=
  rooms w' = rooms w /\ rand_tape w' = rand_tape w /\ rand_calls w' = rand_calls w.

(** [w'] is [w] with [f] applied to the cells selected by [sel]. *)
Definition painted (sel : Z -> Z -> bool) (f : TileType -> TileType)
  (w w' : World) : Prop :=
  wf_dungeon (dungeon w') /\ same_rooms_rand w w' /\
  forall cx cy,
    cell_at (dungeon w') cx cy =
    (if sel cx cy then f else id) <$> cell_at (dungeon w) cx cy.

(** What corridor carving does to a cell it visits. *)
Definition wall_to_corridor (t : TileType) : TileType :=
  if tile_eqb t WALL then CORRIDOR else t.

Definition on_hsegment (x1 x2 y cx cy : Z) : bool :=
  (cy =? y) && (Z.min x1 x2 <=? cx) && (cx <=? Z.max x1 x2).

Definition on_vsegment (y1 y2 x cx cy : Z) : bool :=
  (cx =? x) && (Z.min y1 y2 <=? cy) && (cy <=? Z.max y1 y2).

Definition in_room (r : Room) (cx cy : Z) : bool :=
  (room_x r <=? cx) && (cx <? room_x r + room_width r) &&
  (room_y r <=? cy) && (cy <? room_y r + room_height r).

(** [r] grown by [padding] cells on every side. *)
Definition inflate (padding : Z) (r : Room) : Room :=
  mkRoom (room_x r - padding) (room_y r - padding)
         (room_width r + 2 * padding) (room_height r + 2 * padding).

(** Two rectangles share no cell. *)
Definition disjoint_rooms (a b : Room) : Prop :=
  forall cx cy, ~ (in_room a cx cy = true /\ in_room b cx cy = true).

(** A cell the player can stand on: kind Floor or Corridor. *)
Definition passable (g : list (list TileType)) (c : Z * Z) : Prop :=
  cell_at g (fst c) (snd c) = Some FLOOR \/
  cell_at g (fst c) (snd c) = Some CORRIDOR.

(** 4-connected adjacency. *)
Definition adjacent4 (a b : Z * Z) : Prop :=
  Z.abs (fst a - fst b) + Z.abs (snd a - snd b) = 1.

(** A path of passable cells, each 4-adjacent to the next. *)
Inductive reachable (g : list (list TileType)) : Z * Z -> Z * Z -> Prop :=
| reach_here c : passable g c -> reachable g c c
| reach_step a b c :
    passable g a -> adjacent4 a b -> reachable g b c -> reachable g a c.

(** The effect of a corridor call on the cells, for the segment [seg]:
    walls on the segment become corridor, floor stays floor, cells off the
    segment stay as they are, and a cell that changed was a wall and is now
    a corridor. *)
Definition only_walls_carved (seg : Z -> Z -> bool) (w w' : World) : Prop :=
  forall cx cy,
    (cell_at (dungeon w) cx cy = Some WALL -> seg cx cy = true ->
     cell_at (dungeon w') cx cy = Some CORRIDOR) /\
    (cell_at (dungeon w) cx cy = Some FLOOR ->
     cell_at (dungeon w') cx cy = Some FLOOR) /\
    (seg cx cy = false ->
     cell_at (dungeon w') cx cy = cell_at (dungeon w) cx cy) /\
    (cell_at (dungeon w') cx cy <> cell_at (dungeon w) cx cy ->
     cell_at (dungeon w) cx cy = Some WALL /\
     cell_at (dungeon w') cx cy = Some CORRIDOR).

(** A placed room: sides of 4 to 9 cells, inside the grid and off its
    border. *)
Definition room_fits (r : Room) : Prop :=
  4 <= room_width r <= 9 /\ 4 <= room_height r <= 9 /\
  1 <= room_x r /\ room_x r + room_width r <= DUNGEON_WIDTH - 2 /\
  1 <= room_y r /\ room_y r + room_height r <= DUNGEON_HEIGHT - 2.

(** No two rooms of the list clash under the padded test of [roomOverlaps]. *)
Definition rooms_apart (rs : list Room) : Prop :=
  forall (i j : nat) ri rj,
    i <> j -> rs !! i = Some ri -> rs !! j = Some rj ->
    rooms_clash ri rj 2 = false.

Definition room_center (r : Room) : Z * Z := (room_centerX r, room_centerY r).

(** The invariant of the placement loop, on the grid and the room list. *)
Record gen_inv (g : list (list TileType)) (rs : list Room) : Prop := mk_gen_inv {
  inv_wf : wf_dungeon g;
  inv_fits : Forall room_fits rs;
  inv_apart : rooms_apart rs;
  inv_floor : forall r cx cy,
      r ∈ rs -> in_room r cx cy = true -> cell_at g cx cy = Some FLOOR;
  inv_linked : forall r1 r2,
      r1 ∈ rs -> r2 ∈ rs -> reachable g (room_center r1) (room_center r2)
}.

(** A Transition of the movement machine: moving, progress in [0, 1). *)
Definition Transitioning (p : Player) : Prop :=
  isMoving p = true /\ (0 <= moveProgress p)%Q /\ (moveProgress p < 1)%Q.

(** The Idle state at the player's target cell, progress clamped to 1. *)
Definition arrived_at (tx ty : Z) (p : Player) : Prop :=
  isMoving p = false /\ movingDirection p = NONE /\
  gridX p = tx /\ gridY p = ty /\
  pixelX p = cell_pixel tx /\ pixelY p = cell_pixel ty /\
  moveProgress p = 1%Q.

(** Successive calls of [updateMovement], one per delta. *)
Definition run_movement (deltas : list Q) (p : Player) : Player :=
  fold_left (fun q dt => updateMovement dt q) deltas p.



(** The snapped player with every movement and input field at its
    constructor value. *)
Definition snapped_and_reset (x y : Z) (p : Player) : Prop :=
  pixelX p = cell_pixel x /\ pixelY p = cell_pixel y /\
  gridX p = x /\ gridY p = y /\
  targetGridX p = gridX p /\ targetGridY p = gridY p /\
  isMoving p = false /\ movingDirection p = NONE /\
  (moveProgress p == 0)%Q /\
  lastInputDirection p = NONE /\ (inputHoldTime p == 0)%Q /\
  continuousMoveEnabled p = false.

(** The fields [setGridPosition] does not assign. *)
Definition same_motion_input (p q : Player) : Prop :=
  isMoving q = isMoving p /\ movingDirection q = movingDirection p /\
  moveProgress q = moveProgress p /\
  lastInputDirection q = lastInputDirection p /\
  inputHoldTime q = inputHoldTime p /\
  continuousMoveEnabled q = continuousMoveEnabled p.

(** The camera offset that centres the viewport on the player, one axis. *)
Definition centered_offset (playerPos : Q) (viewport : Z) : Q :=
  (playerPos + inject_Z (Z.quot PLAYER_SIZE 2) - inject_Z (Z.quot viewport 2))%Q.

(** One axis of the camera after [followPlayer], where the dungeon is at
    least as large as the viewport: the offset is the centred one clamped
    to [0, dungeon - viewport], so the viewport lies inside the dungeon. *)
Definition clamped_inside (offset playerPos : Q) (dungeonPixels viewport : Z)
  : Prop :=
  (0 <= offset)%Q /\
  (offset + inject_Z viewport <= inject_Z dungeonPixels)%Q /\
  ((0 <= centered_offset playerPos viewport)%Q ->
   (centered_offset playerPos viewport + inject_Z viewport
    <= inject_Z dungeonPixels)%Q ->
   (offset == centered_offset playerPos viewport)%Q).

(** One axis of [followPlayer]: centre, clamp below at 0, then clamp above
    at dungeon - viewport. *)
Definition clamp_axis (playerPos : Q) (dungeonPixels viewport : Z) : Q :=
  let x := centered_offset playerPos viewport in
  let x := if Qltb x 0 then 0%Q else x in
  if Qltb (inject_Z (dungeonPixels - viewport)) x
  then inject_Z (dungeonPixels - viewport) else x.

(** The frames of a key held down: the same direction, one delta each. *)
Definition held (d : Direction) (deltas : list Q) : list (Direction * Q) :=
  map (fun dt => (d, dt)) deltas.

(** A move to the right of the cell (x, y) that has just been started
    while the continuous-move latch is on. *)
Definition restarting (x y : Z) (p : Player) : Prop :=
  isMoving p = true /\ moveProgress p = 0%Q /\
  gridX p = x /\ gridY p = y /\
  targetGridX p = x + 1 /\ targetGridY p = y /\
  lastInputDirection p = RIGHT /\ continuousMoveEnabled p = true.

(** ** Concrete inputs of the examples *)

(** The zero-initialised globals at program start, with a sample tape. *)
Definition sample_tape : nat -> N := fun n => N.of_nat (n * n * 7 + n * 13 + 5).

Definition start_world : World :=
  mkWorld (replicate 30 (replicate 40 FLOOR)) [] sample_tape 0.

(** A dungeon of walls with the single room (1,1) 5x5 carved. *)
Definition one_room : Room := mkRoom 1 1 5 5.

Definition one_room_world : World :=
  mkWorld (map (fun y => map (fun x => if in_room one_room x y then FLOOR else WALL)
                             (map Z.of_nat (seq 0 40)))
               (map Z.of_nat (seq 0 30)))
          [one_room] sample_tape 0.

Definition one_room_game : Game :=
  mkGame one_room_world
         (setGridPosition (room_centerX one_room) (room_centerY one_room) newPlayer)
         newCamera.

(** A player caught mid-move. *)
Definition moving_player : Player :=
  mkPlayer 3 3 (cell_pixel 3) (cell_pixel 3) true RIGHT 0.5 4 3 RIGHT 0.2 true.

(** ** Menus and rendering *)

Inductive GameState : Set := MAIN_MENU | PLAYING | PAUSED | QUIT.

Record SDL_Rect : Set := mkRect {
  rect_x : Z;
  rect_y : Z;
  rect_w : Z;
  rect_h : Z
}.

Record Button : Set := mkButton {
  button_rect : SDL_Rect;
  button_text : string;
  hovered : bool
}.

(** The calls the program makes on the renderer, in program order.  The
    blend mode is always [SDL_BLENDMODE_BLEND]. *)
Inductive SDLCall : Set :=
| SetRenderDrawColor (r g b a : Z)
| SetRenderDrawBlendMode
| RenderClear
| RenderFillRect (rect : SDL_Rect)
| RenderDrawRect (rect : SDL_Rect)
| RenderPresent.

(** [static_cast<int>] of a [float]: truncation towards zero. *)
Definition trunc_int (q : Q) : Z := Z.quot (Qnum q) (Zpos (Qden q)).

Definition drawText (text : string) (x y size : Z) : list SDLCall :=
  let textBg := mkRect (x - 5) (y - 5)
                       (Z.of_nat (String.length text) * size) (size + 10) in
  [SetRenderDrawColor 60 60 60 255; RenderFillRect textBg].

Definition drawButton (button : Button) : list SDLCall :=
  [ if hovered button then SetRenderDrawColor 100 150 200 255
    else SetRenderDrawColor 70 100 140 255;
    RenderFillRect (button_rect button);
    SetRenderDrawColor 200 200 200 255;
    RenderDrawRect (button_rect button) ] ++
  drawText (button_text button)
           (rect_x (button_rect button) + 20)
           (rect_y (button_rect button)
            + Z.quot (rect_h (button_rect button)) 2 - 10)
           20.

Definition isPointInRect (x y : Z) (rect : SDL_Rect) : bool :=
  (x >=? rect_x rect) && (x <=? rect_x rect + rect_w rect) &&
  (y >=? rect_y rect) && (y <=? rect_y rect + rect_h rect).

(** [for (auto& button : buttons) { button.hovered = ...; drawButton(...); }]:
    the buttons with their new hover flags, and the calls made. *)
Fixpoint hover_and_draw (mouseX mouseY : Z) (buttons : list Button)
  : list Button * list SDLCall :=
  match buttons with
  | [] => ([], [])
  | button :: rest =>
      let button := mkButton (button_rect button) (button_text button)
                      (isPointInRect mouseX mouseY (button_rect button)) in
      let '(rest, calls) := hover_and_draw mouseX mouseY rest in
      (button :: rest, drawButton button ++ calls)
  end.

Definition renderMainMenu (buttons : list Button) (mouseX mouseY : Z)
  : list Button * list SDLCall :=
  let titleBg := mkRect (Z.quot SCREEN_WIDTH 2 - 150) 100 300 80 in
  let '(buttons, calls) := hover_and_draw mouseX mouseY buttons in
  (buttons,
   [SetRenderDrawColor 30 30 50 255; RenderClear;
    SetRenderDrawColor 80 80 120 255; RenderFillRect titleBg;
    SetRenderDrawColor 200 200 200 255; RenderDrawRect titleBg]
   ++ calls ++ [RenderPresent]).

Definition renderPauseMenu (buttons : list Button) (mouseX mouseY : Z)
  : list Button * list SDLCall :=
  let overlay := mkRect 0 0 SCREEN_WIDTH SCREEN_HEIGHT in
  let menuBg := mkRect (Z.quot SCREEN_WIDTH 2 - 200)
                       (Z.quot SCREEN_HEIGHT 2 - 200) 400 400 in
  let titleBg := mkRect (Z.quot SCREEN_WIDTH 2 - 100)
                        (Z.quot SCREEN_HEIGHT 2 - 180) 200 50 in
  let '(buttons, calls) := hover_and_draw mouseX mouseY buttons in
  (buttons,
   [SetRenderDrawBlendMode;
    SetRenderDrawColor 0 0 0 180; RenderFillRect overlay;
    SetRenderDrawColor 40 40 60 255; RenderFillRect menuBg;
    SetRenderDrawColor 150 150 150 255; RenderDrawRect menuBg;
    SetRenderDrawColor 60 60 80 255; RenderFillRect titleBg]
   ++ calls ++ [RenderPresent]).

(** A counted loop whose body yields renderer calls. *)
Fixpoint collect_loop (n : nat) (i : Z) (body : Z -> M (list SDLCall))
  : M (list SDLCall) :=
  match n with
  | O => ret []
  | S n' =>
      let* first := body i in
      let* others := collect_loop n' (i + 1) body in
      ret (first ++ others)
  end.

Definition collect_range (lo hi : Z) (body : Z -> M (list SDLCall))
  : M (list SDLCall) :=
  collect_loop (Z.to_nat (hi - lo)) lo body.

(** The body of the tile loops of [renderGame]; each comparison reads
    [dungeon[row][col]] anew. *)
Definition draw_tile (camera : Camera) (row col : Z) : M (list SDLCall) :=
  let tile := mkRect (col * TILE_SIZE - trunc_int (cam_x camera))
                     (row * TILE_SIZE - trunc_int (cam_y camera))
                     TILE_SIZE TILE_SIZE in
  let* t := get_cell col row in
  if tile_eqb t WALL then
    ret [SetRenderDrawColor 60 60 80 255; RenderFillRect tile]
  else
    let* t := get_cell col row in
    if tile_eqb t FLOOR then
      ret [SetRenderDrawColor 30 35 40 255; RenderFillRect tile;
           SetRenderDrawColor 45 50 55 255; RenderDrawRect tile]
    else
      let* t := get_cell col row in
      if tile_eqb t CORRIDOR then
        ret [SetRenderDrawColor 35 40 45 255; RenderFillRect tile]
      else ret [].

(** The sums [camera.x + camera.width] and [camera.y + camera.height] are
    exact here; rounded to binary32 they can reach the next whole number,
    which gives the loops one more column or row. *)
Definition renderGame (player : Player) (camera : Camera)
  : M (list SDLCall) :=
  let startCol := Z.quot (trunc_int (cam_x camera)) TILE_SIZE in
  let endCol :=
    Z.quot (trunc_int (cam_x camera + inject_Z (cam_width camera))) TILE_SIZE
    + 1 in
  let startRow := Z.quot (trunc_int (cam_y camera)) TILE_SIZE in
  let endRow :=
    Z.quot (trunc_int (cam_y camera + inject_Z (cam_height camera))) TILE_SIZE
    + 1 in
  let startCol := Z.max 0 startCol in
  let endCol := Z.min DUNGEON_WIDTH endCol in
  let startRow := Z.max 0 startRow in
  let endRow := Z.min DUNGEON_HEIGHT endRow in
  let* tiles :=
    collect_range startRow endRow (fun row =>
      collect_range startCol endCol (fun col => draw_tile camera row col)) in
  let playerRect := mkRect (trunc_int (pixelX player - cam_x camera))
                           (trunc_int (pixelY player - cam_y camera))
                           PLAYER_SIZE PLAYER_SIZE in
  ret ([SetRenderDrawColor 10 10 10 255; RenderClear] ++ tiles ++
       [SetRenderDrawColor 255 200 50 255; RenderFillRect playerRect;
        SetRenderDrawColor 255 230 100 255; RenderDrawRect playerRect;
        RenderPresent]).

(** ** The main loop *)

(** What [SDL_PollEvent] delivers, as far as [main] looks at it: the type,
    the mouse position of a motion, whether the button is the left one,
    whether the key is Escape. *)
Inductive Event : Set :=
| QuitEvent
| MouseMotion (x y : Z)
| MouseButtonDown (left : bool)
| KeyDown (escape : bool)
| OtherEvent.

(** What the program emits: text on standard output, renderer calls, and
    the delay that ends an iteration. *)
Inductive Output : Set :=
| Stdout (text : string)
| Render (call : SDLCall)
| Delay (ms : Z).

Definition newline : string := String (Ascii.ascii_of_N 10) EmptyString.

(** The locals of [main] that outlive an iteration, with the globals inside
    [game]. *)
Record Main : Type := mkMain {
  game : Game;
  mainMenuButtons : list Button;
  pauseMenuButtons : list Button;
  gameState : GameState;
  running : bool;
  lastTime : Z;
  mouseX : Z;
  mouseY : Z
}.

Definition set_game (g : Game) (m : Main) : Main :=
  mkMain g (mainMenuButtons m) (pauseMenuButtons m) (gameState m) (running m)
         (lastTime m) (mouseX m) (mouseY m).

Definition set_gameState (s : GameState) (m : Main) : Main :=
  mkMain (game m) (mainMenuButtons m) (pauseMenuButtons m) s (running m)
         (lastTime m) (mouseX m) (mouseY m).

Definition set_running (b : bool) (m : Main) : Main :=
  mkMain (game m) (mainMenuButtons m) (pauseMenuButtons m) (gameState m) b
         (lastTime m) (mouseX m) (mouseY m).

Definition set_lastTime (t : Z) (m : Main) : Main :=
  mkMain (game m) (mainMenuButtons m) (pauseMenuButtons m) (gameState m)
         (running m) t (mouseX m) (mouseY m).

Definition set_mouse (x y : Z) (m : Main) : Main :=
  mkMain (game m) (mainMenuButtons m) (pauseMenuButtons m) (gameState m)
         (running m) (lastTime m) x y.

Definition set_mainMenuButtons (buttons : list Button) (m : Main) : Main :=
  mkMain (game m) buttons (pauseMenuButtons m) (gameState m) (running m)
         (lastTime m) (mouseX m) (mouseY m).

Definition set_pauseMenuButtons (buttons : list Button) (m : Main) : Main :=
  mkMain (game m) (mainMenuButtons m) buttons (gameState m) (running m)
         (lastTime m) (mouseX m) (mouseY m).

(** A step of [main]: the new state and what was emitted, or a fault. *)
Definition Step : Type := option (Main * list Output).

Definition and_then (r : Step) (k : Main -> Step) : Step :=
  match r with
  | Some (m, out) =>
      match k m with
      | Some (m', out') => Some (m', out ++ out')
      | None => None
      end
  | None => None
  end.

Notation "r '>>>' k" := (and_then r k) (at level 60, right associativity).

(** [generateDungeon()] followed by the spawn in the centre of [rooms[0]],
    skipped when no room was placed; then [gameState = PLAYING]. *)
Definition new_dungeon (m : Main) : Step :=
  match generateDungeon (world (game m)) with
  | Some (_, w) =>
      let p := match rooms w with
               | [] => player (game m)
               | first :: _ =>
                   let spawnX := room_x first + Z.quot (room_width first) 2 in
                   let spawnY := room_y first + Z.quot (room_height first) 2 in
                   setGridPosition spawnX spawnY (player (game m))
               end in
      Some (set_gameState PLAYING
              (set_game (mkGame w p (camera (game m))) m), [])
  | None => None
  end.

(** The bodies of the two click loops, for the button of index [i]. *)
Definition main_menu_action (i : Z) (m : Main) : Step :=
  if i =? 0 then new_dungeon m
  else if i =? 1 then
    Some (m, [Stdout (String.append "Options clicked" newline)])
  else if i =? 2 then Some (set_running false m, [])
  else Some (m, []).

Definition pause_menu_action (i : Z) (m : Main) : Step :=
  if i =? 0 then Some (set_gameState PLAYING m, [])
  else if i =? 1 then new_dungeon m
  else if i =? 2 then Some (set_gameState MAIN_MENU m, [])
  else Some (m, []).

(** [for (size_t i = 0; i < buttons.size(); i++) if (buttons[i].hovered) ...];
    the loop does not change the buttons. *)
Fixpoint click_loop (action : Z -> Main -> Step) (i : Z)
  (buttons : list Button) (m : Main) : Step :=
  match buttons with
  | [] => Some (m, [])
  | button :: rest =>
      (if hovered button then action i m else Some (m, []))
      >>> click_loop action (i + 1) rest
  end.

(** The body of the [SDL_PollEvent] loop. *)
Definition handle_event (event : Event) (m : Main) : Step :=
  match event with
  | QuitEvent => Some (set_running false m, [])
  | MouseMotion x y => Some (set_mouse x y m, [])
  | MouseButtonDown true =>
      match gameState m with
      | MAIN_MENU => click_loop main_menu_action 0 (mainMenuButtons m) m
      | PAUSED => click_loop pause_menu_action 0 (pauseMenuButtons m) m
      | _ => Some (m, [])
      end
  | KeyDown true =>
      match gameState m with
      | PLAYING => Some (set_gameState PAUSED m, [])
      | PAUSED => Some (set_gameState PLAYING m, [])
      | _ => Some (m, [])
      end
  | _ => Some (m, [])
  end.

Fixpoint poll_events (events : list Event) (m : Main) : Step :=
  match events with
  | [] => Some (m, [])
  | event :: rest => handle_event event m >>> poll_events rest
  end.

(** What one iteration of [while (running)] reads from outside: the value
    of [SDL_GetTicks()], the events pending, and the keyboard state. *)
Record FrameInput : Set := mkFrameInput {
  ticks : Z;
  events : list Event;
  keyState : KeyState
}.

(** [(currentTime - lastTime) / 1000.0f]; the difference is taken in
    [Uint32], modulo 2^32.  Its conversion to [float] and the division are
    exact here, rounded to binary32 in the code. *)
Definition frame_delta (currentTime lastTime : Z) : Q :=
  (inject_Z ((currentTime - lastTime) mod 2 ^ 32) / 1000)%Q.

Definition update_playing (keys : KeyState) (deltaTime : Q) (m : Main)
  : Step :=
  match gameState m with
  | PLAYING =>
      match playing_frame (getDirectionFromInput keys) deltaTime (game m) with
      | Some g => Some (set_game g m, [Stdout (String.append "Playing" newline)])
      | None => None
      end
  | _ => Some (m, [])
  end.

Definition render_game (m : Main) : Step :=
  match renderGame (player (game m)) (camera (game m)) (world (game m)) with
  | Some (calls, _) => Some (m, map Render calls)
  | None => None
  end.

Definition render (m : Main) : Step :=
  match gameState m with
  | MAIN_MENU =>
      let '(buttons, calls) :=
        renderMainMenu (mainMenuButtons m) (mouseX m) (mouseY m) in
      Some (set_mainMenuButtons buttons m, map Render calls)
  | PLAYING => render_game m
  | PAUSED =>
      render_game m >>> (fun m =>
      let '(buttons, calls) :=
        renderPauseMenu (pauseMenuButtons m) (mouseX m) (mouseY m) in
      Some (set_pauseMenuButtons buttons m, map Render calls))
  | QUIT => Some (m, [])
  end.

(** One iteration of [while (running)]. *)
Definition main_iteration (input : FrameInput) (m : Main) : Step :=
  let currentTime := ticks input in
  let deltaTime := frame_delta currentTime (lastTime m) in
  let m := set_lastTime currentTime m in
  poll_events (events input) m >>> (fun m =>
  update_playing (keyState input) deltaTime m >>> (fun m =>
  render m >>> (fun m =>
  Some (m, [Delay 16])))).

(** The loop, over the inputs of as many iterations as are given; it ends
    early once [running] is false. *)
Fixpoint main_loop (inputs : list FrameInput) (m : Main) : Step :=
  if running m then
    match inputs with
    | [] => Some (m, [])
    | input :: rest => main_iteration input m >>> main_loop rest
    end
  else Some (m, []).

(** The globals before [main]: a zero-initialised grid, which reads as all
    Floor, and no rooms. *)
Definition zero_world (tape : nat -> N) : World :=
  mkWorld (replicate (Z.to_nat DUNGEON_HEIGHT)
             (replicate (Z.to_nat DUNGEON_WIDTH) FLOOR))
          [] tape 0.

(** The state in which [main] enters its loop, SDL initialised. *)
Definition main_start (tape : nat -> N) (startTicks : Z) : Main :=
  mkMain (mkGame (zero_world tape) newPlayer newCamera)
    [ mkButton (mkRect (Z.quot SCREEN_WIDTH 2 - 100) 250 200 50)
               "Start Dungeon" false;
      mkButton (mkRect (Z.quot SCREEN_WIDTH 2 - 100) 320 200 50)
               "Options" false;
      mkButton (mkRect (Z.quot SCREEN_WIDTH 2 - 100) 390 200 50)
               "Quit" false ]
    [ mkButton (mkRect (Z.quot SCREEN_WIDTH 2 - 100)
                       (Z.quot SCREEN_HEIGHT 2 - 80) 200 50)
               "Resume" false;
      mkButton (mkRect (Z.quot SCREEN_WIDTH 2 - 100)
                       (Z.quot SCREEN_HEIGHT 2 - 10) 200 50)
               "New Dungeon" false;
      mkButton (mkRect (Z.quot SCREEN_WIDTH 2 - 100)
                       (Z.quot SCREEN_HEIGHT 2 + 60) 200 50)
               "Main Menu" false ]
    MAIN_MENU true startTicks 0 0.


(** ** Vocabulary of the further properties: the generator *)

(** The cells rooms and corridors can occupy: one cell off the left and top
    border, two cells off the right and bottom border. *)
Definition interior (cx cy : Z) : Prop :=
  1 <= cx <= DUNGEON_WIDTH - 3 /\ 1 <= cy <= DUNGEON_HEIGHT - 3.

(** Every passable cell lies in the interior. *)
Definition enclosed (g : list (list TileType)) : Prop :=
  forall cx cy, passable g (cx, cy) -> interior cx cy.

(** Every passable cell is linked to the centre of some placed room. *)
Definition all_linked (g : list (list TileType)) (rs : list Room) : Prop :=
  forall c, passable g c -> exists r, r ∈ rs /\ reachable g c (room_center r).

(** What the corridor step of an accepted attempt does to the world: nothing
    when no room was placed before, else one call of [rand()] and the two
    segments of the L in one of the two orders. *)
Inductive corridor_effect (n : Room) : option Room -> World -> World -> Prop :=
| corridor_none w : corridor_effect n None w w
| corridor_hv prev w wa wb wc :
    dungeon wa = dungeon w -> rooms wa = rooms w ->
    painted (on_hsegment (room_centerX prev) (room_centerX n) (room_centerY prev))
            wall_to_corridor wa wb ->
    painted (on_vsegment (room_centerY prev) (room_centerY n) (room_centerX n))
            wall_to_corridor wb wc ->
    corridor_effect n (Some prev) w wc
| corridor_vh prev w wa wb wc :
    dungeon wa = dungeon w -> rooms wa = rooms w ->
    painted (on_vsegment (room_centerY prev) (room_centerY n) (room_centerX prev))
            wall_to_corridor wa wb ->
    painted (on_hsegment (room_centerX prev) (room_centerX n) (room_centerY n))
            wall_to_corridor wb wc ->
    corridor_effect n (Some prev) w wc.

(** What one placement attempt does: the sampled room clashes and nothing
    but [rand()]'s state changes, or it is carved, linked and appended. *)
Definition place_effect (w w' : World) : Prop :=
  (exists n, room_fits n /\ roomOverlaps n (rooms w) 2 = true /\
             dungeon w' = dungeon w /\ rooms w' = rooms w) \/
  (exists n w0 w1 w2,
      room_fits n /\ roomOverlaps n (rooms w) 2 = false /\
      dungeon w0 = dungeon w /\ rooms w0 = rooms w /\
      painted (in_room n) (fun _ => FLOOR) w0 w1 /\
      corridor_effect n (last (rooms w)) w1 w2 /\
      dungeon w' = dungeon w2 /\ rooms w' = rooms w ++ [n]).

(** The invariant of the placement loop for the further properties. *)
Definition gen_inv_more (w : World) : Prop :=
  gen_inv (dungeon w) (rooms w) /\ enclosed (dungeon w) /\
  all_linked (dungeon w) (rooms w).

(** A grid of walls. *)
Definition wall_grid : list (list TileType) :=
  replicate (Z.to_nat DUNGEON_HEIGHT) (replicate (Z.to_nat DUNGEON_WIDTH) WALL).

(** A tape that repeats one value: every attempt samples the same room. *)
Definition constant_tape (v : N) : nat -> N := fun _ => v.

(** ** Vocabulary of the further properties: the player *)

(** The player's cells are sound for the grid [g]: the current and the
    target cell are passable, the target is the current cell or one of its
    eight neighbours, and an idle player has reached its target and sits on
    its cell's canonical pixel position. *)
Definition player_safe (g : list (list TileType)) (p : Player) : Prop :=
  passable g (gridX p, gridY p) /\
  passable g (targetGridX p, targetGridY p) /\
  Z.abs (targetGridX p - gridX p) <= 1 /\
  Z.abs (targetGridY p - gridY p) <= 1 /\
  (isMoving p = false ->
   targetGridX p = gridX p /\ targetGridY p = gridY p /\
   pixelX p = cell_pixel (gridX p) /\ pixelY p = cell_pixel (gridY p)).

(** [x] lies between [a] and [b], whichever is larger. *)
Definition Qbetween (a b x : Q) : Prop :=
  ((a <= x)%Q /\ (x <= b)%Q) \/ ((b <= x)%Q /\ (x <= a)%Q).

(** [x'] is at least as close to [b] as [x], on the same side of it. *)
Definition Qtoward (b x x' : Q) : Prop :=
  ((x <= x')%Q /\ (x' <= b)%Q) \/ ((b <= x')%Q /\ (x' <= x)%Q).

(** No key down. *)
Definition no_keys : KeyState :=
  mkKeys false false false false false false false false.

(** The motion state the frame update keeps: the progress is not negative;
    the pixel position lies between the canonical positions of the current
    and the target cell, and on the current cell's when idle; a move in
    flight heads for the cell its direction points at (or, after a snap,
    for the current cell); and while the held direction differs from the
    move's, the continuous-move latch is off and the hold time lags the
    progress. *)
Definition player_steady (p : Player) : Prop :=
  (0 <= moveProgress p)%Q /\
  Qbetween (cell_pixel (gridX p)) (cell_pixel (targetGridX p)) (pixelX p) /\
  Qbetween (cell_pixel (gridY p)) (cell_pixel (targetGridY p)) (pixelY p) /\
  (isMoving p = false ->
   (pixelX p == cell_pixel (gridX p))%Q /\
   (pixelY p == cell_pixel (gridY p))%Q) /\
  (isMoving p = true ->
   ((targetGridX p, targetGridY p) =
      getTargetFromDirection (movingDirection p) (gridX p) (gridY p) \/
    (targetGridX p = gridX p /\ targetGridY p = gridY p)) /\
   (lastInputDirection p <> movingDirection p ->
    continuousMoveEnabled p = false /\
    (MOVE_SPEED * inputHoldTime p <= moveProgress p)%Q)).

(** Every frame's time delta is non-negative. *)
Definition forward_frames (frames : list (Direction * Q)) : Prop :=
  Forall (fun f => (0 <= snd f)%Q) frames.

(** ** Vocabulary of the further properties: rendering *)

(** The rectangle [renderGame] computes for the tile in [row] and [col]. *)
Definition tile_rect (c : Camera) (row col : Z) : SDL_Rect :=
  mkRect (col * TILE_SIZE - trunc_int (cam_x c))
         (row * TILE_SIZE - trunc_int (cam_y c)) TILE_SIZE TILE_SIZE.

(** The rectangle shares a pixel with the window. *)
Definition rect_on_screen (r : SDL_Rect) : Prop :=
  rect_x r < SCREEN_WIDTH /\ 0 < rect_x r + rect_w r /\
  rect_y r < SCREEN_HEIGHT /\ 0 < rect_y r + rect_h r.

(** The rectangle lies inside the window. *)
Definition rect_inside_screen (r : SDL_Rect) : Prop :=
  0 <= rect_x r /\ rect_x r + rect_w r <= SCREEN_WIDTH /\
  0 <= rect_y r /\ rect_y r + rect_h r <= SCREEN_HEIGHT.

(** A camera of the window's size, as [Camera()] makes it. *)
Definition screen_camera (c : Camera) : Prop :=
  cam_width c = SCREEN_WIDTH /\ cam_height c = SCREEN_HEIGHT.

(** The number of [SDL_RenderFillRect] calls in a sequence. *)
Fixpoint count_fills (calls : list SDLCall) : nat :=
  match calls with
  | [] => 0
  | RenderFillRect _ :: rest => S (count_fills rest)
  | _ :: rest => count_fills rest
  end.

(** ** Vocabulary of the further properties: the main loop *)

(** Total correctness of a step of [main]: it returns, and the new state
    and the output satisfy [post]. *)
Definition steps_to (r : Step) (post : Main -> list Output -> Prop) : Prop :=
  exists m out, r = Some (m, out) /\ post m out.

(** The rectangles of the two menus, as [main] lays them out. *)
Definition main_menu_rects : list SDL_Rect :=
  map button_rect (mainMenuButtons (main_start (fun _ => 0%N) 0)).

Definition pause_menu_rects : list SDL_Rect :=
  map button_rect (pauseMenuButtons (main_start (fun _ => 0%N) 0)).

(** No two buttons of the list carry the hover flag. *)
Definition one_hovered_at_most (buttons : list Button) : Prop :=
  forall (i j : nat) bi bj,
    buttons !! i = Some bi -> buttons !! j = Some bj ->
    hovered bi = true -> hovered bj = true -> i = j.

(** A generated dungeon with the player in it. *)
Definition dungeon_ready (g : Game) : Prop :=
  gen_inv_more (world g) /\ rooms (world g) <> [] /\
  player_safe (dungeon (world g)) (player g) /\
  player_steady (player g).

(** What [main] keeps from its first iteration on. *)
Definition main_inv (m : Main) : Prop :=
  wf_dungeon (dungeon (world (game m))) /\
  screen_camera (camera (game m)) /\
  map button_rect (mainMenuButtons m) = main_menu_rects /\
  map button_rect (pauseMenuButtons m) = pause_menu_rects /\
  one_hovered_at_most (mainMenuButtons m) /\
  one_hovered_at_most (pauseMenuButtons m) /\
  gameState m <> QUIT /\
  ((gameState m = MAIN_MENU /\ player (game m) = newPlayer) \/
   dungeon_ready (game m)).

(** An event that neither clicks the left button nor presses Escape. *)
Definition idle_event (event : Event) : Prop :=
  event <> MouseButtonDown true /\ event <> KeyDown true.

(** ** Proof automation *)

(** Boolean integer comparisons, decided by case analysis and [lia]. *)
Ltac zcase_goal :=
  match goal with
  | |- context [Z.eqb ?m ?n] => destruct (Z.eqb_spec m n) as [? | ?]
  | |- context [Z.ltb ?m ?n] => destruct (Z.ltb_spec m n) as [? | ?]
  | |- context [Z.leb ?m ?n] => destruct (Z.leb_spec m n) as [? | ?]
  end.

Ltac zcase_hyp :=
  match goal with
  | Hc : context [Z.eqb ?m ?n] |- _ => destruct (Z.eqb_spec m n) as [? | ?]
  | Hc : context [Z.ltb ?m ?n] |- _ => destruct (Z.ltb_spec m n) as [? | ?]
  | Hc : context [Z.leb ?m ?n] |- _ => destruct (Z.leb_spec m n) as [? | ?]
  end.

Ltac zcases :=
  rewrite ?Z.geb_leb, ?Z.gtb_ltb in *;
  repeat zcase_goal; repeat zcase_hyp;
  cbn [andb orb negb] in *;
  try reflexivity; try discriminate; try lia.

(** ** The monad: reasoning rules *)

Lemma runs_ret {A} (a : A) w (post : A -> World -> Prop) :
  post a w -> runs_to (ret a) w post.
Proof. intros H. exists a, w. split; [reflexivity | exact H]. Qed.

Lemma runs_bind {A B} (m : M A) (f : A -> M B) w (post : B -> World -> Prop) :
  runs_to m w (fun a w' => runs_to (f a) w' post) ->
  runs_to (bind m f) w post.
Proof.
  intros (a & w' & Hm & b & w'' & Hf & Hpost).
  exists b, w''. split; [| exact Hpost].
  unfold bind. rewrite Hm. exact Hf.
Qed.

Lemma runs_weaken {A} (m : M A) w (post post' : A -> World -> Prop) :
  runs_to m w post ->
  (forall a w', post a w' -> post' a w') ->
  runs_to m w post'.
Proof.
  intros (a & w' & Hm & Hp) Himp. exists a, w'. split; [exact Hm | auto].
Qed.

Lemma runs_det {A} (m : M A) w (post : A -> World -> Prop) a w' :
  runs_to m w post -> m w = Some (a, w') -> post a w'.
Proof.
  intros (a0 & w0 & Hm & Hp) Heq. rewrite Hm in Heq.
  injection Heq as -> ->. exact Hp.
Qed.

(** A [for] loop keeps an invariant indexed by the loop variable. *)
Lemma runs_for_loop (I : Z -> World -> Prop) body n :
  forall i w,
    I i w ->
    (forall j w0, i <= j < i + Z.of_nat n -> I j w0 ->
                  runs_to (body j) w0 (fun _ w1 => I (j + 1) w1)) ->
    runs_to (for_loop n i body) w (fun _ w' => I (i + Z.of_nat n) w').
Proof.
  induction n as [| n IH]; intros i w Hi Hbody.
  - apply runs_ret. replace (i + Z.of_nat 0) with i by lia. exact Hi.
  - cbn [for_loop]. apply runs_bind.
    eapply runs_weaken.
    + apply Hbody; [lia | exact Hi].
    + intros u1 w1 H1. cbv beta in H1.
      eapply runs_weaken.
      * apply (IH (i + 1) w1 H1). intros j w0 Hj. apply Hbody. lia.
      * intros u2 w2 H2. cbv beta in H2.
        replace (i + Z.of_nat (S n)) with (i + 1 + Z.of_nat n) by lia.
        exact H2.
Qed.

Lemma runs_for_range (I : Z -> World -> Prop) body lo hi w :
  I lo w ->
  (forall j w0, lo <= j < hi -> I j w0 ->
                runs_to (body j) w0 (fun _ w1 => I (j + 1) w1)) ->
  runs_to (for_range lo hi body) w (fun _ w' => I (Z.max lo hi) w').
Proof.
  intros Hlo Hbody. unfold for_range.
  eapply runs_weaken.
  - apply (runs_for_loop I body (Z.to_nat (hi - lo)) lo w Hlo).
    intros j w0 Hj. apply Hbody. lia.
  - intros u' w' H. cbv beta in H.
    replace (Z.max lo hi) with (lo + Z.of_nat (Z.to_nat (hi - lo))) by lia.
    exact H.
Qed.

(** ** The grid: reads and writes *)

Lemma cell_at_Some_inv g x y t :
  wf_dungeon g -> cell_at g x y = Some t ->
  0 <= x < DUNGEON_WIDTH /\ 0 <= y < DUNGEON_HEIGHT.
Proof.
  intros [Hlen Hrows] H. unfold cell_at in H.
  destruct (0 <=? x) eqn:Hx; [| discriminate].
  destruct (0 <=? y) eqn:Hy; [| discriminate].
  cbn [andb] in H.
  destruct (g !! Z.to_nat y) as [row |] eqn:Hrow; [| discriminate].
  pose proof (lookup_lt_Some _ _ _ Hrow) as Hly.
  pose proof (lookup_lt_Some _ _ _ H) as Hlx.
  rewrite (Forall_lookup_1 _ _ _ _ Hrows Hrow) in Hlx.
  rewrite Hlen in Hly. lia.
Qed.

Lemma cell_at_in_range g x y :
  wf_dungeon g ->
  0 <= x < DUNGEON_WIDTH -> 0 <= y < DUNGEON_HEIGHT ->
  exists t, cell_at g x y = Some t.
Proof.
  intros [Hlen Hrows] Hx Hy. unfold cell_at.
  replace (0 <=? x) with true by (symmetry; apply Z.leb_le; lia).
  replace (0 <=? y) with true by (symmetry; apply Z.leb_le; lia).
  cbn [andb].
  destruct (lookup_lt_is_Some_2 g (Z.to_nat y)) as [row Hrow]; [lia |].
  rewrite Hrow.
  destruct (lookup_lt_is_Some_2 row (Z.to_nat x)) as [t Ht].
  - rewrite (Forall_lookup_1 _ _ _ _ Hrows Hrow). lia.
  - exists t. exact Ht.
Qed.

Lemma cell_at_outside g x y :
  wf_dungeon g ->
  ~ (0 <= x < DUNGEON_WIDTH /\ 0 <= y < DUNGEON_HEIGHT) ->
  cell_at g x y = None.
Proof.
  intros Hwf Hout. destruct (cell_at g x y) as [t |] eqn:H; [| reflexivity].
  exfalso. apply Hout. exact (cell_at_Some_inv _ _ _ _ Hwf H).
Qed.

Lemma wf_dungeon_write g nx ny t :
  wf_dungeon g ->
  wf_dungeon (alter (fun row => <[nx := t]> row) ny g).
Proof.
  intros [Hlen Hrows]. split.
  - rewrite length_alter. exact Hlen.
  - apply Forall_lookup. intros i row Hi.
    destruct (decide (ny = i)) as [-> | Hne].
    + rewrite list_lookup_alter_eq in Hi.
      destruct (g !! i) as [row0 |] eqn:H0; [| discriminate].
      cbn in Hi. injection Hi as <-. rewrite length_insert.
      exact (Forall_lookup_1 _ _ _ _ Hrows H0).
    + rewrite list_lookup_alter_ne in Hi by exact Hne.
      exact (Forall_lookup_1 _ _ _ _ Hrows Hi).
Qed.

Lemma cell_at_write g x y t cx cy :
  wf_dungeon g ->
  0 <= x < DUNGEON_WIDTH -> 0 <= y < DUNGEON_HEIGHT ->
  cell_at (alter (fun row => <[Z.to_nat x := t]> row) (Z.to_nat y) g) cx cy =
  (if (cx =? x) && (cy =? y) then fun _ => t else id) <$> cell_at g cx cy.
Proof.
  intros Hwf Hx Hy. pose proof Hwf as [Hlen Hrows]. unfold cell_at.
  destruct (0 <=? cx) eqn:Hcx; cbn [andb]; [| reflexivity].
  destruct (0 <=? cy) eqn:Hcy; cbn [andb]; [| reflexivity].
  apply Z.leb_le in Hcx, Hcy.
  destruct (Z.eqb_spec cy y) as [-> | Hney].
  - rewrite list_lookup_alter_eq.
    destruct (g !! Z.to_nat y) as [row |] eqn:Hrow; [| reflexivity].
    cbn [fmap option_fmap option_map].
    destruct (Z.eqb_spec cx x) as [-> | Hnex]; cbn [andb].
    + rewrite list_lookup_insert_eq.
      * destruct (lookup_lt_is_Some_2 row (Z.to_nat x)) as [t0 Ht0].
        -- rewrite (Forall_lookup_1 _ _ _ _ Hrows Hrow). lia.
        -- rewrite Ht0. reflexivity.
      * rewrite (Forall_lookup_1 _ _ _ _ Hrows Hrow). lia.
    + rewrite list_lookup_insert_ne by lia.
      destruct (row !! Z.to_nat cx); reflexivity.
  - rewrite andb_false_r.
    rewrite list_lookup_alter_ne by lia.
    destruct (g !! Z.to_nat cy) as [row |]; [| reflexivity].
    destruct (row !! Z.to_nat cx); reflexivity.
Qed.

Lemma same_rooms_rand_refl w : same_rooms_rand w w.
Proof. repeat split. Qed.

Lemma same_rooms_rand_trans w1 w2 w3 :
  same_rooms_rand w1 w2 -> same_rooms_rand w2 w3 -> same_rooms_rand w1 w3.
Proof.
  intros (a1 & a2 & a3) (b1 & b2 & b3).
  repeat split; congruence.
Qed.

Lemma set_cell_spec x y t w :
  wf_dungeon (dungeon w) ->
  0 <= x < DUNGEON_WIDTH -> 0 <= y < DUNGEON_HEIGHT ->
  runs_to (set_cell x y t) w
    (fun _ w' => painted (fun cx cy => (cx =? x) && (cy =? y)) (fun _ => t) w w').
Proof.
  intros Hwf Hx Hy.
  destruct (cell_at_in_range _ _ _ Hwf Hx Hy) as [t0 Ht0].
  unfold runs_to, set_cell. rewrite Ht0.
  eexists _, _. split; [reflexivity |].
  split; [| split].
  - cbn. apply wf_dungeon_write. exact Hwf.
  - repeat split.
  - intros cx cy. cbn [dungeon]. apply cell_at_write; assumption.
Qed.

Lemma get_cell_spec x y w :
  wf_dungeon (dungeon w) ->
  0 <= x < DUNGEON_WIDTH -> 0 <= y < DUNGEON_HEIGHT ->
  runs_to (get_cell x y) w
    (fun t w' => w' = w /\ cell_at (dungeon w) x y = Some t).
Proof.
  intros Hwf Hx Hy.
  destruct (cell_at_in_range _ _ _ Hwf Hx Hy) as [t0 Ht0].
  unfold runs_to, get_cell. rewrite Ht0.
  eexists _, _. split; [reflexivity |]. split; reflexivity.
Qed.

Lemma painted_none f w : wf_dungeon (dungeon w) -> painted (fun _ _ => false) f w w.
Proof.
  intros Hwf. split; [exact Hwf | split; [apply same_rooms_rand_refl |]].
  intros cx cy. destruct (cell_at (dungeon w) cx cy); reflexivity.
Qed.

(** Selections that agree give the same painting. *)
Lemma painted_ext sel sel' f w w' :
  (forall cx cy, sel cx cy = sel' cx cy) ->
  painted sel f w w' -> painted sel' f w w'.
Proof.
  intros Hext (Hwf & Hsame & Hcells). split; [exact Hwf | split; [exact Hsame |]].
  intros cx cy. rewrite <- Hext. apply Hcells.
Qed.

(** Painting one more cell, not selected so far. *)
Lemma painted_step sel f x y w w1 w2 :
  sel x y = false ->
  painted sel f w w1 ->
  painted (fun cx cy => (cx =? x) && (cy =? y)) f w1 w2 ->
  painted (fun cx cy => sel cx cy || ((cx =? x) && (cy =? y))) f w w2.
Proof.
  intros Hfresh (Hwf1 & Hs1 & Hc1) (Hwf2 & Hs2 & Hc2).
  split; [exact Hwf2 | split; [exact (same_rooms_rand_trans _ _ _ Hs1 Hs2) |]].
  intros cx cy. rewrite Hc2, Hc1.
  destruct ((cx =? x) && (cy =? y)) eqn:Heq.
  - apply andb_true_iff in Heq as [Hx%Z.eqb_eq Hy%Z.eqb_eq]. subst cx cy.
    rewrite Hfresh. cbn [orb].
    destruct (cell_at (dungeon w) x y); reflexivity.
  - rewrite orb_false_r.
    destruct (sel cx cy), (cell_at (dungeon w) cx cy); reflexivity.
Qed.

Lemma painted_outside f x y w :
  wf_dungeon (dungeon w) ->
  ~ (0 <= x < DUNGEON_WIDTH /\ 0 <= y < DUNGEON_HEIGHT) ->
  painted (fun cx cy => (cx =? x) && (cy =? y)) f w w.
Proof.
  intros Hwf Hout. split; [exact Hwf | split; [apply same_rooms_rand_refl |]].
  intros cx cy.
  destruct ((cx =? x) && (cy =? y)) eqn:Heq.
  - apply andb_true_iff in Heq as [Hx%Z.eqb_eq Hy%Z.eqb_eq]. subst cx cy.
    rewrite (cell_at_outside _ _ _ Hwf Hout). reflexivity.
  - destruct (cell_at (dungeon w) cx cy); reflexivity.
Qed.

(** Painting two disjoint selections in turn paints their union. *)
Lemma painted_union sel1 sel2 f w w1 w2 :
  (forall cx cy, sel1 cx cy = true -> sel2 cx cy = false) ->
  painted sel1 f w w1 ->
  painted sel2 f w1 w2 ->
  painted (fun cx cy => sel1 cx cy || sel2 cx cy) f w w2.
Proof.
  intros Hdisj (Hwf1 & Hs1 & Hc1) (Hwf2 & Hs2 & Hc2).
  split; [exact Hwf2 | split; [exact (same_rooms_rand_trans _ _ _ Hs1 Hs2) |]].
  intros cx cy. rewrite Hc2, Hc1.
  destruct (sel1 cx cy) eqn:H1.
  - rewrite (Hdisj _ _ H1). cbn [orb].
    destruct (cell_at (dungeon w) cx cy); reflexivity.
  - cbn [orb]. destruct (sel2 cx cy), (cell_at (dungeon w) cx cy); reflexivity.
Qed.

(** A loop whose iteration [j] paints the selection [sel j], the selections
    pairwise disjoint, paints their union [tot hi]; [tot i] is the union of
    the selections below [i]. *)
Lemma paint_loop (sel tot : Z -> Z -> Z -> bool) f body lo hi w :
  wf_dungeon (dungeon w) ->
  (forall j w0, lo <= j < hi -> wf_dungeon (dungeon w0) ->
     runs_to (body j) w0 (fun _ w1 => painted (sel j) f w0 w1)) ->
  (forall cx cy, tot lo cx cy = false) ->
  (forall j cx cy, lo <= j -> tot (j + 1) cx cy = tot j cx cy || sel j cx cy) ->
  (forall j cx cy, lo <= j -> tot j cx cy = true -> sel j cx cy = false) ->
  runs_to (for_range lo hi body) w
    (fun _ w' => painted (tot (Z.max lo hi)) f w w').
Proof.
  intros Hwf Hbody Hinit Hsucc Hdisj.
  eapply runs_weaken;
    [apply (runs_for_range (fun i w' => lo <= i /\ painted (tot i) f w w'))
    | intros u w' [_ H]; exact H].
  - split; [lia |].
    apply (painted_ext (fun _ _ => false)); [| apply painted_none; exact Hwf].
    intros cx cy. symmetry. apply Hinit.
  - intros j w0 Hj [_ Hp].
    eapply runs_weaken.
    + apply Hbody; [exact Hj | apply Hp].
    + intros u w1 H1. cbv beta in H1. split; [lia |].
      apply (painted_ext (fun cx cy => tot j cx cy || sel j cx cy)).
      * intros cx cy. symmetry. apply Hsucc. lia.
      * apply (painted_union _ _ _ _ w0); [| exact Hp | exact H1].
        intros cx cy. apply Hdisj. lia.
Qed.

(** ** Carving *)

Lemma carve_if_wall_spec x y w :
  wf_dungeon (dungeon w) ->
  runs_to (carve_if_wall x y) w
    (fun _ w' => painted (fun cx cy => (cx =? x) && (cy =? y)) wall_to_corridor w w').
Proof.
  intros Hwf. unfold carve_if_wall.
  destruct ((x >=? 0) && (x <? DUNGEON_WIDTH) && (y >=? 0) && (y <? DUNGEON_HEIGHT))
    eqn:Hguard.
  - assert (0 <= x < DUNGEON_WIDTH /\ 0 <= y < DUNGEON_HEIGHT) as [Hx Hy]
      by (revert Hguard; zcases).
    apply runs_bind. eapply runs_weaken; [apply get_cell_spec; assumption |].
    intros t w' [-> Ht]. cbv beta.
    destruct (tile_eqb t WALL) eqn:Hwall.
    + eapply runs_weaken; [apply set_cell_spec; assumption |].
      intros u w' (Hwf' & Hsame & Hcells). cbv beta.
      split; [exact Hwf' | split; [exact Hsame |]].
      intros cx cy. rewrite Hcells.
      destruct ((cx =? x) && (cy =? y)) eqn:Heq; [| reflexivity].
      apply andb_true_iff in Heq as [Hcx%Z.eqb_eq Hcy%Z.eqb_eq]. subst cx cy.
      rewrite Ht. cbn. unfold wall_to_corridor. rewrite Hwall. reflexivity.
    + apply runs_ret.
      split; [exact Hwf | split; [apply same_rooms_rand_refl |]].
      intros cx cy.
      destruct ((cx =? x) && (cy =? y)) eqn:Heq.
      * apply andb_true_iff in Heq as [Hcx%Z.eqb_eq Hcy%Z.eqb_eq]. subst cx cy.
        rewrite Ht. cbn. unfold wall_to_corridor. rewrite Hwall. reflexivity.
      * destruct (cell_at (dungeon w) cx cy); reflexivity.
  - apply runs_ret. apply painted_outside; [exact Hwf |].
    intros [Hx Hy]. revert Hguard. zcases.
Qed.

Lemma carveHorizontalCorridor_spec x1 x2 y w :
  wf_dungeon (dungeon w) ->
  runs_to (carveHorizontalCorridor x1 x2 y) w
    (fun _ w' => painted (on_hsegment x1 x2 y) wall_to_corridor w w').
Proof.
  intros Hwf. unfold carveHorizontalCorridor. cbv zeta.
  eapply runs_weaken.
  - apply (paint_loop
             (fun j cx cy => (cx =? j) && (cy =? y))
             (fun i cx cy => (cy =? y) && (Z.min x1 x2 <=? cx) && (cx <? i))
             wall_to_corridor _ _ _ w Hwf).
    + intros j w0 _ Hwf0. apply carve_if_wall_spec. exact Hwf0.
    + intros cx cy. zcases.
    + intros j cx cy Hj. zcases.
    + intros j cx cy Hj. zcases.
  - intros u w' H. cbv beta in H. revert H. apply painted_ext.
    intros cx cy. unfold on_hsegment. zcases.
Qed.

Lemma carveVerticalCorridor_spec y1 y2 x w :
  wf_dungeon (dungeon w) ->
  runs_to (carveVerticalCorridor y1 y2 x) w
    (fun _ w' => painted (on_vsegment y1 y2 x) wall_to_corridor w w').
Proof.
  intros Hwf. unfold carveVerticalCorridor. cbv zeta.
  eapply runs_weaken.
  - apply (paint_loop
             (fun j cx cy => (cx =? x) && (cy =? j))
             (fun i cx cy => (cx =? x) && (Z.min y1 y2 <=? cy) && (cy <? i))
             wall_to_corridor _ _ _ w Hwf).
    + intros j w0 _ Hwf0. apply carve_if_wall_spec. exact Hwf0.
    + intros cx cy. zcases.
    + intros j cx cy Hj. zcases.
    + intros j cx cy Hj. zcases.
  - intros u w' H. cbv beta in H. revert H. apply painted_ext.
    intros cx cy. unfold on_vsegment. zcases.
Qed.

Lemma carve_floor_cell_spec x y w :
  wf_dungeon (dungeon w) ->
  runs_to (if in_dungeon x y then set_cell x y FLOOR else ret tt) w
    (fun _ w' => painted (fun cx cy => (cx =? x) && (cy =? y)) (fun _ => FLOOR) w w').
Proof.
  intros Hwf. destruct (in_dungeon x y) eqn:Hguard; unfold in_dungeon in Hguard.
  - apply set_cell_spec; [exact Hwf | |]; revert Hguard; zcases.
  - apply runs_ret. apply painted_outside; [exact Hwf |].
    intros [Hx Hy]. revert Hguard. zcases.
Qed.

Lemma carveRoom_spec room w :
  wf_dungeon (dungeon w) ->
  runs_to (carveRoom room) w
    (fun _ w' => painted (in_room room) (fun _ => FLOOR) w w').
Proof.
  intros Hwf. unfold carveRoom.
  set (xlo := room_x room). set (xhi := room_x room + room_width room).
  set (ylo := room_y room). set (yhi := room_y room + room_height room).
  eapply runs_weaken.
  - apply (paint_loop
             (fun j cx cy => (cy =? j) && (xlo <=? cx) && (cx <? xhi))
             (fun i cx cy => (ylo <=? cy) && (cy <? i) && (xlo <=? cx) && (cx <? xhi))
             (fun _ => FLOOR) _ _ _ w Hwf).
    + intros y w0 _ Hwf0.
      eapply runs_weaken.
      * apply (paint_loop
                 (fun j cx cy => (cx =? j) && (cy =? y))
                 (fun i cx cy => (cy =? y) && (xlo <=? cx) && (cx <? i))
                 (fun _ => FLOOR) _ _ _ w0 Hwf0).
        -- intros x w1 _ Hwf1. apply carve_floor_cell_spec. exact Hwf1.
        -- intros cx cy. zcases.
        -- intros j cx cy Hj. zcases.
        -- intros j cx cy Hj. zcases.
      * intros u w1 H. cbv beta in H. revert H. apply painted_ext.
        intros cx cy. zcases.
    + intros cx cy. zcases.
    + intros j cx cy Hj. zcases.
    + intros j cx cy Hj. zcases.
  - intros u w' H. cbv beta in H. revert H. apply painted_ext.
    intros cx cy. unfold in_room. fold xlo xhi ylo yhi. zcases.
Qed.

(** The initialisation loops of [generateDungeon]. *)
Lemma fill_walls_spec w :
  wf_dungeon (dungeon w) ->
  runs_to (for_range 0 DUNGEON_HEIGHT (fun y =>
             for_range 0 DUNGEON_WIDTH (fun x => set_cell x y WALL))) w
    (fun _ w' => painted (fun _ _ => true) (fun _ => WALL) w w').
Proof.
  intros Hwf.
  eapply runs_weaken.
  - apply (paint_loop
             (fun j cx cy => (cy =? j) && (0 <=? cx) && (cx <? DUNGEON_WIDTH))
             (fun i cx cy =>
                (0 <=? cy) && (cy <? i) && (0 <=? cx) && (cx <? DUNGEON_WIDTH))
             (fun _ => WALL) _ _ _ w Hwf).
    + intros y w0 Hy Hwf0.
      eapply runs_weaken.
      * apply (paint_loop
                 (fun j cx cy => (cx =? j) && (cy =? y))
                 (fun i cx cy => (cy =? y) && (0 <=? cx) && (cx <? i))
                 (fun _ => WALL) _ _ _ w0 Hwf0).
        -- intros x w1 Hx Hwf1. apply set_cell_spec; [exact Hwf1 | lia | lia].
        -- intros cx cy. zcases.
        -- intros j cx cy Hj. zcases.
        -- intros j cx cy Hj. zcases.
      * intros u w1 H. cbv beta in H. revert H. apply painted_ext.
        intros cx cy. unfold DUNGEON_WIDTH. zcases.
    + intros cx cy. zcases.
    + intros j cx cy Hj. zcases.
    + intros j cx cy Hj. zcases.
  - intros u w' (Hwf' & Hsame & Hcells). cbv beta.
    split; [exact Hwf' | split; [exact Hsame |]].
    intros cx cy. rewrite Hcells.
    destruct (cell_at (dungeon w) cx cy) as [t |] eqn:Ht; [| zcases].
    apply (cell_at_Some_inv _ _ _ _ Hwf) in Ht.
    revert Ht. unfold DUNGEON_WIDTH, DUNGEON_HEIGHT. intros Ht. zcases.
Qed.

(** ** Reachability over passable cells *)

Lemma adjacent4_sym a b : adjacent4 a b -> adjacent4 b a.
Proof. unfold adjacent4. lia. Qed.

Lemma reachable_passable_l g a b : reachable g a b -> passable g a.
Proof. intros H. destruct H; assumption. Qed.

Lemma reachable_passable_r g a b : reachable g a b -> passable g b.
Proof. intros H. induction H; assumption. Qed.

Lemma reachable_trans g a b c :
  reachable g a b -> reachable g b c -> reachable g a c.
Proof.
  intros Hab Hbc. induction Hab as [| a m b Ha Hadj _ IH]; [exact Hbc |].
  exact (reach_step g a m c Ha Hadj (IH Hbc)).
Qed.

Lemma reachable_sym g a b : reachable g a b -> reachable g b a.
Proof.
  intros H. induction H as [c Hc | a m b Ha Hadj Hmb IH].
  - exact (reach_here g c Hc).
  - apply (reachable_trans g b m a IH).
    apply (reach_step g m a a (reachable_passable_l _ _ _ Hmb) (adjacent4_sym _ _ Hadj)).
    exact (reach_here g a Ha).
Qed.

Lemma reachable_mono g g' a b :
  (forall c, passable g c -> passable g' c) ->
  reachable g a b -> reachable g' a b.
Proof.
  intros Hmono H. induction H as [c Hc | a m b Ha Hadj _ IH].
  - apply reach_here. auto.
  - exact (reach_step g' a m b (Hmono _ Ha) Hadj IH).
Qed.

(** A straight run of passable cells is a path, horizontally ... *)
Lemma reachable_hline g y (n : nat) :
  forall x,
    (forall i, 0 <= i <= Z.of_nat n -> passable g (x + i, y)) ->
    reachable g (x, y) (x + Z.of_nat n, y).
Proof.
  induction n as [| n IH]; intros x Hrun.
  - replace (x + Z.of_nat 0) with x by lia.
    apply reach_here. specialize (Hrun 0). replace (x + 0) with x in Hrun by lia.
    apply Hrun. lia.
  - apply (reach_step g (x, y) (x + 1, y)).
    + specialize (Hrun 0). replace (x + 0) with x in Hrun by lia. apply Hrun. lia.
    + unfold adjacent4. cbn [fst snd]. lia.
    + replace (x + Z.of_nat (S n)) with (x + 1 + Z.of_nat n) by lia.
      apply IH. intros i Hi.
      replace (x + 1 + i) with (x + (i + 1)) by lia. apply Hrun. lia.
Qed.

(** ... and vertically. *)
Lemma reachable_vline g x (n : nat) :
  forall y,
    (forall i, 0 <= i <= Z.of_nat n -> passable g (x, y + i)) ->
    reachable g (x, y) (x, y + Z.of_nat n).
Proof.
  induction n as [| n IH]; intros y Hrun.
  - replace (y + Z.of_nat 0) with y by lia.
    apply reach_here. specialize (Hrun 0). replace (y + 0) with y in Hrun by lia.
    apply Hrun. lia.
  - apply (reach_step g (x, y) (x, y + 1)).
    + specialize (Hrun 0). replace (y + 0) with y in Hrun by lia. apply Hrun. lia.
    + unfold adjacent4. cbn [fst snd]. lia.
    + replace (y + Z.of_nat (S n)) with (y + 1 + Z.of_nat n) by lia.
      apply IH. intros i Hi.
      replace (y + 1 + i) with (y + (i + 1)) by lia. apply Hrun. lia.
Qed.

Lemma reachable_hsegment g xa xb y :
  (forall cx, Z.min xa xb <= cx <= Z.max xa xb -> passable g (cx, y)) ->
  reachable g (xa, y) (xb, y).
Proof.
  intros Hrun. destruct (Z.le_ge_cases xa xb) as [Hle | Hge].
  - replace (xb, y) with (xa + Z.of_nat (Z.to_nat (xb - xa)), y)
      by (f_equal; lia).
    apply reachable_hline. intros i Hi. apply Hrun. lia.
  - apply reachable_sym.
    replace (xa, y) with (xb + Z.of_nat (Z.to_nat (xa - xb)), y)
      by (f_equal; lia).
    apply reachable_hline. intros i Hi. apply Hrun. lia.
Qed.

Lemma reachable_vsegment g x ya yb :
  (forall cy, Z.min ya yb <= cy <= Z.max ya yb -> passable g (x, cy)) ->
  reachable g (x, ya) (x, yb).
Proof.
  intros Hrun. destruct (Z.le_ge_cases ya yb) as [Hle | Hge].
  - replace (x, yb) with (x, ya + Z.of_nat (Z.to_nat (yb - ya)))
      by (f_equal; lia).
    apply reachable_vline. intros i Hi. apply Hrun. lia.
  - apply reachable_sym.
    replace (x, ya) with (x, yb + Z.of_nat (Z.to_nat (ya - yb)))
      by (f_equal; lia).
    apply reachable_vline. intros i Hi. apply Hrun. lia.
Qed.

(** Inside a carved room every cell is linked to every other. *)
Lemma reachable_in_room g r xa ya xb yb :
  (forall cx cy, in_room r cx cy = true -> passable g (cx, cy)) ->
  in_room r xa ya = true -> in_room r xb yb = true ->
  reachable g (xa, ya) (xb, yb).
Proof.
  intros Hfloor Ha Hb.
  apply (reachable_trans g _ (xb, ya)).
  - apply reachable_hsegment. intros cx Hcx. apply Hfloor.
    unfold in_room in *. revert Ha Hb. zcases.
  - apply reachable_vsegment. intros cy Hcy. apply Hfloor.
    unfold in_room in *. revert Ha Hb. zcases.
Qed.

(** Painting that never produces a wall from a passable cell keeps cells
    passable, hence keeps paths. *)
Lemma painted_passable sel f w w' c :
  (forall t, t <> WALL -> f t <> WALL) ->
  painted sel f w w' ->
  passable (dungeon w) c -> passable (dungeon w') c.
Proof.
  intros Hf (_ & _ & Hcells) Hc. unfold passable in *.
  rewrite Hcells.
  assert (exists t, cell_at (dungeon w) (fst c) (snd c) = Some t /\ t <> WALL)
    as (t & -> & Ht)
    by (destruct Hc as [-> | ->]; eexists; (split; [reflexivity | discriminate])).
  cbn. destruct (sel (fst c) (snd c)).
  - specialize (Hf t Ht). destruct (f t); [congruence | auto | auto].
  - unfold id. destruct t; [congruence | auto | auto].
Qed.

Lemma wall_to_corridor_passable t : wall_to_corridor t <> WALL.
Proof. destruct t; cbn; discriminate. Qed.

(** ** Placement: the pieces of one attempt *)

Lemma rand_spec w :
  runs_to rand w
    (fun r w' => 0 <= r /\ dungeon w' = dungeon w /\ rooms w' = rooms w).
Proof.
  unfold runs_to, rand. eexists _, _. split; [reflexivity |].
  cbn. split; [lia | split; reflexivity].
Qed.

Lemma rooms_clash_sym a b p : rooms_clash a b p = rooms_clash b a p.
Proof. unfold rooms_clash. zcases. Qed.

Lemma roomOverlaps_false n rs p :
  roomOverlaps n rs p = false -> forall r, r ∈ rs -> rooms_clash n r p = false.
Proof.
  induction rs as [| r0 rs IH]; intros H r Hin.
  - inversion Hin.
  - cbn in H. destruct (rooms_clash n r0 p) eqn:H0; [discriminate |].
    apply elem_of_cons in Hin as [-> | Hin]; [exact H0 | exact (IH H r Hin)].
Qed.

Lemma lookup_snoc_inv {A} (l : list A) (x y : A) (i : nat) :
  (l ++ [x]) !! i = Some y ->
  l !! i = Some y \/ (i = length l /\ y = x).
Proof.
  intros H. destruct (decide (i < length l)%nat) as [Hlt | Hge].
  - left. rewrite lookup_app_l in H by exact Hlt. exact H.
  - right. rewrite lookup_app_r in H by lia.
    destruct (i - length l)%nat eqn:Hd; cbn in H; [| discriminate].
    injection H as <-. split; [lia | reflexivity].
Qed.

Lemma rooms_apart_snoc rs n :
  rooms_apart rs -> roomOverlaps n rs 2 = false -> rooms_apart (rs ++ [n]).
Proof.
  intros Hap Hno i j ri rj Hne Hi Hj.
  pose proof (roomOverlaps_false _ _ _ Hno) as Hn.
  apply lookup_snoc_inv in Hi as [Hi | [Hi ->]];
    apply lookup_snoc_inv in Hj as [Hj | [Hj ->]].
  - exact (Hap i j ri rj Hne Hi Hj).
  - rewrite rooms_clash_sym. apply Hn. exact (list_elem_of_lookup_2 _ _ _ Hi).
  - apply Hn. exact (list_elem_of_lookup_2 _ _ _ Hj).
  - lia.
Qed.

Lemma sampled_room_fits r1 r2 r3 r4 :
  0 <= r1 -> 0 <= r2 -> 0 <= r3 -> 0 <= r4 ->
  let width := 4 + Z.rem r1 (9 - 4 + 1) in
  let height := 4 + Z.rem r2 (9 - 4 + 1) in
  room_fits (mkRoom (1 + Z.rem r3 (DUNGEON_WIDTH - width - 2))
                    (1 + Z.rem r4 (DUNGEON_HEIGHT - height - 2))
                    width height).
Proof.
  intros H1 H2 H3 H4 width height.
  assert (0 <= Z.rem r1 (9 - 4 + 1) < 9 - 4 + 1) as Hw
    by (apply Z.rem_bound_pos; lia).
  assert (0 <= Z.rem r2 (9 - 4 + 1) < 9 - 4 + 1) as Hh
    by (apply Z.rem_bound_pos; lia).
  unfold room_fits, DUNGEON_WIDTH, DUNGEON_HEIGHT in *.
  cbn [room_x room_y room_width room_height].
  assert (0 <= Z.rem r3 (40 - width - 2) < 40 - width - 2) as Hx
    by (apply Z.rem_bound_pos; subst width; lia).
  assert (0 <= Z.rem r4 (30 - height - 2) < 30 - height - 2) as Hy
    by (apply Z.rem_bound_pos; subst height; lia).
  subst width height. lia.
Qed.

Lemma center_in_room r :
  room_fits r -> in_room r (room_centerX r) (room_centerY r) = true.
Proof.
  intros (Hw & Hh & _). unfold in_room, room_centerX, room_centerY.
  rewrite (Z.quot_div_nonneg (room_width r) 2) by lia.
  rewrite (Z.quot_div_nonneg (room_height r) 2) by lia.
  pose proof (Z.div_mod (room_width r) 2 ltac:(lia)).
  pose proof (Z.mod_pos_bound (room_width r) 2 ltac:(lia)).
  pose proof (Z.div_mod (room_height r) 2 ltac:(lia)).
  pose proof (Z.mod_pos_bound (room_height r) 2 ltac:(lia)).
  zcases.
Qed.

Lemma in_room_in_grid r cx cy :
  room_fits r -> in_room r cx cy = true ->
  0 <= cx < DUNGEON_WIDTH /\ 0 <= cy < DUNGEON_HEIGHT.
Proof.
  intros (Hw & Hh & Hx1 & Hx2 & Hy1 & Hy2) Hin. unfold in_room in Hin.
  unfold DUNGEON_WIDTH, DUNGEON_HEIGHT in *. revert Hin. zcases.
Qed.

Lemma painted_keeps_floor sel f w w' cx cy :
  f FLOOR = FLOOR ->
  painted sel f w w' ->
  cell_at (dungeon w) cx cy = Some FLOOR ->
  cell_at (dungeon w') cx cy = Some FLOOR.
Proof.
  intros Hf (_ & _ & Hcells) H. rewrite Hcells, H. cbn.
  destruct (sel cx cy); [rewrite Hf |]; reflexivity.
Qed.

Lemma carved_cell_passable sel w w' cx cy :
  wf_dungeon (dungeon w) ->
  painted sel wall_to_corridor w w' ->
  sel cx cy = true ->
  0 <= cx < DUNGEON_WIDTH -> 0 <= cy < DUNGEON_HEIGHT ->
  passable (dungeon w') (cx, cy).
Proof.
  intros Hwf (_ & _ & Hcells) Hsel Hx Hy.
  destruct (cell_at_in_range _ _ _ Hwf Hx Hy) as [t Ht].
  unfold passable. cbn [fst snd]. rewrite Hcells, Ht, Hsel. cbn.
  destruct t; cbn; auto.
Qed.

Lemma link_h_then_v w0 w1 w2 px py nx ny :
  wf_dungeon (dungeon w0) ->
  0 <= px < DUNGEON_WIDTH -> 0 <= py < DUNGEON_HEIGHT ->
  0 <= nx < DUNGEON_WIDTH -> 0 <= ny < DUNGEON_HEIGHT ->
  painted (on_hsegment px nx py) wall_to_corridor w0 w1 ->
  painted (on_vsegment py ny nx) wall_to_corridor w1 w2 ->
  reachable (dungeon w2) (px, py) (nx, ny).
Proof.
  intros Hwf Hpx Hpy Hnx Hny Hh Hv.
  apply (reachable_trans _ _ (nx, py)).
  - apply (reachable_mono (dungeon w1)).
    + intros c.
      apply (painted_passable _ _ _ _ _ (fun t _ => wall_to_corridor_passable t) Hv).
    + apply reachable_hsegment. intros cx Hcx.
      apply (carved_cell_passable (on_hsegment px nx py) w0 w1);
        [exact Hwf | exact Hh | unfold on_hsegment; zcases | lia | lia].
  - apply reachable_vsegment. intros cy Hcy.
    apply (carved_cell_passable (on_vsegment py ny nx) w1 w2);
      [apply Hh | exact Hv | unfold on_vsegment; zcases | lia | lia].
Qed.

Lemma link_v_then_h w0 w1 w2 px py nx ny :
  wf_dungeon (dungeon w0) ->
  0 <= px < DUNGEON_WIDTH -> 0 <= py < DUNGEON_HEIGHT ->
  0 <= nx < DUNGEON_WIDTH -> 0 <= ny < DUNGEON_HEIGHT ->
  painted (on_vsegment py ny px) wall_to_corridor w0 w1 ->
  painted (on_hsegment px nx ny) wall_to_corridor w1 w2 ->
  reachable (dungeon w2) (px, py) (nx, ny).
Proof.
  intros Hwf Hpx Hpy Hnx Hny Hv Hh.
  apply (reachable_trans _ _ (px, ny)).
  - apply (reachable_mono (dungeon w1)).
    + intros c.
      apply (painted_passable _ _ _ _ _ (fun t _ => wall_to_corridor_passable t) Hh).
    + apply reachable_vsegment. intros cy Hcy.
      apply (carved_cell_passable (on_vsegment py ny px) w0 w1);
        [exact Hwf | exact Hv | unfold on_vsegment; zcases | lia | lia].
  - apply reachable_hsegment. intros cx Hcx.
    apply (carved_cell_passable (on_hsegment px nx ny) w1 w2);
      [apply Hv | exact Hh | unfold on_hsegment; zcases | lia | lia].
Qed.

(** The invariant after a room has been carved, linked to the last placed
    room when there is one, and appended.  [g1] is the grid after
    [carveRoom], [g2] the grid after the corridor. *)
Lemma gen_inv_place w w1 w2 n :
  gen_inv (dungeon w) (rooms w) ->
  room_fits n ->
  roomOverlaps n (rooms w) 2 = false ->
  painted (in_room n) (fun _ => FLOOR) w w1 ->
  (forall c, passable (dungeon w1) c -> passable (dungeon w2) c) ->
  (forall cx cy, cell_at (dungeon w1) cx cy = Some FLOOR ->
                 cell_at (dungeon w2) cx cy = Some FLOOR) ->
  wf_dungeon (dungeon w2) ->
  (forall prev, last (rooms w) = Some prev ->
                reachable (dungeon w2) (room_center prev) (room_center n)) ->
  gen_inv (dungeon w2) (rooms w ++ [n]).
Proof.
  intros [Hwf Hfits Hapart Hfloor Hlinked] Hn Hno Hroom Hpass Hkeep Hwf2 Hlink.
  assert (forall r cx cy, r ∈ rooms w ++ [n] -> in_room r cx cy = true ->
                          cell_at (dungeon w2) cx cy = Some FLOOR) as Hfloor2.
  { intros r cx cy Hin Hcell. apply Hkeep.
    apply elem_of_app in Hin as [Hin | Hin].
    - apply (painted_keeps_floor (in_room n) (fun _ => FLOOR) w w1);
        [reflexivity | exact Hroom |].
      exact (Hfloor r cx cy Hin Hcell).
    - apply list_elem_of_singleton in Hin as ->.
      destruct Hroom as (_ & _ & Hcells). rewrite Hcells, Hcell.
      destruct (in_room_in_grid _ _ _ Hn Hcell) as [Hx Hy].
      destruct (cell_at_in_range _ _ _ Hwf Hx Hy) as [t ->]. reflexivity. }
  assert (forall c, passable (dungeon w) c -> passable (dungeon w2) c) as Hmono.
  { intros c Hc. apply Hpass.
    apply (painted_passable (in_room n) (fun _ => FLOOR) w w1 c);
      [discriminate | exact Hroom | exact Hc]. }
  assert (reachable (dungeon w2) (room_center n) (room_center n)) as Hnn.
  { apply reach_here. left. cbn [fst snd room_center].
    apply (Hfloor2 n);
      [apply elem_of_app; right; apply list_elem_of_singleton; reflexivity |].
    apply center_in_room. exact Hn. }
  assert (forall r, r ∈ rooms w ->
            reachable (dungeon w2) (room_center r) (room_center n)) as Hrn.
  { intros r Hin.
    destruct (last (rooms w)) as [prev |] eqn:Hlast.
    - apply (reachable_trans _ _ (room_center prev)); [| apply Hlink; reflexivity].
      apply (reachable_mono (dungeon w)); [exact Hmono |].
      apply Hlinked; [exact Hin |].
      apply last_Some in Hlast as [l' ->].
      apply elem_of_app. right. apply list_elem_of_singleton. reflexivity.
    - apply last_None in Hlast. rewrite Hlast in Hin. inversion Hin. }
  split.
  - exact Hwf2.
  - apply Forall_app. split; [exact Hfits |].
    constructor; [exact Hn | constructor].
  - apply rooms_apart_snoc; assumption.
  - exact Hfloor2.
  - intros r1 r2 H1 H2.
    apply elem_of_app in H1 as [H1 | H1]; apply elem_of_app in H2 as [H2 | H2];
      try (apply list_elem_of_singleton in H1 as ->);
      try (apply list_elem_of_singleton in H2 as ->).
    + apply (reachable_mono (dungeon w)); [exact Hmono | apply Hlinked; assumption].
    + apply Hrn. exact H1.
    + apply reachable_sym. apply Hrn. exact H2.
    + exact Hnn.
Qed.

(** ** Placement: one attempt, the loop, the generator *)

Lemma runs_rand_bind {B} (f : Z -> M B) w (post : B -> World -> Prop) :
  (forall r w', 0 <= r -> dungeon w' = dungeon w -> rooms w' = rooms w ->
                runs_to (f r) w' post) ->
  runs_to (bind rand f) w post.
Proof.
  intros Hf. apply runs_bind. eapply runs_weaken; [apply rand_spec |].
  intros r w' (Hr & Hd & Hm). exact (Hf r w' Hr Hd Hm).
Qed.

Lemma place_attempt_spec w :
  gen_inv (dungeon w) (rooms w) ->
  runs_to place_attempt w (fun _ w' =>
    gen_inv (dungeon w') (rooms w') /\
    (rooms w' = rooms w \/ exists n, rooms w' = rooms w ++ [n])).
Proof.
  intros Hinv. unfold place_attempt, generateRoom.
  apply runs_bind.
  apply runs_rand_bind; intros r1 w1 Hr1 Hd1 Hm1.
  apply runs_rand_bind; intros r2 w2 Hr2 Hd2 Hm2.
  apply runs_ret. cbv beta. cbn [room_width room_height].
  apply runs_rand_bind; intros r3 w3 Hr3 Hd3 Hm3.
  apply runs_rand_bind; intros r4 w4 Hr4 Hd4 Hm4.
  assert (dungeon w4 = dungeon w) as Hd by congruence.
  assert (rooms w4 = rooms w) as Hm by congruence.
  clear Hd1 Hd2 Hd3 Hd4 Hm1 Hm2 Hm3 Hm4 w1 w2 w3.
  pose proof (sampled_room_fits r1 r2 r3 r4 Hr1 Hr2 Hr3 Hr4) as Hfit.
  cbv zeta in Hfit.
  set (n := mkRoom _ _ _ _) in *.
  apply runs_bind. unfold get_rooms at 1.
  eexists _, _. split; [reflexivity |]. cbv beta.
  rewrite <- Hd, <- Hm in Hinv.
  destruct (roomOverlaps n (rooms w4) 2) eqn:Hover; cbn [negb].
  { apply runs_ret. split; [exact Hinv | left; exact Hm]. }
  pose proof (inv_wf _ _ Hinv) as Hwf4.
  apply runs_bind. eapply runs_weaken; [apply carveRoom_spec; exact Hwf4 |].
  intros u5 w5 Hroom. cbv beta.
  pose proof Hroom as (Hwf5 & (Hm5 & _) & _).
  apply runs_bind. unfold get_rooms at 1.
  eexists _, _. split; [reflexivity |]. cbv beta. rewrite Hm5.
  apply runs_bind.
  assert (runs_to
    match last (rooms w4) with
    | Some prevRoom =>
        let prevCenterX := room_centerX prevRoom in
        let prevCenterY := room_centerY prevRoom in
        let newCenterX := room_centerX n in
        let newCenterY := room_centerY n in
        let* r3 := rand
        in if Z.rem r3 2 =? 0
           then do carveHorizontalCorridor prevCenterX newCenterX prevCenterY
                then carveVerticalCorridor prevCenterY newCenterY newCenterX
           else do carveVerticalCorridor prevCenterY newCenterY prevCenterX
                then carveHorizontalCorridor prevCenterX newCenterX newCenterY
    | None => ret ()
    end w5
    (fun _ w8 =>
       wf_dungeon (dungeon w8) /\ rooms w8 = rooms w4 /\
       (forall c, passable (dungeon w5) c -> passable (dungeon w8) c) /\
       (forall cx cy, cell_at (dungeon w5) cx cy = Some FLOOR ->
                      cell_at (dungeon w8) cx cy = Some FLOOR) /\
       (forall prev, last (rooms w4) = Some prev ->
                     reachable (dungeon w8) (room_center prev) (room_center n))))
    as Hcorr.
  { destruct (last (rooms w4)) as [prev |] eqn:Hlast.
    - cbv zeta.
      assert (room_fits prev) as Hprev.
      { apply last_Some in Hlast as [l' Hl'].
        pose proof (inv_fits _ _ Hinv) as Hall. rewrite Hl' in Hall.
        apply Forall_app in Hall as [_ Hall]. inversion Hall; assumption. }
      destruct (in_room_in_grid _ _ _ Hprev (center_in_room _ Hprev)) as [Hpx Hpy].
      destruct (in_room_in_grid _ _ _ Hfit (center_in_room _ Hfit)) as [Hnx Hny].
      apply runs_rand_bind; intros r5 w6 Hr5 Hd6 Hm6.
      assert (wf_dungeon (dungeon w6)) as Hwf6 by (rewrite Hd6; exact Hwf5).
      destruct (Z.rem r5 2 =? 0).
      + apply runs_bind.
        eapply runs_weaken; [apply carveHorizontalCorridor_spec; exact Hwf6 |].
        intros u7 w7 Hh. cbv beta.
        eapply runs_weaken; [apply carveVerticalCorridor_spec; apply Hh |].
        intros u8 w8 Hv. cbv beta.
        split; [apply Hv |]. split.
        { destruct Hh as (_ & (E1 & _) & _), Hv as (_ & (E2 & _) & _). congruence. }
        split; [| split].
        * intros c Hc.
          apply (painted_passable _ _ _ _ _ (fun t _ => wall_to_corridor_passable t) Hv).
          apply (painted_passable _ _ _ _ _ (fun t _ => wall_to_corridor_passable t) Hh).
          unfold passable in *. rewrite Hd6. exact Hc.
        * intros cx cy Hc.
          apply (painted_keeps_floor _ _ _ _ _ _ eq_refl Hv).
          apply (painted_keeps_floor _ _ _ _ _ _ eq_refl Hh).
          rewrite Hd6. exact Hc.
        * intros prev' [= <-].
          exact (link_h_then_v w6 w7 w8 _ _ _ _ Hwf6 Hpx Hpy Hnx Hny Hh Hv).
      + apply runs_bind.
        eapply runs_weaken; [apply carveVerticalCorridor_spec; exact Hwf6 |].
        intros u7 w7 Hv. cbv beta.
        eapply runs_weaken; [apply carveHorizontalCorridor_spec; apply Hv |].
        intros u8 w8 Hh. cbv beta.
        split; [apply Hh |]. split.
        { destruct Hh as (_ & (E1 & _) & _), Hv as (_ & (E2 & _) & _). congruence. }
        split; [| split].
        * intros c Hc.
          apply (painted_passable _ _ _ _ _ (fun t _ => wall_to_corridor_passable t) Hh).
          apply (painted_passable _ _ _ _ _ (fun t _ => wall_to_corridor_passable t) Hv).
          unfold passable in *. rewrite Hd6. exact Hc.
        * intros cx cy Hc.
          apply (painted_keeps_floor _ _ _ _ _ _ eq_refl Hh).
          apply (painted_keeps_floor _ _ _ _ _ _ eq_refl Hv).
          rewrite Hd6. exact Hc.
        * intros prev' [= <-].
          exact (link_v_then_h w6 w7 w8 _ _ _ _ Hwf6 Hpx Hpy Hnx Hny Hv Hh).
    - apply runs_ret. split; [exact Hwf5 |]. split; [exact Hm5 |].
      split; [auto |]. split; [auto |]. intros prev [=]. }
  eapply runs_weaken; [exact Hcorr |].
  intros u8 w8 (Hwf8 & Hm8 & Hpass & Hkeep & Hlink). cbv beta.
  unfold runs_to, push_room. eexists _, _. split; [reflexivity |].
  cbn [dungeon rooms]. rewrite Hm8. split.
  - exact (gen_inv_place w4 w5 w8 n Hinv Hfit Hover Hroom Hpass Hkeep Hwf8 Hlink).
  - right. exists n. rewrite Hm. reflexivity.
Qed.

Lemma place_loop_spec fuel :
  forall numRooms attempts maxAttempts w,
    gen_inv (dungeon w) (rooms w) ->
    maxAttempts - attempts <= Z.of_nat fuel ->
    runs_to (place_loop fuel numRooms attempts maxAttempts) w
      (fun _ w' =>
         gen_inv (dungeon w') (rooms w') /\
         Z.of_nat (length (rooms w'))
         <= Z.max numRooms (Z.of_nat (length (rooms w)))).
Proof.
  induction fuel as [| fuel IH]; intros numRooms attempts maxAttempts w Hinv Hfuel.
  - cbn [place_loop]. apply runs_bind. eexists _, _. split; [reflexivity |].
    cbv beta.
    replace (attempts <? maxAttempts) with false
      by (symmetry; apply Z.ltb_ge; lia).
    rewrite andb_false_r. apply runs_ret. split; [exact Hinv | lia].
  - cbn [place_loop]. apply runs_bind. eexists _, _. split; [reflexivity |].
    cbv beta.
    destruct ((Z.of_nat (length (rooms w)) <? numRooms) && (attempts <? maxAttempts))
      eqn:Hcond.
    + apply andb_true_iff in Hcond as [Hroom%Z.ltb_lt Hlt%Z.ltb_lt].
      apply runs_bind.
      eapply runs_weaken; [apply place_attempt_spec; exact Hinv |].
      intros u w1 [Hinv1 Hgrow]. cbv beta.
      eapply runs_weaken;
        [apply (IH numRooms (attempts + 1) maxAttempts w1 Hinv1); lia |].
      intros u' w' [Hinv' Hlen]. cbv beta. split; [exact Hinv' |].
      destruct Hgrow as [E | [n E]]; rewrite E in Hlen;
        [| rewrite length_app in Hlen; cbn [length] in Hlen]; lia.
    + apply runs_ret. split; [exact Hinv | lia].
Qed.

Lemma gen_inv_empty g : wf_dungeon g -> gen_inv g [].
Proof.
  intros Hwf. split.
  - exact Hwf.
  - constructor.
  - intros i j ri rj _ Hi. rewrite lookup_nil in Hi. discriminate.
  - intros r cx cy Hin. inversion Hin.
  - intros r1 r2 Hin. inversion Hin.
Qed.

Lemma generateDungeon_spec w :
  wf_dungeon (dungeon w) ->
  runs_to generateDungeon w (fun _ w' =>
    gen_inv (dungeon w') (rooms w') /\ (length (rooms w') <= 12)%nat).
Proof.
  intros Hwf. unfold generateDungeon.
  apply runs_bind. eapply runs_weaken; [apply fill_walls_spec; exact Hwf |].
  intros u1 w1 (Hwf1 & _ & _). cbv beta.
  apply runs_bind. unfold clear_rooms at 1. eexists _, _. split; [reflexivity |].
  cbv beta.
  apply runs_rand_bind; intros r w3 Hr Hd3 Hm3. cbv zeta.
  pose proof (Z.rem_bound_pos r 5 Hr ltac:(lia)) as Hrem.
  eapply runs_weaken.
  - apply place_loop_spec; [| lia].
    rewrite Hd3, Hm3. cbn [dungeon rooms]. apply gen_inv_empty. exact Hwf1.
  - intros u' w' [Hinv Hlen]. cbv beta. split; [exact Hinv |].
    rewrite Hm3 in Hlen. cbn [rooms length] in Hlen. lia.
Qed.

Lemma clash_false_disjoint a b p :
  rooms_clash a b p = false ->
  disjoint_rooms (inflate p a) b /\ disjoint_rooms a (inflate p b).
Proof.
  intros Hno. unfold rooms_clash in Hno.
  split; intros cx cy [Ha Hb]; unfold in_room, inflate in Ha, Hb;
    cbn [room_x room_y room_width room_height] in Ha, Hb;
    revert Hno Ha Hb; zcases.
Qed.

Lemma wf_start_world : wf_dungeon (dungeon start_world).
Proof.
  split; [reflexivity |]. cbn [dungeon start_world].
  apply Forall_forall. intros row Hrow.
  apply elem_of_replicate in Hrow as [-> _]. reflexivity.
Qed.

(** ** C1: placed rooms keep their distance *)

(** C1.  Whatever the grid held before and whatever [rand()] returns,
    [generateDungeon] returns, and any two rooms at different positions of
    the resulting list fail the padded clash test of [roomOverlaps] with
    padding 2; read on cells: either room grown by 2 cells on every side
    shares no cell with the other. *)
Theorem generateDungeon_rooms_apart (w : World) :
  wf_dungeon (dungeon w) ->
  runs_to generateDungeon w (fun _ w' =>
    forall (i j : nat) ri rj,
      i <> j -> rooms w' !! i = Some ri -> rooms w' !! j = Some rj ->
      rooms_clash ri rj 2 = false /\
      disjoint_rooms (inflate 2 ri) rj /\ disjoint_rooms ri (inflate 2 rj)).
Proof.
  intros Hwf.
  eapply runs_weaken; [apply generateDungeon_spec; exact Hwf |].
  intros u w' [Hinv _] i j ri rj Hne Hi Hj.
  pose proof (inv_apart _ _ Hinv i j ri rj Hne Hi Hj) as Hno.
  split; [exact Hno | exact (clash_false_disjoint _ _ _ Hno)].
Qed.

Lemma generateDungeon_rooms_apart_witness :
  runs_to generateDungeon start_world (fun _ w' =>
    forall (i j : nat) ri rj,
      i <> j -> rooms w' !! i = Some ri -> rooms w' !! j = Some rj ->
      rooms_clash ri rj 2 = false /\
      disjoint_rooms (inflate 2 ri) rj /\ disjoint_rooms ri (inflate 2 rj)).
Proof. exact (generateDungeon_rooms_apart start_world wf_start_world). Defined.

(** ** C2: the layout is one traversable component *)

(** C2.  After [generateDungeon], from any cell of any placed room there is
    a path of 4-adjacent Floor or Corridor cells to any cell of any placed
    room.  (The statement needs no lower bound on the number of rooms.) *)
Theorem generateDungeon_rooms_connected (w : World) :
  wf_dungeon (dungeon w) ->
  runs_to generateDungeon w (fun _ w' =>
    forall r1 r2 x1 y1 x2 y2,
      r1 ∈ rooms w' -> r2 ∈ rooms w' ->
      in_room r1 x1 y1 = true -> in_room r2 x2 y2 = true ->
      reachable (dungeon w') (x1, y1) (x2, y2)).
Proof.
  intros Hwf.
  eapply runs_weaken; [apply generateDungeon_spec; exact Hwf |].
  intros u w' [[Hwf' Hfits Hapart Hfloor Hlinked] _] r1 r2 x1 y1 x2 y2 H1 H2 Hc1 Hc2.
  pose proof (proj1 (Forall_forall _ _) Hfits) as Hfit.
  assert (forall r, r ∈ rooms w' -> forall cx cy,
            in_room r cx cy = true -> passable (dungeon w') (cx, cy)) as Hpass
    by (intros r Hr cx cy Hc; left; exact (Hfloor r cx cy Hr Hc)).
  apply (reachable_trans _ _ (room_center r1)).
  - apply (reachable_in_room _ r1); [exact (Hpass r1 H1) | exact Hc1 |].
    apply center_in_room, Hfit, H1.
  - apply (reachable_trans _ _ (room_center r2)); [exact (Hlinked r1 r2 H1 H2) |].
    apply (reachable_in_room _ r2); [exact (Hpass r2 H2) | | exact Hc2].
    apply center_in_room, Hfit, H2.
Qed.

Lemma generateDungeon_rooms_connected_witness :
  runs_to generateDungeon start_world (fun _ w' =>
    forall r1 r2 x1 y1 x2 y2,
      r1 ∈ rooms w' -> r2 ∈ rooms w' ->
      in_room r1 x1 y1 = true -> in_room r2 x2 y2 = true ->
      reachable (dungeon w') (x1, y1) (x2, y2)).
Proof. exact (generateDungeon_rooms_connected start_world wf_start_world). Defined.

Lemma wf_one_room_world : wf_dungeon (dungeon one_room_world).
Proof.
  split; [reflexivity |]. cbn [dungeon one_room_world].
  apply Forall_forall. intros row Hrow.
  apply list_elem_of_fmap in Hrow as (y & -> & _). reflexivity.
Qed.

(** ** C6: corridors carve walls only *)

Lemma painted_only_walls seg w w' :
  painted seg wall_to_corridor w w' -> only_walls_carved seg w w'.
Proof.
  intros (_ & _ & Hcells) cx cy. rewrite Hcells.
  destruct (cell_at (dungeon w) cx cy) as [[] |], (seg cx cy); cbn;
    repeat split; intros; congruence.
Qed.

(** C6.  On the program's grid both corridor functions return; a cell
    changes only from Wall to Corridor and only on the carved segment: a
    Wall cell on the segment becomes Corridor, a Floor cell stays Floor, and
    a cell off the segment keeps its kind.  The room list is not touched. *)
Theorem corridor_carving_only_walls (w : World) (a b c : Z) :
  wf_dungeon (dungeon w) ->
  runs_to (carveHorizontalCorridor a b c) w (fun _ w' =>
    only_walls_carved (on_hsegment a b c) w w' /\ rooms w' = rooms w) /\
  runs_to (carveVerticalCorridor a b c) w (fun _ w' =>
    only_walls_carved (on_vsegment a b c) w w' /\ rooms w' = rooms w).
Proof.
  intros Hwf. split.
  - eapply runs_weaken; [apply carveHorizontalCorridor_spec; exact Hwf |].
    intros u w' Hp. split; [exact (painted_only_walls _ _ _ Hp) | apply Hp].
  - eapply runs_weaken; [apply carveVerticalCorridor_spec; exact Hwf |].
    intros u w' Hp. split; [exact (painted_only_walls _ _ _ Hp) | apply Hp].
Qed.

Lemma corridor_carving_only_walls_witness :
  runs_to (carveHorizontalCorridor 0 10 3) one_room_world (fun _ w' =>
    only_walls_carved (on_hsegment 0 10 3) one_room_world w' /\
    rooms w' = rooms one_room_world) /\
  runs_to (carveVerticalCorridor 0 10 3) one_room_world (fun _ w' =>
    only_walls_carved (on_vsegment 0 10 3) one_room_world w' /\
    rooms w' = rooms one_room_world).
Proof.
  exact (corridor_carving_only_walls one_room_world 0 10 3 wf_one_room_world).
Defined.

(** The horizontal call on the sample dungeon, evaluated: the wall left of
    the room turns into corridor, the room's floor stays. *)
Example carveHorizontalCorridor_sample :
  match carveHorizontalCorridor 0 10 3 one_room_world with
  | Some (_, w') =>
      cell_at (dungeon one_room_world) 0 3 = Some WALL /\
      cell_at (dungeon w') 0 3 = Some CORRIDOR /\
      cell_at (dungeon one_room_world) 3 3 = Some FLOOR /\
      cell_at (dungeon w') 3 3 = Some FLOOR /\
      cell_at (dungeon w') 10 3 = Some CORRIDOR /\
      cell_at (dungeon w') 11 3 = Some WALL
  | None => False
  end.
Proof. vm_compute. repeat split. Qed.

(** ** C8: the walkability query *)

Lemma isWalkable_outside w x y :
  ~ (0 <= x < DUNGEON_WIDTH /\ 0 <= y < DUNGEON_HEIGHT) ->
  isWalkable x y w = Some (false, w).
Proof.
  intros Hout. unfold isWalkable.
  destruct ((x <? 0) || (x >=? DUNGEON_WIDTH) || (y <? 0) || (y >=? DUNGEON_HEIGHT))
    eqn:Hguard; [reflexivity |].
  exfalso. apply Hout. revert Hguard. zcases.
Qed.

Lemma isWalkable_inside w x y t :
  wf_dungeon (dungeon w) -> cell_at (dungeon w) x y = Some t ->
  isWalkable x y w = Some (negb (tile_eqb t WALL), w).
Proof.
  intros Hwf Ht. destruct (cell_at_Some_inv _ _ _ _ Hwf Ht) as [Hx Hy].
  unfold isWalkable.
  destruct ((x <? 0) || (x >=? DUNGEON_WIDTH) || (y <? 0) || (y >=? DUNGEON_HEIGHT))
    eqn:Hguard.
  - exfalso. revert Hguard. zcases.
  - unfold bind, get_cell, ret. rewrite Ht. reflexivity.
Qed.

(** C8.  On the program's grid [isWalkable] returns for every pair of
    integers and leaves the globals as they were (in the model a read
    outside the array would make it fail); the answer is false outside
    [0, DUNGEON_WIDTH) x [0, DUNGEON_HEIGHT), and inside it is true exactly
    when the cell's kind is not Wall. *)
Theorem isWalkable_spec (w : World) (cellX cellY : Z) :
  wf_dungeon (dungeon w) ->
  exists b,
    isWalkable cellX cellY w = Some (b, w) /\
    (~ (0 <= cellX < DUNGEON_WIDTH /\ 0 <= cellY < DUNGEON_HEIGHT) -> b = false) /\
    (0 <= cellX < DUNGEON_WIDTH /\ 0 <= cellY < DUNGEON_HEIGHT ->
     exists t, cell_at (dungeon w) cellX cellY = Some t /\
               (b = true <-> t <> WALL)).
Proof.
  intros Hwf.
  destruct (cell_at (dungeon w) cellX cellY) as [t |] eqn:Ht.
  - exists (negb (tile_eqb t WALL)).
    split; [exact (isWalkable_inside w cellX cellY t Hwf Ht) |].
    split.
    + intros Hout. exfalso. apply Hout.
      exact (cell_at_Some_inv _ _ _ _ Hwf Ht).
    + intros _. exists t. split; [reflexivity |].
      destruct t; cbn; split; intros; congruence.
  - assert (~ (0 <= cellX < DUNGEON_WIDTH /\ 0 <= cellY < DUNGEON_HEIGHT)) as Hout.
    { intros [Hx Hy]. destruct (cell_at_in_range _ _ _ Hwf Hx Hy) as [t Hsome].
      congruence. }
    exists false. split; [exact (isWalkable_outside w cellX cellY Hout) |].
    split; [reflexivity |]. intros Hin. exfalso. exact (Hout Hin).
Qed.

Lemma isWalkable_spec_witness :
  exists b,
    isWalkable 3 3 one_room_world = Some (b, one_room_world) /\
    (~ (0 <= 3 < DUNGEON_WIDTH /\ 0 <= 3 < DUNGEON_HEIGHT) -> b = false) /\
    (0 <= 3 < DUNGEON_WIDTH /\ 0 <= 3 < DUNGEON_HEIGHT ->
     exists t, cell_at (dungeon one_room_world) 3 3 = Some t /\
               (b = true <-> t <> WALL)).
Proof. exact (isWalkable_spec one_room_world 3 3 wf_one_room_world). Defined.

Example isWalkable_samples :
  option_map fst (isWalkable 3 3 one_room_world) = Some true /\
  option_map fst (isWalkable 0 0 one_room_world) = Some false /\
  option_map fst (isWalkable (-1) 3 one_room_world) = Some false /\
  option_map fst (isWalkable 40 3 one_room_world) = Some false /\
  option_map fst (isWalkable 3 30 one_room_world) = Some false.
Proof. vm_compute. repeat split. Qed.

(** ** C10: opposing keys cancel *)

(** C10.  When a direction mask has both bits of an axis set, the target
    keeps the current coordinate on that axis. *)
Theorem opposing_bits_cancel (dir : Direction) (currentX currentY : Z) :
  (has_flag dir UP = true /\ has_flag dir DOWN = true ->
   snd (getTargetFromDirection dir currentX currentY) = currentY) /\
  (has_flag dir LEFT = true /\ has_flag dir RIGHT = true ->
   fst (getTargetFromDirection dir currentX currentY) = currentX).
Proof.
  unfold getTargetFromDirection. cbv zeta. cbn [fst snd].
  split; intros [-> ->]; lia.
Qed.

Lemma opposing_bits_cancel_witness :
  snd (getTargetFromDirection (Z.lor UP DOWN) 5 7) = 7 /\
  fst (getTargetFromDirection (Z.lor LEFT RIGHT) 5 7) = 5.
Proof.
  split.
  - apply (proj1 (opposing_bits_cancel (Z.lor UP DOWN) 5 7)).
    split; reflexivity.
  - apply (proj2 (opposing_bits_cancel (Z.lor LEFT RIGHT) 5 7)).
    split; reflexivity.
Defined.

(** Such masks do reach [getTargetFromDirection]: the keyboard reader ORs
    the four bits independently. *)
Example getDirectionFromInput_opposing :
  getDirectionFromInput (mkKeys true false true false false false false false)
  = Z.lor UP DOWN /\
  getDirectionFromInput (mkKeys true false true false true false false true)
  = 15.
Proof. split; reflexivity. Qed.

(** ** C4: snapping the player to a cell *)

(** C4, as stated, fails: a player caught mid-move is still moving after
    [setGridPosition], with its direction, progress and input latch as
    before. *)
Lemma setGridPosition_keeps_moving :
  isMoving moving_player = true /\
  isMoving (setGridPosition 7 2 moving_player) = true /\
  continuousMoveEnabled (setGridPosition 7 2 moving_player) = true /\
  ~ snapped_and_reset 7 2 (setGridPosition 7 2 moving_player).
Proof.
  repeat split.
  intros (_ & _ & _ & _ & _ & _ & Hmoving & _). discriminate Hmoving.
Qed.

(** C4, amended.  [setGridPosition x y] sets the current and the target cell
    to (x, y) and the pixel position to that cell's canonical position, and
    assigns nothing else: the moving flag, direction, progress, last input
    direction, hold time and continuous-move flag are as before the call. *)
Theorem setGridPosition_spec (p : Player) (x y : Z) :
  let q := setGridPosition x y p in
  pixelX q = inject_Z (x * TILE_SIZE + (TILE_SIZE - PLAYER_SIZE) / 2) /\
  pixelY q = inject_Z (y * TILE_SIZE + (TILE_SIZE - PLAYER_SIZE) / 2) /\
  gridX q = x /\ gridY q = y /\
  targetGridX q = gridX q /\ targetGridY q = gridY q /\
  same_motion_input p q.
Proof. cbv zeta. repeat split. Qed.

(** ** C3: progress of a Transition *)

Lemma updateMovement_idle dt p : isMoving p = false -> updateMovement dt p = p.
Proof. intros H. unfold updateMovement. rewrite H. reflexivity. Qed.




(** The call that completes the move. *)
Lemma updateMovement_arrives dt p :
  isMoving p = true ->
  (1 <= moveProgress p + MOVE_SPEED * dt)%Q ->
  arrived_at (targetGridX p) (targetGridY p) (updateMovement dt p).
Proof.
  intros Hmov Hge. unfold updateMovement. rewrite Hmov. cbn [negb].
  apply Qle_bool_iff in Hge. rewrite Hge. repeat split.
Qed.






Example run_movement_sample :
  (moveProgress (run_movement [0.02]%Q moving_player) == 0.66)%Q /\
  isMoving (run_movement [0.02]%Q moving_player) = true /\
  run_movement [0.02; 5]%Q moving_player
  = mkPlayer 4 3 (cell_pixel 4) (cell_pixel 3) false NONE 1 4 3 RIGHT 0.2 true /\
  run_movement [0.02; 5; 0.25]%Q moving_player
  = run_movement [0.02; 5]%Q moving_player.
Proof. repeat split. Qed.

(** ** C7: the input latch *)

Lemma updateInputTiming_held d dt p :
  d <> NONE -> lastInputDirection p = d ->
  updateInputTiming d dt p =
  set_input d (inputHoldTime p + dt)%Q
            (if Qle_bool INPUT_BUFFER_TIME (inputHoldTime p + dt)%Q then true
             else continuousMoveEnabled p) p.
Proof.
  intros Hd Hlast. unfold updateInputTiming.
  destruct (Z.eqb_spec d NONE) as [-> | _]; [congruence |].
  rewrite Hlast, Z.eqb_refl. reflexivity.
Qed.







(** ** C5: the camera *)

Lemma Qltb_lt a b : Qltb a b = true <-> (a < b)%Q.
Proof.
  unfold Qltb. rewrite negb_true_iff. split.
  - intros H. apply Qnot_le_lt. intros Hle.
    apply Qle_bool_iff in Hle. congruence.
  - intros H. destruct (Qle_bool b a) eqn:Hb; [| reflexivity].
    apply Qle_bool_iff in Hb. exfalso. exact (Qlt_not_le _ _ H Hb).
Qed.

Lemma Qltb_ge a b : Qltb a b = false <-> (b <= a)%Q.
Proof.
  unfold Qltb. rewrite negb_false_iff. apply Qle_bool_iff.
Qed.

Lemma followPlayer_axes px py dW dH c :
  followPlayer px py dW dH c =
  mkCamera (clamp_axis px dW (cam_width c)) (clamp_axis py dH (cam_height c))
           (cam_width c) (cam_height c).
Proof. reflexivity. Qed.

Lemma inject_Z_sub a b : (inject_Z (a - b) == inject_Z a - inject_Z b)%Q.
Proof.
  unfold Z.sub. rewrite inject_Z_plus, inject_Z_opp. reflexivity.
Qed.

Lemma clamp_axis_inside pos d v :
  v <= d -> clamped_inside (clamp_axis pos d v) pos d v.
Proof.
  intros Hvd. assert (0 <= inject_Z (d - v))%Q as Hroom
    by (change (inject_Z 0 <= inject_Z (d - v))%Q; rewrite <- Zle_Qle; lia).
  pose proof (inject_Z_sub d v) as Hsub.
  unfold clamped_inside, clamp_axis. cbv zeta.
  set (x0 := centered_offset pos v).
  destruct (Qltb x0 0) eqn:Hlow.
  - apply Qltb_lt in Hlow.
    destruct (Qltb (inject_Z (d - v)) 0) eqn:Hhigh.
    + apply Qltb_lt in Hhigh. lra.
    + repeat split; lra.
  - apply Qltb_ge in Hlow.
    destruct (Qltb (inject_Z (d - v)) x0) eqn:Hhigh.
    + apply Qltb_lt in Hhigh. repeat split; lra.
    + apply Qltb_ge in Hhigh. repeat split; lra.
Qed.

Lemma clamp_axis_small pos d v :
  d < v -> clamp_axis pos d v = inject_Z (d - v).
Proof.
  intros Hdv. assert (inject_Z (d - v) < 0)%Q as Hneg
    by (change (inject_Z (d - v) < inject_Z 0)%Q; rewrite <- Zlt_Qlt; lia).
  unfold clamp_axis. cbv zeta.
  set (x0 := centered_offset pos v).
  destruct (Qltb x0 0) eqn:Hlow.
  - replace (Qltb (inject_Z (d - v)) 0) with true
      by (symmetry; apply Qltb_lt; exact Hneg).
    reflexivity.
  - apply Qltb_ge in Hlow.
    replace (Qltb (inject_Z (d - v)) x0) with true
      by (symmetry; apply Qltb_lt; lra).
    reflexivity.
Qed.

(** One axis where the dungeon is at least as large as the viewport: the
    centred offset below 0 gives 0, above the room left gives that room. *)
Lemma clamp_axis_low pos d v :
  v <= d -> (centered_offset pos v < 0)%Q -> clamp_axis pos d v = 0%Q.
Proof.
  intros Hvd Hlow. assert (0 <= inject_Z (d - v))%Q as Hroom
    by (change (inject_Z 0 <= inject_Z (d - v))%Q; rewrite <- Zle_Qle; lia).
  unfold clamp_axis. cbv zeta.
  replace (Qltb (centered_offset pos v) 0) with true
    by (symmetry; apply Qltb_lt; exact Hlow).
  replace (Qltb (inject_Z (d - v)) 0) with false
    by (symmetry; apply Qltb_ge; exact Hroom).
  reflexivity.
Qed.

Lemma clamp_axis_high pos d v :
  v <= d -> (inject_Z (d - v) < centered_offset pos v)%Q ->
  clamp_axis pos d v = inject_Z (d - v).
Proof.
  intros Hvd Hhigh. assert (0 <= inject_Z (d - v))%Q as Hroom
    by (change (inject_Z 0 <= inject_Z (d - v))%Q; rewrite <- Zle_Qle; lia).
  unfold clamp_axis. cbv zeta.
  replace (Qltb (centered_offset pos v) 0) with false
    by (symmetry; apply Qltb_ge; lra).
  replace (Qltb (inject_Z (d - v)) (centered_offset pos v)) with true
    by (symmetry; apply Qltb_lt; exact Hhigh).
  reflexivity.
Qed.

(** C5, as stated, fails: with a dungeon of 400 x 300 pixels under the
    800 x 600 viewport the offset is not 0 but (-400, -300), the dungeon
    size less the viewport size. *)
Lemma followPlayer_small_dungeon :
  400 < cam_width newCamera /\ 300 < cam_height newCamera /\
  (cam_x (followPlayer 0 0 400 300 newCamera) == -400)%Q /\
  (cam_y (followPlayer 0 0 400 300 newCamera) == -300)%Q /\
  ~ (cam_x (followPlayer 0 0 400 300 newCamera) == 0)%Q /\
  ~ (cam_y (followPlayer 0 0 400 300 newCamera) == 0)%Q.
Proof.
  repeat split; try reflexivity; intros H; discriminate H.
Qed.

(** C5, amended.  [followPlayer] keeps the viewport size and, on each axis,
    centres the viewport on the player's pixel centre and clamps the offset,
    first below at 0 and then above at dungeon - viewport.  Where the
    dungeon is at least as large as the viewport the offset is 0 when the
    centred offset is negative, dungeon - viewport when the centred offset
    exceeds it, and the centred offset in between, so it lies in
    [0, dungeon - viewport] and the viewport shows nothing outside the
    dungeon; where the dungeon is smaller than the viewport the offset is
    dungeon - viewport, a negative number, wherever the player is. *)
Theorem followPlayer_clamps (playerX playerY : Q)
  (dungeonPixelWidth dungeonPixelHeight : Z) (c : Camera) :
  let c' := followPlayer playerX playerY dungeonPixelWidth dungeonPixelHeight c in
  cam_width c' = cam_width c /\ cam_height c' = cam_height c /\
  (cam_width c <= dungeonPixelWidth ->
   clamped_inside (cam_x c') playerX dungeonPixelWidth (cam_width c) /\
   ((centered_offset playerX (cam_width c) < 0)%Q -> cam_x c' = 0%Q) /\
   ((inject_Z (dungeonPixelWidth - cam_width c)
     < centered_offset playerX (cam_width c))%Q ->
    cam_x c' = inject_Z (dungeonPixelWidth - cam_width c))) /\
  (cam_height c <= dungeonPixelHeight ->
   clamped_inside (cam_y c') playerY dungeonPixelHeight (cam_height c) /\
   ((centered_offset playerY (cam_height c) < 0)%Q -> cam_y c' = 0%Q) /\
   ((inject_Z (dungeonPixelHeight - cam_height c)
     < centered_offset playerY (cam_height c))%Q ->
    cam_y c' = inject_Z (dungeonPixelHeight - cam_height c))) /\
  (dungeonPixelWidth < cam_width c ->
   cam_x c' = inject_Z (dungeonPixelWidth - cam_width c)) /\
  (dungeonPixelHeight < cam_height c ->
   cam_y c' = inject_Z (dungeonPixelHeight - cam_height c)).
Proof.
  cbv zeta. rewrite followPlayer_axes. cbn [cam_x cam_y cam_width cam_height].
  split; [reflexivity |]. split; [reflexivity |].
  split.
  { intros H. split; [exact (clamp_axis_inside _ _ _ H) |].
    split; [exact (clamp_axis_low _ _ _ H) | exact (clamp_axis_high _ _ _ H)]. }
  split.
  { intros H. split; [exact (clamp_axis_inside _ _ _ H) |].
    split; [exact (clamp_axis_low _ _ _ H) | exact (clamp_axis_high _ _ _ H)]. }
  split; apply clamp_axis_small.
Qed.

Lemma followPlayer_clamps_witness :
  (clamped_inside
     (cam_x (followPlayer 45 2000 (DUNGEON_WIDTH * TILE_SIZE)
               (DUNGEON_HEIGHT * TILE_SIZE) newCamera))
     45 (DUNGEON_WIDTH * TILE_SIZE) (cam_width newCamera) /\
   ((centered_offset 45 (cam_width newCamera) < 0)%Q ->
    cam_x (followPlayer 45 2000 (DUNGEON_WIDTH * TILE_SIZE)
             (DUNGEON_HEIGHT * TILE_SIZE) newCamera) = 0%Q) /\
   ((inject_Z (DUNGEON_WIDTH * TILE_SIZE - cam_width newCamera)
     < centered_offset 45 (cam_width newCamera))%Q ->
    cam_x (followPlayer 45 2000 (DUNGEON_WIDTH * TILE_SIZE)
             (DUNGEON_HEIGHT * TILE_SIZE) newCamera)
    = inject_Z (DUNGEON_WIDTH * TILE_SIZE - cam_width newCamera))) /\
  cam_x (followPlayer 0 0 400 300 newCamera) = inject_Z (400 - cam_width newCamera).
Proof.
  split.
  - apply (followPlayer_clamps 45 2000 (DUNGEON_WIDTH * TILE_SIZE)
             (DUNGEON_HEIGHT * TILE_SIZE) newCamera).
    vm_compute. discriminate.
  - apply (followPlayer_clamps 0 0 400 300 newCamera).
    reflexivity.
Defined.

(** The three cases on the 1600 x 1200 dungeon: a player near the top left
    corner, one in the middle, one beyond the bottom right. *)
Example followPlayer_sample :
  cam_x (followPlayer 45 45 1600 1200 newCamera) = 0%Q /\
  cam_y (followPlayer 45 45 1600 1200 newCamera) = 0%Q /\
  (cam_x (followPlayer 805 605 1600 1200 newCamera) == 420)%Q /\
  (cam_y (followPlayer 805 605 1600 1200 newCamera) == 320)%Q /\
  cam_x (followPlayer 1565 1165 1600 1200 newCamera) = 800%Q /\
  cam_y (followPlayer 1565 1165 1600 1200 newCamera) = 600%Q.
Proof. repeat split. Qed.

(** ** C9: a key held for three frames *)

(** C9, as stated, fails: [updateMovement] runs before the input is read,
    so the frame that starts the move leaves the progress at 0; the frames
    after it reach 0.16 and 0.32, not 0.16, 0.32 and 0.48. *)
Lemma held_right_progress_lags :
  isMoving (player one_room_game) = false /\
  option_map fst (isWalkable 3 3 one_room_world) = Some true /\
  option_map fst (isWalkable 4 3 one_room_world) = Some true /\
  (exists g1, run_frames [(RIGHT, 0.02%Q)] one_room_game = Some g1 /\
     isMoving (player g1) = true /\
     (moveProgress (player g1) == 0)%Q /\
     ~ (moveProgress (player g1) == 0.16)%Q /\
     pixelX (player g1) = cell_pixel 3) /\
  (exists g2, run_frames [(RIGHT, 0.02%Q); (RIGHT, 0.02%Q)] one_room_game
              = Some g2 /\
     (moveProgress (player g2) == 0.16)%Q /\
     ~ (moveProgress (player g2) == 0.32)%Q) /\
  (exists g3, run_frames [(RIGHT, 0.02%Q); (RIGHT, 0.02%Q); (RIGHT, 0.02%Q)]
                one_room_game = Some g3 /\
     (moveProgress (player g3) == 0.32)%Q /\
     ~ (moveProgress (player g3) == 0.48)%Q).
Proof.
  split; [reflexivity |]. split; [vm_compute; reflexivity |].
  split; [vm_compute; reflexivity |].
  split; [| split].
  - eexists. split; [vm_compute; reflexivity |]. cbn.
    repeat split; try reflexivity. intros H; discriminate H.
  - eexists. split; [vm_compute; reflexivity |]. cbn.
    repeat split; try reflexivity. intros H; discriminate H.
  - eexists. split; [vm_compute; reflexivity |]. cbn.
    repeat split; try reflexivity. intros H; discriminate H.
Qed.

Lemma isWalkable_passable w x y :
  wf_dungeon (dungeon w) -> passable (dungeon w) (x, y) ->
  isWalkable x y w = Some (true, w).
Proof.
  intros Hwf [H | H]; cbn [fst snd] in H;
    rewrite (isWalkable_inside w x y _ Hwf H); reflexivity.
Qed.

(** The frame in which an idle player starts a move to the right. *)
Lemma playing_frame_start w p c dt :
  wf_dungeon (dungeon w) ->
  isMoving p = false -> lastInputDirection p <> RIGHT ->
  passable (dungeon w) (gridX p + 1, gridY p) ->
  playing_frame RIGHT dt (mkGame w p c) =
  Some (mkGame w
          (startMove RIGHT (gridX p + 1) (gridY p) (set_input RIGHT 0 false p))
          (followPlayer (pixelX p) (pixelY p)
             (DUNGEON_WIDTH * TILE_SIZE) (DUNGEON_HEIGHT * TILE_SIZE) c)).
Proof.
  intros Hwf Hidle Hlast Hpass. unfold playing_frame.
  cbn [player world camera].
  rewrite (updateMovement_idle dt p Hidle).
  assert (updateInputTiming RIGHT dt p = set_input RIGHT 0 false p) as ->.
  { unfold updateInputTiming. change (RIGHT =? NONE) with false. cbv iota.
    destruct (Z.eqb_spec RIGHT (lastInputDirection p)) as [E | _];
      [congruence | reflexivity]. }
  unfold shouldAcceptInput. cbn [set_input isMoving gridX gridY].
  rewrite Hidle. change (RIGHT =? NONE) with false. cbn [negb orb andb].
  change (getTargetFromDirection RIGHT (gridX p) (gridY p))
    with (gridX p + 1, gridY p).
  cbv beta iota zeta.
  rewrite (isWalkable_passable w _ _ Hwf Hpass). reflexivity.
Qed.

(** A frame in the middle of the move, the key still down and the latch
    off: the move advances and no new move starts. *)
Lemma playing_frame_glide w p c dt :
  isMoving p = true -> lastInputDirection p = RIGHT ->
  continuousMoveEnabled p = false ->
  Qle_bool 1 (moveProgress p + MOVE_SPEED * dt) = false ->
  Qle_bool INPUT_BUFFER_TIME (inputHoldTime p + dt) = false ->
  let p' := set_input RIGHT (inputHoldTime p + dt)%Q false (updateMovement dt p) in
  playing_frame RIGHT dt (mkGame w p c) =
  Some (mkGame w p'
          (followPlayer (pixelX p') (pixelY p')
             (DUNGEON_WIDTH * TILE_SIZE) (DUNGEON_HEIGHT * TILE_SIZE) c)).
Proof.
  intros Hmov Hlast Hoff Hprog Hhold. cbv zeta. unfold playing_frame.
  cbn [player world camera].
  assert (updateMovement dt p =
          mkPlayer (gridX p) (gridY p)
            (cell_pixel (gridX p) +
             (cell_pixel (targetGridX p) - cell_pixel (gridX p)) *
             ease_out_cubic (moveProgress p + MOVE_SPEED * dt))%Q
            (cell_pixel (gridY p) +
             (cell_pixel (targetGridY p) - cell_pixel (gridY p)) *
             ease_out_cubic (moveProgress p + MOVE_SPEED * dt))%Q
            true (movingDirection p) (moveProgress p + MOVE_SPEED * dt)%Q
            (targetGridX p) (targetGridY p)
            RIGHT (inputHoldTime p) false) as Hstep.
  { unfold updateMovement. rewrite Hmov, Hprog, Hlast, Hoff. reflexivity. }
  rewrite Hstep.
  unfold updateInputTiming, shouldAcceptInput.
  cbn [lastInputDirection inputHoldTime continuousMoveEnabled isMoving set_input].
  change (RIGHT =? NONE) with false. change (RIGHT =? RIGHT) with true.
  cbv iota. rewrite Hhold. reflexivity.
Qed.

Lemma cell_pixel_next x : (cell_pixel (x + 1) - cell_pixel x == 40)%Q.
Proof.
  unfold cell_pixel, TILE_SIZE, PLAYER_SIZE.
  rewrite !inject_Z_plus, !inject_Z_mult, !inject_Z_plus. ring.
Qed.

(** A call of [updateMovement] that does not complete the move. *)
Lemma updateMovement_interpolates dt p :
  isMoving p = true ->
  Qle_bool 1 (moveProgress p + MOVE_SPEED * dt) = false ->
  updateMovement dt p =
  mkPlayer (gridX p) (gridY p)
    (cell_pixel (gridX p) +
     (cell_pixel (targetGridX p) - cell_pixel (gridX p)) *
     ease_out_cubic (moveProgress p + MOVE_SPEED * dt))%Q
    (cell_pixel (gridY p) +
     (cell_pixel (targetGridY p) - cell_pixel (gridY p)) *
     ease_out_cubic (moveProgress p + MOVE_SPEED * dt))%Q
    true (movingDirection p) (moveProgress p + MOVE_SPEED * dt)%Q
    (targetGridX p) (targetGridY p)
    (lastInputDirection p) (inputHoldTime p) (continuousMoveEnabled p).
Proof.
  intros Hmov Hprog. unfold updateMovement. rewrite Hmov, Hprog. reflexivity.
Qed.

(** Part of the way from a cell to its right neighbour. *)
Lemma between_cells x e :
  (0 < e)%Q -> (e < 1)%Q ->
  (cell_pixel x < cell_pixel x + (cell_pixel (x + 1) - cell_pixel x) * e)%Q /\
  (cell_pixel x + (cell_pixel (x + 1) - cell_pixel x) * e < cell_pixel (x + 1))%Q.
Proof.
  intros H0 H1. pose proof (cell_pixel_next x) as Hd.
  set (a := cell_pixel x) in *. set (b := cell_pixel (x + 1)) in *.
  assert (b == a + 40)%Q as Hb by lra.
  rewrite Hb. split.
  - assert (0 < (a + 40 - a) * e)%Q; [| lra].
    assert (a + 40 - a == 40)%Q as -> by ring. lra.
  - assert ((a + 40 - a) * e < 40)%Q; [| lra].
    assert (a + 40 - a == 40)%Q as -> by ring. lra.
Qed.

(** C9, amended.  An idle player snapped to the cell (x, y), the cell to its
    right passable, no RIGHT latched from before, the RIGHT key held for
    three frames of 0.02 s: the first frame starts the Transition and leaves
    the progress at 0 and the pixel position on the start cell; the second
    frame brings the progress to 0.16 and the third to 0.32; the player is
    still in Transition from (x, y) to (x + 1, y), its pixel x strictly
    between the two cells' canonical x, its pixel y the start cell's. *)
Theorem held_right_three_frames (w : World) (p : Player) (c : Camera) (x y : Z) :
  wf_dungeon (dungeon w) ->
  passable (dungeon w) (x, y) -> passable (dungeon w) (x + 1, y) ->
  isMoving p = false -> lastInputDirection p <> RIGHT ->
  let g0 := mkGame w (setGridPosition x y p) c in
  let f := (RIGHT, 0.02%Q) in
  exists g1 g2 g3,
    run_frames [f] g0 = Some g1 /\
    run_frames [f; f] g0 = Some g2 /\
    run_frames [f; f; f] g0 = Some g3 /\
    (isMoving (player g1) = true /\ (moveProgress (player g1) == 0)%Q /\
     pixelX (player g1) = cell_pixel x /\ pixelY (player g1) = cell_pixel y) /\
    (isMoving (player g2) = true /\ (moveProgress (player g2) == 0.16)%Q) /\
    (isMoving (player g3) = true /\ (moveProgress (player g3) == 0.32)%Q /\
     gridX (player g3) = x /\ gridY (player g3) = y /\
     targetGridX (player g3) = x + 1 /\ targetGridY (player g3) = y /\
     (cell_pixel x < pixelX (player g3))%Q /\
     (pixelX (player g3) < cell_pixel (x + 1))%Q /\
     (pixelY (player g3) == cell_pixel y)%Q).
Proof.
  intros Hwf _ Hright Hidle Hlast. cbv zeta.
  set (p0 := setGridPosition x y p).
  pose proof (playing_frame_start w p0 c 0.02 Hwf Hidle Hlast Hright) as E1.
  set (p1 := startMove RIGHT (x + 1) y (set_input RIGHT 0 false p0)).
  change (startMove RIGHT (gridX p0 + 1) (gridY p0) (set_input RIGHT 0 false p0))
    with p1 in E1.
  set (c1 := followPlayer (pixelX p0) (pixelY p0) _ _ c) in E1.
  pose proof (playing_frame_glide w p1 c1 0.02 eq_refl eq_refl eq_refl eq_refl eq_refl)
    as E2.
  cbv zeta in E2.
  pose proof (updateMovement_interpolates 0.02 p1 eq_refl eq_refl) as U2.
  set (p2 := set_input RIGHT (inputHoldTime p1 + 0.02)%Q false (updateMovement 0.02 p1))
    in E2.
  set (c2 := followPlayer (pixelX p2) (pixelY p2) _ _ c1) in E2.
  assert (isMoving p2 = true /\ lastInputDirection p2 = RIGHT /\
          continuousMoveEnabled p2 = false /\
          moveProgress p2 = (0 + MOVE_SPEED * 0.02)%Q /\
          inputHoldTime p2 = (0 + 0.02)%Q /\
          gridX p2 = x /\ gridY p2 = y /\
          targetGridX p2 = x + 1 /\ targetGridY p2 = y)
    as (M2 & L2 & C2 & P2 & H2 & GX2 & GY2 & TX2 & TY2)
    by (subst p2; rewrite U2; repeat split).
  assert (Qle_bool 1 (moveProgress p2 + MOVE_SPEED * 0.02) = false) as B2
    by (rewrite P2; reflexivity).
  assert (Qle_bool INPUT_BUFFER_TIME (inputHoldTime p2 + 0.02) = false) as B2'
    by (rewrite H2; reflexivity).
  pose proof (playing_frame_glide w p2 c2 0.02 M2 L2 C2 B2 B2') as E3.
  cbv zeta in E3.
  pose proof (updateMovement_interpolates 0.02 p2 M2 B2) as U3.
  set (p3 := set_input RIGHT (inputHoldTime p2 + 0.02)%Q false (updateMovement 0.02 p2))
    in E3.
  set (c3 := followPlayer (pixelX p3) (pixelY p3) _ _ c2) in E3.
  exists (mkGame w p1 c1), (mkGame w p2 c2), (mkGame w p3 c3).
  split; [cbn [run_frames]; rewrite E1; reflexivity |].
  split; [cbn [run_frames]; rewrite E1, E2; reflexivity |].
  split; [cbn [run_frames]; rewrite E1, E2, E3; reflexivity |].
  cbn [player].
  split; [repeat split |].
  split; [split; [exact M2 | rewrite P2; reflexivity] |].
  assert (pixelX p3 =
          (cell_pixel x + (cell_pixel (x + 1) - cell_pixel x) *
           ease_out_cubic (0 + MOVE_SPEED * 0.02 + MOVE_SPEED * 0.02))%Q /\
          pixelY p3 =
          (cell_pixel y + (cell_pixel y - cell_pixel y) *
           ease_out_cubic (0 + MOVE_SPEED * 0.02 + MOVE_SPEED * 0.02))%Q /\
          isMoving p3 = true /\
          moveProgress p3 = (0 + MOVE_SPEED * 0.02 + MOVE_SPEED * 0.02)%Q /\
          gridX p3 = x /\ gridY p3 = y /\
          targetGridX p3 = x + 1 /\ targetGridY p3 = y)
    as (PX & PY & M3 & P3 & GX3 & GY3 & TX3 & TY3)
    by (subst p3; rewrite U3, P2, GX2, GY2, TX2, TY2; repeat split).
  split; [exact M3 |]. split; [rewrite P3; reflexivity |].
  split; [exact GX3 |]. split; [exact GY3 |].
  split; [exact TX3 |]. split; [exact TY3 |].
  rewrite PX, PY.
  destruct (between_cells x
              (ease_out_cubic (0 + MOVE_SPEED * 0.02 + MOVE_SPEED * 0.02)))
    as [Hlo Hhi]; [reflexivity | reflexivity |].
  split; [exact Hlo |]. split; [exact Hhi |]. ring.
Qed.

Lemma held_right_three_frames_witness :
  exists g1 g2 g3,
    run_frames [(RIGHT, 0.02%Q)] one_room_game = Some g1 /\
    run_frames [(RIGHT, 0.02%Q); (RIGHT, 0.02%Q)] one_room_game = Some g2 /\
    run_frames [(RIGHT, 0.02%Q); (RIGHT, 0.02%Q); (RIGHT, 0.02%Q)] one_room_game
    = Some g3 /\
    (isMoving (player g1) = true /\ (moveProgress (player g1) == 0)%Q /\
     pixelX (player g1) = cell_pixel 3 /\ pixelY (player g1) = cell_pixel 3) /\
    (isMoving (player g2) = true /\ (moveProgress (player g2) == 0.16)%Q) /\
    (isMoving (player g3) = true /\ (moveProgress (player g3) == 0.32)%Q /\
     gridX (player g3) = 3 /\ gridY (player g3) = 3 /\
     targetGridX (player g3) = 3 + 1 /\ targetGridY (player g3) = 3 /\
     (cell_pixel 3 < pixelX (player g3))%Q /\
     (pixelX (player g3) < cell_pixel (3 + 1))%Q /\
     (pixelY (player g3) == cell_pixel 3)%Q).
Proof.
  apply (held_right_three_frames one_room_world newPlayer newCamera 3 3).
  - exact wf_one_room_world.
  - left. vm_compute. reflexivity.
  - left. vm_compute. reflexivity.
  - reflexivity.
  - discriminate.
Defined.

(** ** Further properties of the generator and of the frame update *)

(** X1.  [generateDungeon] places at most 12 rooms; each has sides of 4 to 9
    cells and lies inside the grid, at least one cell off its border, and
    every cell of every placed room is Floor. *)
Theorem generateDungeon_rooms_fit (w : World) :
  wf_dungeon (dungeon w) ->
  runs_to generateDungeon w (fun _ w' =>
    (length (rooms w') <= 12)%nat /\
    Forall room_fits (rooms w') /\
    forall r cx cy, r ∈ rooms w' -> in_room r cx cy = true ->
                    cell_at (dungeon w') cx cy = Some FLOOR).
Proof.
  intros Hwf.
  eapply runs_weaken; [apply generateDungeon_spec; exact Hwf |].
  intros u w' [Hinv Hlen]. split; [exact Hlen |].
  split; [exact (inv_fits _ _ Hinv) | exact (inv_floor _ _ Hinv)].
Qed.

Lemma generateDungeon_rooms_fit_witness :
  runs_to generateDungeon start_world (fun _ w' =>
    (length (rooms w') <= 12)%nat /\
    Forall room_fits (rooms w') /\
    forall r cx cy, r ∈ rooms w' -> in_room r cx cy = true ->
                    cell_at (dungeon w') cx cy = Some FLOOR).
Proof. exact (generateDungeon_rooms_fit start_world wf_start_world). Defined.

(** The generator on the sample tape: six rooms placed in 100 attempts. *)
Example generateDungeon_sample :
  option_map (fun r => rooms (snd r)) (generateDungeon start_world) =
  Some [mkRoom 9 18 5 9; mkRoom 5 7 9 9; mkRoom 21 8 9 5;
        mkRoom 21 18 9 9; mkRoom 29 1 9 5; mkRoom 33 9 5 9].
Proof. vm_compute. reflexivity. Qed.

Lemma updateInputTiming_motion d dt p :
  isMoving (updateInputTiming d dt p) = isMoving p /\
  gridX (updateInputTiming d dt p) = gridX p /\
  gridY (updateInputTiming d dt p) = gridY p /\
  pixelX (updateInputTiming d dt p) = pixelX p /\
  pixelY (updateInputTiming d dt p) = pixelY p.
Proof.
  unfold updateInputTiming.
  destruct (d =? NONE); [repeat split |].
  destruct (d =? lastInputDirection p); repeat split.
Qed.

Lemma isWalkable_blocked w x y :
  wf_dungeon (dungeon w) -> ~ passable (dungeon w) (x, y) ->
  isWalkable x y w = Some (false, w).
Proof.
  intros Hwf Hblocked.
  destruct (cell_at (dungeon w) x y) as [t |] eqn:Ht.
  - rewrite (isWalkable_inside w x y t Hwf Ht).
    destruct t; [reflexivity | exfalso | exfalso]; apply Hblocked.
    + left. exact Ht.
    + right. exact Ht.
  - apply isWalkable_outside. intros [Hx Hy].
    destruct (cell_at_in_range _ _ _ Hwf Hx Hy) as [t Hsome]. congruence.
Qed.

(** A frame with an idle player and a direction whose target is blocked. *)
Lemma playing_frame_blocked w p c d dt :
  wf_dungeon (dungeon w) -> isMoving p = false ->
  ~ passable (dungeon w) (getTargetFromDirection d (gridX p) (gridY p)) ->
  playing_frame d dt (mkGame w p c) =
  Some (mkGame w (updateInputTiming d dt p)
          (followPlayer (pixelX p) (pixelY p)
             (DUNGEON_WIDTH * TILE_SIZE) (DUNGEON_HEIGHT * TILE_SIZE) c)).
Proof.
  intros Hwf Hidle Hblocked. unfold playing_frame. cbn [player world camera].
  rewrite (updateMovement_idle dt p Hidle).
  destruct (updateInputTiming_motion d dt p) as (Hm & Hgx & Hgy & Hpx & Hpy).
  unfold shouldAcceptInput. rewrite Hm, Hidle, Hgx, Hgy. cbn [negb orb].
  rewrite andb_true_r.
  destruct (d =? NONE); cbn [negb]; [rewrite Hpx, Hpy; reflexivity |].
  destruct (getTargetFromDirection d (gridX p) (gridY p)) as [tx ty] eqn:Htarget.
  rewrite (isWalkable_blocked w tx ty Hwf Hblocked).
  rewrite Hpx, Hpy. reflexivity.
Qed.

(** X2.  A player that is idle next to a cell that is not passable stays
    idle in its cell, on the same pixel position, for as many frames as the
    key towards that cell is held; the grid is not touched. *)
Theorem blocked_move_stays_idle (w : World) (p : Player) (c : Camera)
  (d : Direction) (deltas : list Q) :
  wf_dungeon (dungeon w) -> isMoving p = false ->
  ~ passable (dungeon w) (getTargetFromDirection d (gridX p) (gridY p)) ->
  exists g,
    run_frames (held d deltas) (mkGame w p c) = Some g /\
    world g = w /\ isMoving (player g) = false /\
    gridX (player g) = gridX p /\ gridY (player g) = gridY p /\
    pixelX (player g) = pixelX p /\ pixelY (player g) = pixelY p.
Proof.
  intros Hwf. revert p c.
  induction deltas as [| dt deltas IH]; intros p c Hidle Hblocked.
  - exists (mkGame w p c). split; [reflexivity |]. cbn [player world].
    repeat split; first [reflexivity | exact Hidle].
  - cbn [held map run_frames].
    rewrite (playing_frame_blocked w p c d dt Hwf Hidle Hblocked).
    destruct (updateInputTiming_motion d dt p) as (Hm & Hgx & Hgy & Hpx & Hpy).
    destruct (IH (updateInputTiming d dt p)
                 (followPlayer (pixelX p) (pixelY p)
                    (DUNGEON_WIDTH * TILE_SIZE) (DUNGEON_HEIGHT * TILE_SIZE) c))
      as (g & Hrun & Hw & Hi & Hx & Hy & Hpx' & Hpy').
    + rewrite Hm. exact Hidle.
    + rewrite Hgx, Hgy. exact Hblocked.
    + exists g. split; [exact Hrun |]. repeat split; congruence.
Qed.

Lemma blocked_move_stays_idle_witness :
  exists g,
    run_frames (held LEFT [0.02; 0.02; 0.2]%Q)
      (mkGame one_room_world (setGridPosition 1 3 newPlayer) newCamera) = Some g /\
    world g = one_room_world /\ isMoving (player g) = false /\
    gridX (player g) = gridX (setGridPosition 1 3 newPlayer) /\
    gridY (player g) = gridY (setGridPosition 1 3 newPlayer) /\
    pixelX (player g) = pixelX (setGridPosition 1 3 newPlayer) /\
    pixelY (player g) = pixelY (setGridPosition 1 3 newPlayer).
Proof.
  apply (blocked_move_stays_idle one_room_world (setGridPosition 1 3 newPlayer)
           newCamera LEFT [0.02; 0.02; 0.2]%Q).
  - exact wf_one_room_world.
  - reflexivity.
  - intros [H | H]; vm_compute in H; discriminate H.
Defined.

(** The frame in which an idle player accepts a direction whose target
    cell is passable, whatever the input record held before. *)
Lemma playing_frame_accepts w p c d dt :
  wf_dungeon (dungeon w) -> isMoving p = false ->
  d <> NONE ->
  passable (dungeon w) (getTargetFromDirection d (gridX p) (gridY p)) ->
  playing_frame d dt (mkGame w p c) =
  Some (mkGame w
          (startMove d (fst (getTargetFromDirection d (gridX p) (gridY p)))
                       (snd (getTargetFromDirection d (gridX p) (gridY p)))
                       (updateInputTiming d dt p))
          (followPlayer (pixelX p) (pixelY p)
             (DUNGEON_WIDTH * TILE_SIZE) (DUNGEON_HEIGHT * TILE_SIZE) c)).
Proof.
  intros Hwf Hidle Hd Hpass. unfold playing_frame.
  cbn [player world camera].
  rewrite (updateMovement_idle dt p Hidle).
  destruct (updateInputTiming_motion d dt p) as (Hm & Hgx & Hgy & Hpx & Hpy).
  unfold shouldAcceptInput. rewrite Hm, Hidle, Hgx, Hgy.
  destruct (Z.eqb_spec d NONE) as [E | _]; [congruence |]. cbn [negb orb andb].
  destruct (getTargetFromDirection d (gridX p) (gridY p)) as [tx ty].
  rewrite (isWalkable_passable w tx ty Hwf Hpass).
  cbn [startMove pixelX pixelY fst snd]. rewrite Hpx, Hpy. reflexivity.
Qed.

(** X3.  An idle player that gets the diagonal input UP|LEFT, the cell up
    and to the left passable, starts one Transition to that cell, whatever
    its input record holds: both coordinates of the target change, and the
    call of [updateMovement] that completes the move puts the player on
    that cell.  The two cells beside the diagonal are not consulted. *)
Theorem diagonal_move_both_axes (w : World) (p : Player) (c : Camera) (dt dt' : Q) :
  wf_dungeon (dungeon w) -> isMoving p = false ->
  passable (dungeon w) (gridX p - 1, gridY p - 1) ->
  (1 <= MOVE_SPEED * dt')%Q ->
  exists g,
    playing_frame UP_LEFT dt (mkGame w p c) = Some g /\
    isMoving (player g) = true /\ movingDirection (player g) = UP_LEFT /\
    (moveProgress (player g) == 0)%Q /\
    gridX (player g) = gridX p /\ gridY (player g) = gridY p /\
    targetGridX (player g) = gridX p - 1 /\
    targetGridY (player g) = gridY p - 1 /\
    arrived_at (gridX p - 1) (gridY p - 1) (updateMovement dt' (player g)).
Proof.
  intros Hwf Hidle Hpass Hlong.
  destruct (updateInputTiming_motion UP_LEFT dt p) as (_ & Hgx & Hgy & _).
  eexists. split.
  - apply (playing_frame_accepts w p c UP_LEFT dt Hwf Hidle); [discriminate |].
    exact Hpass.
  - cbn [player]. change (getTargetFromDirection UP_LEFT (gridX p) (gridY p))
      with (gridX p - 1, gridY p - 1). cbn [fst snd].
    cbn [startMove isMoving movingDirection moveProgress gridX gridY
         targetGridX targetGridY].
    split; [reflexivity |]. split; [reflexivity |]. split; [reflexivity |].
    split; [exact Hgx |]. split; [exact Hgy |].
    split; [reflexivity |]. split; [reflexivity |].
    apply (updateMovement_arrives dt'
             (startMove UP_LEFT (gridX p - 1) (gridY p - 1)
                        (updateInputTiming UP_LEFT dt p)) eq_refl).
    cbn [moveProgress startMove]. lra.
Qed.

Lemma diagonal_move_both_axes_witness :
  exists g,
    playing_frame UP_LEFT 0.02
      (mkGame one_room_world
         (set_input UP_LEFT 0.3 true (setGridPosition 3 3 newPlayer))
         newCamera) = Some g /\
    isMoving (player g) = true /\ movingDirection (player g) = UP_LEFT /\
    (moveProgress (player g) == 0)%Q /\
    gridX (player g) = 3 /\ gridY (player g) = 3 /\
    targetGridX (player g) = 3 - 1 /\
    targetGridY (player g) = 3 - 1 /\
    arrived_at (3 - 1) (3 - 1) (updateMovement 0.2 (player g)).
Proof.
  apply (diagonal_move_both_axes one_room_world
           (set_input UP_LEFT 0.3 true (setGridPosition 3 3 newPlayer))
           newCamera 0.02 0.2).
  - exact wf_one_room_world.
  - reflexivity.
  - left. vm_compute. reflexivity.
  - unfold MOVE_SPEED. lra.
Defined.

(** A frame with RIGHT held and the latch on: whether the player is idle
    or has just started the move, the move to the right starts again. *)
Lemma playing_frame_restart w p c dt :
  wf_dungeon (dungeon w) ->
  restarting (gridX p) (gridY p) p ->
  passable (dungeon w) (gridX p + 1, gridY p) ->
  (0 <= dt)%Q -> (MOVE_SPEED * dt < 1)%Q ->
  exists g,
    playing_frame RIGHT dt (mkGame w p c) = Some g /\
    world g = w /\ restarting (gridX p) (gridY p) (player g).
Proof.
  intros Hwf (Hmov & Hprog & _ & _ & Htx & Hty & Hlast & Hon) Hpass Hdt Hshort.
  assert (Qle_bool 1 (moveProgress p + MOVE_SPEED * dt) = false) as Hb.
  { destruct (Qle_bool 1 (moveProgress p + MOVE_SPEED * dt)) eqn:Hb; [| reflexivity].
    apply Qle_bool_iff in Hb. rewrite Hprog in Hb. lra. }
  unfold playing_frame. cbn [player world camera].
  rewrite (updateMovement_interpolates dt p Hmov Hb). rewrite Hlast, Hon.
  rewrite updateInputTiming_held; [| discriminate | reflexivity].
  cbn [inputHoldTime continuousMoveEnabled].
  replace (if Qle_bool INPUT_BUFFER_TIME (inputHoldTime p + dt) then true else true)
    with true by (destruct (Qle_bool INPUT_BUFFER_TIME _); reflexivity).
  unfold shouldAcceptInput.
  cbn [set_input isMoving continuousMoveEnabled gridX gridY].
  change (RIGHT =? NONE) with false. cbn [negb orb andb].
  change (getTargetFromDirection RIGHT (gridX p) (gridY p))
    with (gridX p + 1, gridY p).
  cbv beta iota zeta.
  rewrite (isWalkable_passable w _ _ Hwf Hpass).
  eexists. split; [reflexivity |]. cbn [world player]. repeat split.
Qed.

(** X4.  Once the continuous-move latch is on and a move to the right has
    started, every frame with RIGHT held that is shorter than
    1 / MOVE_SPEED seconds accepts the input again and starts the move
    again: after any number of such frames the progress is 0 and the player
    is still in its start cell. *)
Theorem held_key_restarts_move (w : World) (p : Player) (c : Camera)
  (deltas : list Q) :
  wf_dungeon (dungeon w) ->
  restarting (gridX p) (gridY p) p ->
  passable (dungeon w) (gridX p + 1, gridY p) ->
  Forall (fun dt => (0 <= dt)%Q /\ (MOVE_SPEED * dt < 1)%Q) deltas ->
  exists g,
    run_frames (held RIGHT deltas) (mkGame w p c) = Some g /\
    world g = w /\ restarting (gridX p) (gridY p) (player g).
Proof.
  intros Hwf. revert p c.
  induction deltas as [| dt deltas IH]; intros p c Hre Hpass Hall.
  - exists (mkGame w p c). split; [reflexivity |]. split; [reflexivity | exact Hre].
  - apply Forall_cons in Hall as [[Hdt Hshort] Hall].
    destruct (playing_frame_restart w p c dt Hwf Hre Hpass Hdt Hshort)
      as ([w1 p1 c1] & Hframe & Hw1 & Hre1).
    cbn [world player] in Hw1, Hre1. subst w1.
    cbn [held map run_frames]. rewrite Hframe.
    pose proof Hre1 as (_ & _ & Hgx & Hgy & _).
    rewrite <- Hgx, <- Hgy in Hre1, Hpass |- *.
    exact (IH p1 c1 Hre1 Hpass Hall).
Qed.

Lemma held_key_restarts_move_witness :
  exists g,
    run_frames (held RIGHT [0.016; 0.016; 0.1]%Q)
      (mkGame one_room_world
         (mkPlayer 3 3 (cell_pixel 3) (cell_pixel 3) true RIGHT 0 4 3 RIGHT 0.2 true)
         newCamera) = Some g /\
    world g = one_room_world /\
    restarting 3 3 (player g).
Proof.
  apply (held_key_restarts_move one_room_world
           (mkPlayer 3 3 (cell_pixel 3) (cell_pixel 3) true RIGHT 0 4 3 RIGHT 0.2 true)
           newCamera [0.016; 0.016; 0.1]%Q).
  - exact wf_one_room_world.
  - repeat split.
  - left. vm_compute. reflexivity.
  - repeat constructor; unfold MOVE_SPEED; lra.
Defined.

(** The state of X4 is reached in play: RIGHT held from the snapped start at
    60 frames a second crosses one cell, turns the latch on during the
    second move, and from then on stays in that cell with progress 0. *)
Example held_key_sample :
  (exists g, run_frames (held RIGHT (replicate 11 0.016%Q)) one_room_game = Some g /\
     restarting 4 3 (player g)) /\
  (exists g, run_frames (held RIGHT (replicate 40 0.016%Q)) one_room_game = Some g /\
     restarting 4 3 (player g)).
Proof.
  split; eexists; (split; [vm_compute; reflexivity |]); repeat split.
Qed.


(** ** The generator: what one attempt does *)

Lemma runs_both {A} (m : M A) w (P R : A -> World -> Prop) :
  runs_to m w P -> runs_to m w R -> runs_to m w (fun a w' => P a w' /\ R a w').
Proof.
  intros (a & w' & Hm & HP) HR. exists a, w'. split; [exact Hm |].
  split; [exact HP | exact (runs_det m w R a w' HR Hm)].
Qed.

Lemma place_attempt_effect w :
  wf_dungeon (dungeon w) ->
  runs_to place_attempt w (fun _ w' => place_effect w w').
Proof.
  intros Hwf. unfold place_attempt, generateRoom.
  apply runs_bind.
  apply runs_rand_bind; intros r1 w1 Hr1 Hd1 Hm1.
  apply runs_rand_bind; intros r2 w2 Hr2 Hd2 Hm2.
  apply runs_ret. cbv beta. cbn [room_width room_height].
  apply runs_rand_bind; intros r3 w3 Hr3 Hd3 Hm3.
  apply runs_rand_bind; intros r4 w4 Hr4 Hd4 Hm4.
  assert (dungeon w4 = dungeon w) as Hd by congruence.
  assert (rooms w4 = rooms w) as Hm by congruence.
  clear Hd1 Hd2 Hd3 Hd4 Hm1 Hm2 Hm3 Hm4 w1 w2 w3.
  pose proof (sampled_room_fits r1 r2 r3 r4 Hr1 Hr2 Hr3 Hr4) as Hfit.
  cbv zeta in Hfit.
  set (n := mkRoom _ _ _ _) in *.
  apply runs_bind. unfold get_rooms at 1.
  eexists _, _. split; [reflexivity |]. cbv beta.
  destruct (roomOverlaps n (rooms w4) 2) eqn:Hover; cbn [negb].
  { apply runs_ret. left. exists n. rewrite <- Hm. auto. }
  assert (wf_dungeon (dungeon w4)) as Hwf4 by (rewrite Hd; exact Hwf).
  apply runs_bind. eapply runs_weaken; [apply carveRoom_spec; exact Hwf4 |].
  intros u5 w5 Hroom. cbv beta.
  pose proof Hroom as (Hwf5 & (Hm5 & _) & _).
  apply runs_bind. unfold get_rooms at 1.
  eexists _, _. split; [reflexivity |]. cbv beta. rewrite Hm5.
  apply runs_bind.
  apply (runs_weaken _ _ (fun _ w8 => corridor_effect n (last (rooms w4)) w5 w8)).
  - destruct (last (rooms w4)) as [prev |] eqn:Hlast.
    + cbv zeta.
      apply runs_rand_bind; intros r5 w6 Hr5 Hd6 Hm6.
      assert (wf_dungeon (dungeon w6)) as Hwf6 by (rewrite Hd6; exact Hwf5).
      destruct (Z.rem r5 2 =? 0).
      * apply runs_bind.
        eapply runs_weaken; [apply carveHorizontalCorridor_spec; exact Hwf6 |].
        intros u7 w7 Hh. cbv beta.
        eapply runs_weaken; [apply carveVerticalCorridor_spec; apply Hh |].
        intros u8 w8 Hv. cbv beta.
        exact (corridor_hv n prev w5 w6 w7 w8 Hd6 Hm6 Hh Hv).
      * apply runs_bind.
        eapply runs_weaken; [apply carveVerticalCorridor_spec; exact Hwf6 |].
        intros u7 w7 Hv. cbv beta.
        eapply runs_weaken; [apply carveHorizontalCorridor_spec; apply Hv |].
        intros u8 w8 Hh. cbv beta.
        exact (corridor_vh n prev w5 w6 w7 w8 Hd6 Hm6 Hv Hh).
    + apply runs_ret. constructor.
  - intros u8 w8 Hcorr. cbv beta.
    unfold runs_to, push_room. eexists _, _. split; [reflexivity |].
    assert (rooms w8 = rooms w4) as Hm8.
    { inversion Hcorr; subst; try reflexivity;
        repeat match goal with
          | H : painted _ _ _ _ |- _ => destruct H as (_ & (? & _) & _)
          end; congruence. }
    right. exists n, w4, w5, w8. cbn [dungeon rooms].
    split; [exact Hfit |]. split; [rewrite <- Hm; exact Hover |].
    split; [exact Hd |]. split; [exact Hm |].
    split; [exact Hroom |]. split; [rewrite <- Hm; exact Hcorr |].
    split; [reflexivity | congruence].
Qed.

Lemma in_room_interior r cx cy :
  room_fits r -> in_room r cx cy = true -> interior cx cy.
Proof.
  intros (Hw & Hh & Hx1 & Hx2 & Hy1 & Hy2) Hin. unfold in_room in Hin.
  unfold interior, DUNGEON_WIDTH, DUNGEON_HEIGHT in *. revert Hin. zcases.
Qed.

Lemma center_interior r :
  room_fits r -> interior (room_centerX r) (room_centerY r).
Proof.
  intros Hfit. exact (in_room_interior r _ _ Hfit (center_in_room r Hfit)).
Qed.

Lemma interior_in_grid cx cy :
  interior cx cy -> 0 <= cx < DUNGEON_WIDTH /\ 0 <= cy < DUNGEON_HEIGHT.
Proof. unfold interior, DUNGEON_WIDTH, DUNGEON_HEIGHT. lia. Qed.

(** A cell that is passable after a painting was passable before or was
    painted. *)
Lemma painted_passable_inv sel f w w' cx cy :
  painted sel f w w' ->
  passable (dungeon w') (cx, cy) ->
  passable (dungeon w) (cx, cy) \/ sel cx cy = true.
Proof.
  intros (_ & _ & Hcells) Hp. unfold passable in *. cbn [fst snd] in *.
  rewrite Hcells in Hp.
  destruct (sel cx cy); [right; reflexivity | left].
  destruct (cell_at (dungeon w) cx cy) as [t |]; cbn in Hp; exact Hp.
Qed.

(** From a cell of a run of passable cells to either end of the run. *)
Lemma reachable_on_hsegment g x1 x2 y cx :
  (forall c, Z.min x1 x2 <= c <= Z.max x1 x2 -> passable g (c, y)) ->
  Z.min x1 x2 <= cx <= Z.max x1 x2 ->
  reachable g (cx, y) (x1, y) /\ reachable g (cx, y) (x2, y).
Proof.
  intros Hrun Hcx.
  split; apply reachable_hsegment; intros c Hc; apply Hrun; lia.
Qed.

Lemma reachable_on_vsegment g y1 y2 x cy :
  (forall c, Z.min y1 y2 <= c <= Z.max y1 y2 -> passable g (x, c)) ->
  Z.min y1 y2 <= cy <= Z.max y1 y2 ->
  reachable g (x, cy) (x, y1) /\ reachable g (x, cy) (x, y2).
Proof.
  intros Hrun Hcy.
  split; apply reachable_vsegment; intros c Hc; apply Hrun; lia.
Qed.

Lemma on_hsegment_inv x1 x2 y cx cy :
  on_hsegment x1 x2 y cx cy = true ->
  cy = y /\ Z.min x1 x2 <= cx <= Z.max x1 x2.
Proof. unfold on_hsegment. zcases. Qed.

Lemma on_vsegment_inv y1 y2 x cx cy :
  on_vsegment y1 y2 x cx cy = true ->
  cx = x /\ Z.min y1 y2 <= cy <= Z.max y1 y2.
Proof. unfold on_vsegment. zcases. Qed.

(** The cells of a carved horizontal segment whose ends lie in the grid are
    passable afterwards. *)
Lemma hsegment_passable w w' x1 x2 y :
  wf_dungeon (dungeon w) ->
  0 <= x1 < DUNGEON_WIDTH -> 0 <= x2 < DUNGEON_WIDTH -> 0 <= y < DUNGEON_HEIGHT ->
  painted (on_hsegment x1 x2 y) wall_to_corridor w w' ->
  forall c, Z.min x1 x2 <= c <= Z.max x1 x2 -> passable (dungeon w') (c, y).
Proof.
  intros Hwf Hx1 Hx2 Hy Hp c Hc.
  apply (carved_cell_passable (on_hsegment x1 x2 y) w w');
    [exact Hwf | exact Hp | unfold on_hsegment; zcases | lia | lia].
Qed.

Lemma vsegment_passable w w' y1 y2 x :
  wf_dungeon (dungeon w) ->
  0 <= y1 < DUNGEON_HEIGHT -> 0 <= y2 < DUNGEON_HEIGHT -> 0 <= x < DUNGEON_WIDTH ->
  painted (on_vsegment y1 y2 x) wall_to_corridor w w' ->
  forall c, Z.min y1 y2 <= c <= Z.max y1 y2 -> passable (dungeon w') (x, c).
Proof.
  intros Hwf Hy1 Hy2 Hx Hp c Hc.
  apply (carved_cell_passable (on_vsegment y1 y2 x) w w');
    [exact Hwf | exact Hp | unfold on_vsegment; zcases | lia | lia].
Qed.

Lemma painted_corridor_mono sel w w' c :
  painted sel wall_to_corridor w w' ->
  passable (dungeon w) c -> passable (dungeon w') c.
Proof.
  apply (painted_passable sel wall_to_corridor w w' c).
  intros t _. apply wall_to_corridor_passable.
Qed.

(** What the corridor step gives: the grid keeps its shape, passable cells
    and floor stay, a newly passable cell lies in the interior and is linked
    to the centre of the previous or of the new room, and the two centres
    are linked. *)
Lemma corridor_effect_summary n o w1 w2 :
  wf_dungeon (dungeon w1) -> room_fits n ->
  (forall prev, o = Some prev -> room_fits prev) ->
  corridor_effect n o w1 w2 ->
  wf_dungeon (dungeon w2) /\
  (forall c, passable (dungeon w1) c -> passable (dungeon w2) c) /\
  (forall cx cy, cell_at (dungeon w1) cx cy = Some FLOOR ->
                 cell_at (dungeon w2) cx cy = Some FLOOR) /\
  (forall cx cy, passable (dungeon w2) (cx, cy) ->
     passable (dungeon w1) (cx, cy) \/
     (interior cx cy /\ exists prev, o = Some prev /\
        (reachable (dungeon w2) (cx, cy) (room_center prev) \/
         reachable (dungeon w2) (cx, cy) (room_center n)))) /\
  (forall prev, o = Some prev ->
     reachable (dungeon w2) (room_center prev) (room_center n)).
Proof.
  intros Hwf Hn Hprev Hc.
  destruct Hc as [w | prev w wa wb wc Hda Hma Hh Hv | prev w wa wb wc Hda Hma Hv Hh].
  - split; [exact Hwf |]. split; [auto |]. split; [auto |].
    split; [auto |]. intros prev [=].
  - specialize (Hprev prev eq_refl).
    pose proof (center_interior n Hn) as Hni.
    pose proof (center_interior prev Hprev) as Hpi.
    destruct (interior_in_grid _ _ Hni) as [Hnx Hny].
    destruct (interior_in_grid _ _ Hpi) as [Hpx Hpy].
    assert (wf_dungeon (dungeon wa)) as Hwfa by (rewrite Hda; exact Hwf).
    pose proof (hsegment_passable wa wb _ _ _ Hwfa Hpx Hnx Hpy Hh) as Hrun1.
    assert (forall c, Z.min (room_centerX prev) (room_centerX n) <= c
                      <= Z.max (room_centerX prev) (room_centerX n) ->
                      passable (dungeon wc) (c, room_centerY prev)) as Hrun1'
      by (intros c Hc; apply (painted_corridor_mono _ wb wc _ Hv), Hrun1, Hc).
    pose proof (vsegment_passable wb wc _ _ _ (proj1 Hh) Hpy Hny Hnx Hv) as Hrun2.
    split; [apply Hv |]. split; [| split; [| split]].
    + intros c Hp. apply (painted_corridor_mono _ wb wc _ Hv).
      apply (painted_corridor_mono _ wa wb _ Hh).
      unfold passable in *. rewrite Hda. exact Hp.
    + intros cx cy Hf.
      apply (painted_keeps_floor _ _ _ _ _ _ eq_refl Hv).
      apply (painted_keeps_floor _ _ _ _ _ _ eq_refl Hh).
      rewrite Hda. exact Hf.
    + intros cx cy Hp.
      destruct (painted_passable_inv _ _ _ _ _ _ Hv Hp) as [Hb | Hsel].
      * destruct (painted_passable_inv _ _ _ _ _ _ Hh Hb) as [Ha | Hsel].
        -- left. unfold passable in *. rewrite <- Hda. exact Ha.
        -- right. apply on_hsegment_inv in Hsel as [-> Hcx].
           split; [unfold interior in *; lia |].
           exists prev. split; [reflexivity |]. left.
           exact (proj1 (reachable_on_hsegment _ _ _ _ _ Hrun1' Hcx)).
      * right. apply on_vsegment_inv in Hsel as [-> Hcy].
        split; [unfold interior in *; lia |].
        exists prev. split; [reflexivity |]. right.
        exact (proj2 (reachable_on_vsegment _ _ _ _ _ Hrun2 Hcy)).
    + intros prev' [= <-].
      exact (link_h_then_v wa wb wc _ _ _ _ Hwfa Hpx Hpy Hnx Hny Hh Hv).
  - specialize (Hprev prev eq_refl).
    pose proof (center_interior n Hn) as Hni.
    pose proof (center_interior prev Hprev) as Hpi.
    destruct (interior_in_grid _ _ Hni) as [Hnx Hny].
    destruct (interior_in_grid _ _ Hpi) as [Hpx Hpy].
    assert (wf_dungeon (dungeon wa)) as Hwfa by (rewrite Hda; exact Hwf).
    pose proof (vsegment_passable wa wb _ _ _ Hwfa Hpy Hny Hpx Hv) as Hrun1.
    assert (forall c, Z.min (room_centerY prev) (room_centerY n) <= c
                      <= Z.max (room_centerY prev) (room_centerY n) ->
                      passable (dungeon wc) (room_centerX prev, c)) as Hrun1'
      by (intros c Hc; apply (painted_corridor_mono _ wb wc _ Hh), Hrun1, Hc).
    pose proof (hsegment_passable wb wc _ _ _ (proj1 Hv) Hpx Hnx Hny Hh) as Hrun2.
    split; [apply Hh |]. split; [| split; [| split]].
    + intros c Hp. apply (painted_corridor_mono _ wb wc _ Hh).
      apply (painted_corridor_mono _ wa wb _ Hv).
      unfold passable in *. rewrite Hda. exact Hp.
    + intros cx cy Hf.
      apply (painted_keeps_floor _ _ _ _ _ _ eq_refl Hh).
      apply (painted_keeps_floor _ _ _ _ _ _ eq_refl Hv).
      rewrite Hda. exact Hf.
    + intros cx cy Hp.
      destruct (painted_passable_inv _ _ _ _ _ _ Hh Hp) as [Hb | Hsel].
      * destruct (painted_passable_inv _ _ _ _ _ _ Hv Hb) as [Ha | Hsel].
        -- left. unfold passable in *. rewrite <- Hda. exact Ha.
        -- right. apply on_vsegment_inv in Hsel as [-> Hcy].
           split; [unfold interior in *; lia |].
           exists prev. split; [reflexivity |]. left.
           exact (proj1 (reachable_on_vsegment _ _ _ _ _ Hrun1' Hcy)).
      * right. apply on_hsegment_inv in Hsel as [-> Hcx].
        split; [unfold interior in *; lia |].
        exists prev. split; [reflexivity |]. right.
        exact (proj2 (reachable_on_hsegment _ _ _ _ _ Hrun2 Hcx)).
    + intros prev' [= <-].
      exact (link_v_then_h wa wb wc _ _ _ _ Hwfa Hpx Hpy Hnx Hny Hv Hh).
Qed.

Lemma place_effect_inv w w' :
  gen_inv_more w -> place_effect w w' -> gen_inv_more w'.
Proof.
  intros (Hinv & Hencl & Hall) [(n & _ & _ & Hd & Hm) | Hplaced].
  - unfold gen_inv_more. rewrite Hd, Hm. auto.
  - destruct Hplaced as (n & w0 & w1 & w2 & Hn & Hno & Hd0 & Hm0 & Hroom & Hcorr
                         & Hd' & Hm').
    assert (gen_inv (dungeon w0) (rooms w0)) as Hinv0 by (rewrite Hd0, Hm0; exact Hinv).
    pose proof (inv_wf _ _ Hinv0) as Hwf0.
    assert (forall prev, last (rooms w) = Some prev -> room_fits prev) as Hprev.
    { intros prev Hlast. apply last_Some in Hlast as [l' Hl'].
      pose proof (inv_fits _ _ Hinv) as Hfits. rewrite Hl' in Hfits.
      apply Forall_app in Hfits as [_ Hfits]. inversion Hfits; assumption. }
    destruct (corridor_effect_summary n _ w1 w2 (proj1 Hroom) Hn Hprev Hcorr)
      as (Hwf2 & Hmono & Hkeep & Hnew & Hlink).
    assert (gen_inv (dungeon w2) (rooms w0 ++ [n])) as Hinv2.
    { apply (gen_inv_place w0 w1 w2 n Hinv0 Hn); try assumption.
      - rewrite Hm0. exact Hno.
      - rewrite Hm0. exact Hlink. }
    rewrite Hm0 in Hinv2.
    unfold gen_inv_more. rewrite Hd', Hm'.
    split; [exact Hinv2 |].
    assert (forall cx cy, passable (dungeon w2) (cx, cy) ->
              passable (dungeon w) (cx, cy) \/
              (interior cx cy /\
               (in_room n cx cy = true \/
                exists prev, last (rooms w) = Some prev /\
                  (reachable (dungeon w2) (cx, cy) (room_center prev) \/
                   reachable (dungeon w2) (cx, cy) (room_center n))))) as Hwhere.
    { intros cx cy Hp. destruct (Hnew cx cy Hp) as [H1 | [Hi Hreach]].
      - destruct (painted_passable_inv _ _ _ _ _ _ Hroom H1) as [H0 | Hsel].
        + left. unfold passable in *. rewrite <- Hd0. exact H0.
        + right. split; [exact (in_room_interior n cx cy Hn Hsel) | left; exact Hsel].
      - right. split; [exact Hi | right; exact Hreach]. }
    split.
    + intros cx cy Hp. destruct (Hwhere cx cy Hp) as [H0 | [Hi _]];
        [exact (Hencl cx cy H0) | exact Hi].
    + intros [cx cy] Hp.
      assert (forall c, passable (dungeon w) c -> passable (dungeon w2) c) as Hmono0.
      { intros c Hc. apply Hmono.
        apply (painted_passable (in_room n) (fun _ => FLOOR) w0 w1 c);
          [discriminate | exact Hroom |].
        unfold passable in *. rewrite Hd0. exact Hc. }
      assert (n ∈ rooms w ++ [n]) as Hnin
        by (apply elem_of_app; right; apply list_elem_of_singleton; reflexivity).
      destruct (Hwhere cx cy Hp) as [H0 | [_ [Hin | (prev & Hlast & Hreach)]]].
      * destruct (Hall (cx, cy) H0) as (r & Hr & Hreach).
        exists r. split; [apply elem_of_app; left; exact Hr |].
        exact (reachable_mono _ _ _ _ Hmono0 Hreach).
      * exists n. split; [exact Hnin |].
        apply (reachable_in_room _ n); [| exact Hin | exact (center_in_room n Hn)].
        intros x y Hxy. left. apply (inv_floor _ _ Hinv2 n x y Hnin Hxy).
      * destruct Hreach as [Hreach | Hreach].
        -- exists prev. split; [| exact Hreach].
           apply elem_of_app. left.
           apply last_Some in Hlast as [l' ->].
           apply elem_of_app. right. apply list_elem_of_singleton. reflexivity.
        -- exists n. split; [exact Hnin | exact Hreach].
Qed.

Lemma place_attempt_more w :
  gen_inv_more w ->
  runs_to place_attempt w (fun _ w' => gen_inv_more w' /\ place_effect w w').
Proof.
  intros Hinv.
  eapply runs_weaken;
    [apply place_attempt_effect; exact (inv_wf _ _ (proj1 Hinv)) |].
  intros u w' Heff. split; [exact (place_effect_inv w w' Hinv Heff) | exact Heff].
Qed.

(** The placement loop keeps an invariant that may depend on the number of
    attempts made, and stops with its condition false. *)
Lemma place_loop_rule (I : Z -> World -> Prop) numRooms maxAttempts fuel :
  (forall a w, I a w -> a < maxAttempts ->
               Z.of_nat (length (rooms w)) < numRooms ->
               runs_to place_attempt w (fun _ w' => I (a + 1) w')) ->
  forall attempts w,
    I attempts w ->
    maxAttempts - attempts <= Z.of_nat fuel ->
    runs_to (place_loop fuel numRooms attempts maxAttempts) w
      (fun _ w' => exists a, attempts <= a /\ I a w' /\
                             ~ (Z.of_nat (length (rooms w')) < numRooms /\
                                a < maxAttempts)).
Proof.
  intros Hstep.
  induction fuel as [| fuel IH]; intros attempts w Hinv Hfuel.
  - cbn [place_loop]. apply runs_bind. eexists _, _. split; [reflexivity |].
    cbv beta.
    replace (attempts <? maxAttempts) with false
      by (symmetry; apply Z.ltb_ge; lia).
    rewrite andb_false_r. apply runs_ret.
    exists attempts. split; [lia |]. split; [exact Hinv | lia].
  - cbn [place_loop]. apply runs_bind. eexists _, _. split; [reflexivity |].
    cbv beta.
    destruct ((Z.of_nat (length (rooms w)) <? numRooms) && (attempts <? maxAttempts))
      eqn:Hcond.
    + apply andb_true_iff in Hcond as [Hroom%Z.ltb_lt Hlt%Z.ltb_lt].
      apply runs_bind.
      eapply runs_weaken; [apply (Hstep attempts w Hinv Hlt Hroom) |].
      intros u w1 Hinv1. cbv beta.
      eapply runs_weaken; [apply (IH (attempts + 1) w1 Hinv1); lia |].
      intros u' w' (a & Ha & Hinv' & Hexit). exists a.
      split; [lia |]. split; [exact Hinv' | exact Hexit].
    + apply runs_ret. exists attempts. split; [lia |]. split; [exact Hinv |].
      intros [H1 H2]. apply Z.ltb_lt in H1, H2. rewrite H1, H2 in Hcond.
      discriminate.
Qed.

Lemma wall_grid_wf : wf_dungeon wall_grid.
Proof.
  split; [apply length_replicate |].
  apply Forall_forall. intros row Hrow.
  apply elem_of_replicate in Hrow as [-> _]. apply length_replicate.
Qed.

(** A grid of the declared shape whose cells are all walls is [wall_grid]. *)
Lemma all_walls_is_wall_grid g :
  wf_dungeon g ->
  (forall cx cy t, cell_at g cx cy = Some t -> t = WALL) ->
  g = wall_grid.
Proof.
  intros [Hlen Hrows] Hall. apply list_eq. intros i.
  unfold wall_grid.
  destruct (decide (i < Z.to_nat DUNGEON_HEIGHT)%nat) as [Hi | Hi].
  - rewrite lookup_replicate_2 by exact Hi.
    destruct (lookup_lt_is_Some_2 g i) as [row Hrow]; [lia |].
    rewrite Hrow. f_equal.
    pose proof (Forall_lookup_1 _ _ _ _ Hrows Hrow) as Hrl. cbv beta in Hrl.
    apply list_eq. intros j.
    destruct (decide (j < Z.to_nat DUNGEON_WIDTH)%nat) as [Hj | Hj].
    + rewrite lookup_replicate_2 by exact Hj.
      destruct (lookup_lt_is_Some_2 row j) as [t Ht]; [lia |].
      rewrite Ht. f_equal.
      apply (Hall (Z.of_nat j) (Z.of_nat i)). unfold cell_at.
      replace (0 <=? Z.of_nat j) with true by (symmetry; apply Z.leb_le; lia).
      replace (0 <=? Z.of_nat i) with true by (symmetry; apply Z.leb_le; lia).
      cbn [andb]. rewrite !Nat2Z.id, Hrow. exact Ht.
    + rewrite (proj1 (lookup_replicate_None _ _ _)) by lia.
      apply lookup_ge_None. lia.
  - rewrite (proj1 (lookup_replicate_None _ _ _)) by lia.
    apply lookup_ge_None. lia.
Qed.

(** The first two statements of [generateDungeon] leave a grid of walls and
    an empty room list, whatever the world held. *)
Lemma generateDungeon_resets w :
  wf_dungeon (dungeon w) ->
  generateDungeon w =
  (let* r := rand in
   place_loop (Z.to_nat 100) (8 + Z.rem r 5) 0 100)
    (mkWorld wall_grid [] (rand_tape w) (rand_calls w)).
Proof.
  intros Hwf. unfold generateDungeon.
  destruct (fill_walls_spec w Hwf) as (u & w1 & Hrun & Hwf1 & (_ & Ht & Hc) & Hcells).
  unfold bind at 1. rewrite Hrun.
  unfold bind at 1. unfold clear_rooms at 1. cbv beta iota zeta.
  replace (dungeon w1) with wall_grid; [rewrite Ht, Hc; reflexivity |].
  symmetry. apply (all_walls_is_wall_grid _ Hwf1).
  intros cx cy t Hcell. rewrite Hcells in Hcell.
  destruct (cell_at (dungeon w) cx cy); cbn in Hcell; congruence.
Qed.

Lemma gen_inv_more_walls tape calls :
  gen_inv_more (mkWorld wall_grid [] tape calls).
Proof.
  split; [apply gen_inv_empty; exact wall_grid_wf |].
  assert (forall c, ~ passable wall_grid c) as Hnone.
  { intros [cx cy] Hp. unfold passable, cell_at, wall_grid in Hp. cbn [fst snd] in Hp.
    destruct ((0 <=? cx) && (0 <=? cy)); [| destruct Hp; discriminate].
    destruct (replicate _ _ !! Z.to_nat cy) as [row |] eqn:Hrow;
      [| destruct Hp; discriminate].
    apply lookup_replicate in Hrow as [-> _].
    destruct Hp as [Hp | Hp]; apply lookup_replicate in Hp as [Hp _];
      discriminate. }
  split.
  - intros cx cy Hp. destruct (Hnone _ Hp).
  - intros c Hp. destruct (Hnone _ Hp).
Qed.

Lemma generateDungeon_more w :
  wf_dungeon (dungeon w) ->
  runs_to generateDungeon w (fun _ w' => gen_inv_more w' /\ rooms w' <> []).
Proof.
  intros Hwf.
  cut (runs_to (let* r := rand in
                place_loop (Z.to_nat 100) (8 + Z.rem r 5) 0 100)
         (mkWorld wall_grid [] (rand_tape w) (rand_calls w))
         (fun _ w' => gen_inv_more w' /\ rooms w' <> [])).
  { intros (a & w' & Hrun & Hpost). exists a, w'.
    rewrite (generateDungeon_resets w Hwf). split; [exact Hrun | exact Hpost]. }
  apply runs_rand_bind; intros r w1 Hr Hd1 Hm1. cbn [dungeon rooms] in Hd1, Hm1.
  pose proof (Z.rem_bound_pos r 5 Hr ltac:(lia)) as Hrem.
  eapply runs_weaken.
  - apply (place_loop_rule
             (fun a w' => gen_inv_more w' /\ 0 <= a /\ (a = 0 -> rooms w' = []) /\
                          (0 < a -> rooms w' <> []))
             (8 + Z.rem r 5) 100 (Z.to_nat 100)); [| | lia].
    + intros a w0 (Hinv & Ha0 & Hzero & Hpos) _ _.
      eapply runs_weaken; [apply place_attempt_more; exact Hinv |].
      intros u w' [Hinv' Heff]. cbv beta.
      split; [exact Hinv' |]. split; [lia |]. split; [lia |]. intros _.
      destruct Heff as [(n & _ & Hclash & _ & Hm)
                       | (n & _ & _ & _ & _ & _ & _ & _ & _ & _ & _ & Hm)].
      * rewrite Hm. destruct (Z.eq_dec a 0) as [Ha | Ha].
        -- rewrite (Hzero Ha) in Hclash. discriminate Hclash.
        -- apply Hpos. lia.
      * rewrite Hm. intros E. apply app_eq_nil in E as [_ E]. discriminate E.
    + split; [| split; [lia | split; [intros _; exact Hm1 | lia]]].
      unfold gen_inv_more. rewrite Hd1, Hm1.
      exact (gen_inv_more_walls (rand_tape w) (rand_calls w)).
  - intros u w' (a & Ha & (Hinv & _ & Hzero & Hpos) & Hexit). cbv beta.
    split; [exact Hinv |].
    destruct (Z.eq_dec a 0) as [-> | Hne]; [| apply Hpos; lia].
    exfalso. apply Hexit. rewrite (Hzero eq_refl). cbn [length]. lia.
Qed.

(** ** X5-X8: the generated dungeon *)

(** X5.  [generateDungeon] never leaves the room list empty: the first
    attempt has no room to clash with and is always accepted. *)
Theorem generateDungeon_places_a_room (w : World) :
  wf_dungeon (dungeon w) ->
  runs_to generateDungeon w (fun _ w' =>
    exists first rest, rooms w' = first :: rest /\ room_fits first).
Proof.
  intros Hwf.
  eapply runs_weaken; [apply generateDungeon_more; exact Hwf |].
  intros u w' [(Hinv & _) Hne]. cbv beta.
  destruct (rooms w') as [| first rest] eqn:Hrooms; [congruence |].
  exists first, rest. split; [reflexivity |].
  pose proof (inv_fits _ _ Hinv) as Hfits. inversion Hfits; assumption.
Qed.

Lemma generateDungeon_places_a_room_witness :
  runs_to generateDungeon start_world (fun _ w' =>
    exists first rest, rooms w' = first :: rest /\ room_fits first).
Proof. exact (generateDungeon_places_a_room start_world wf_start_world). Defined.

(** With a tape that repeats one value every attempt samples the room it
    sampled first, so all 100 attempts are used and one room is placed. *)
Example generateDungeon_constant_tape :
  option_map (fun r => (rooms (snd r), rand_calls (snd r)))
    (generateDungeon (mkWorld wall_grid [] (constant_tape 7) 0))
  = Some ([mkRoom 8 8 5 5], 401%nat).
Proof. vm_compute. reflexivity. Qed.

(** X6.  The generated dungeon is walled in: every cell of column 0 and of
    row 0, and every cell of the last two columns and of the last two rows,
    is Wall; rooms and corridors lie inside. *)
Theorem generateDungeon_walled_in (w : World) :
  wf_dungeon (dungeon w) ->
  runs_to generateDungeon w (fun _ w' =>
    forall cx cy,
      0 <= cx < DUNGEON_WIDTH -> 0 <= cy < DUNGEON_HEIGHT ->
      cx = 0 \/ cy = 0 \/ DUNGEON_WIDTH - 2 <= cx \/ DUNGEON_HEIGHT - 2 <= cy ->
      cell_at (dungeon w') cx cy = Some WALL).
Proof.
  intros Hwf.
  eapply runs_weaken; [apply generateDungeon_more; exact Hwf |].
  intros u w' [(Hinv & Hencl & _) _] cx cy Hx Hy Hborder.
  destruct (cell_at_in_range _ _ _ (inv_wf _ _ Hinv) Hx Hy) as [t Ht].
  rewrite Ht. f_equal.
  destruct t; [reflexivity | exfalso | exfalso];
    (assert (interior cx cy) as Hi
       by (apply Hencl; unfold passable; cbn [fst snd]; auto));
    unfold interior in Hi; lia.
Qed.

Lemma generateDungeon_walled_in_witness :
  runs_to generateDungeon start_world (fun _ w' =>
    forall cx cy,
      0 <= cx < DUNGEON_WIDTH -> 0 <= cy < DUNGEON_HEIGHT ->
      cx = 0 \/ cy = 0 \/ DUNGEON_WIDTH - 2 <= cx \/ DUNGEON_HEIGHT - 2 <= cy ->
      cell_at (dungeon w') cx cy = Some WALL).
Proof. exact (generateDungeon_walled_in start_world wf_start_world). Defined.

(** X7.  The whole walkable area of the generated dungeon is one component:
    any two Floor or Corridor cells, in rooms or in corridors, are joined by
    a path of 4-adjacent Floor or Corridor cells. *)
Theorem generateDungeon_fully_connected (w : World) :
  wf_dungeon (dungeon w) ->
  runs_to generateDungeon w (fun _ w' =>
    forall c1 c2,
      passable (dungeon w') c1 -> passable (dungeon w') c2 ->
      reachable (dungeon w') c1 c2).
Proof.
  intros Hwf.
  eapply runs_weaken; [apply generateDungeon_more; exact Hwf |].
  intros u w' [(Hinv & _ & Hall) _] c1 c2 H1 H2.
  destruct (Hall c1 H1) as (r1 & Hr1 & Hreach1).
  destruct (Hall c2 H2) as (r2 & Hr2 & Hreach2).
  apply (reachable_trans _ _ (room_center r1)); [exact Hreach1 |].
  apply (reachable_trans _ _ (room_center r2));
    [exact (inv_linked _ _ Hinv r1 r2 Hr1 Hr2) |].
  apply reachable_sym. exact Hreach2.
Qed.

Lemma generateDungeon_fully_connected_witness :
  runs_to generateDungeon start_world (fun _ w' =>
    forall c1 c2,
      passable (dungeon w') c1 -> passable (dungeon w') c2 ->
      reachable (dungeon w') c1 c2).
Proof. exact (generateDungeon_fully_connected start_world wf_start_world). Defined.

(** X8.  Generation keeps nothing of the world it starts from: two worlds
    that agree on the state of [rand()] get the same dungeon and the same
    room list, whatever their grids and room lists held before. *)
Theorem generateDungeon_forgets (w1 w2 : World) :
  wf_dungeon (dungeon w1) -> wf_dungeon (dungeon w2) ->
  rand_tape w1 = rand_tape w2 -> rand_calls w1 = rand_calls w2 ->
  generateDungeon w1 = generateDungeon w2.
Proof.
  intros Hwf1 Hwf2 Ht Hc.
  rewrite (generateDungeon_resets w1 Hwf1), (generateDungeon_resets w2 Hwf2).
  rewrite Ht, Hc. reflexivity.
Qed.

Lemma generateDungeon_forgets_witness :
  generateDungeon start_world = generateDungeon one_room_world.
Proof.
  apply (generateDungeon_forgets start_world one_room_world).
  - exact wf_start_world.
  - exact wf_one_room_world.
  - reflexivity.
  - reflexivity.
Defined.

(** ** Carving a room *)

(** X9.  [carveRoom] clips the room to the grid: for a room of any
    position and size, also partly or wholly outside the grid or of
    negative size, it returns, the cells of the grid that lie in the room
    become Floor whatever they were, every other cell keeps its kind, and
    the room list is left alone. *)
Theorem carveRoom_clips (room : Room) (w : World) :
  wf_dungeon (dungeon w) ->
  runs_to (carveRoom room) w (fun _ w' =>
    wf_dungeon (dungeon w') /\ rooms w' = rooms w /\
    forall cx cy,
      0 <= cx < DUNGEON_WIDTH -> 0 <= cy < DUNGEON_HEIGHT ->
      cell_at (dungeon w') cx cy =
      if in_room room cx cy then Some FLOOR else cell_at (dungeon w) cx cy).
Proof.
  intros Hwf.
  eapply runs_weaken; [exact (carveRoom_spec room w Hwf) |].
  intros u w' (Hwf' & Hsame & Hcells).
  split; [exact Hwf' |]. split; [apply Hsame |].
  intros cx cy Hx Hy. rewrite Hcells.
  destruct (cell_at_in_range _ cx cy Hwf Hx Hy) as [t ->].
  destruct (in_room room cx cy); reflexivity.
Qed.

Lemma carveRoom_clips_witness :
  runs_to (carveRoom (mkRoom (-2) 27 5 9)) one_room_world (fun _ w' =>
    wf_dungeon (dungeon w') /\ rooms w' = rooms one_room_world /\
    forall cx cy,
      0 <= cx < DUNGEON_WIDTH -> 0 <= cy < DUNGEON_HEIGHT ->
      cell_at (dungeon w') cx cy =
      if in_room (mkRoom (-2) 27 5 9) cx cy then Some FLOOR
      else cell_at (dungeon one_room_world) cx cy).
Proof.
  exact (carveRoom_clips (mkRoom (-2) 27 5 9) one_room_world wf_one_room_world).
Defined.

(** ** The frame update keeps the player on passable cells *)

Lemma getTargetFromDirection_near dir x y :
  Z.abs (fst (getTargetFromDirection dir x y) - x) <= 1 /\
  Z.abs (snd (getTargetFromDirection dir x y) - y) <= 1.
Proof.
  unfold getTargetFromDirection. cbv zeta. cbn [fst snd].
  destruct (has_flag dir UP), (has_flag dir DOWN), (has_flag dir LEFT),
    (has_flag dir RIGHT); lia.
Qed.

Lemma isWalkable_total w x y :
  wf_dungeon (dungeon w) ->
  exists b, isWalkable x y w = Some (b, w) /\
            (b = true -> passable (dungeon w) (x, y)).
Proof.
  intros Hwf. destruct (cell_at (dungeon w) x y) as [t |] eqn:Ht.
  - exists (negb (tile_eqb t WALL)).
    split; [exact (isWalkable_inside w x y t Hwf Ht) |].
    intros Hb. unfold passable. cbn [fst snd]. rewrite Ht.
    destruct t; [discriminate Hb | left | right]; reflexivity.
  - exists false. split; [| discriminate].
    apply isWalkable_outside. intros [Hx Hy].
    destruct (cell_at_in_range _ _ _ Hwf Hx Hy) as [t Hsome]. congruence.
Qed.

Lemma updateMovement_safe g dt p :
  player_safe g p -> player_safe g (updateMovement dt p).
Proof.
  intros (Hg & Ht & Hdx & Hdy & Hidle). unfold updateMovement.
  destruct (isMoving p) eqn:Hmov; cbn [negb].
  - destruct (Qle_bool 1 (moveProgress p + MOVE_SPEED * dt)).
    + unfold player_safe. cbn [gridX gridY targetGridX targetGridY isMoving
                               pixelX pixelY].
      split; [exact Ht |]. split; [exact Ht |]. split; [lia |]. split; [lia |].
      intros _. repeat split.
    + unfold player_safe. cbn [gridX gridY targetGridX targetGridY isMoving
                               pixelX pixelY].
      split; [exact Hg |]. split; [exact Ht |].
      split; [exact Hdx |]. split; [exact Hdy | discriminate].
  - unfold player_safe. rewrite Hmov. split; [exact Hg |]. split; [exact Ht |].
    split; [exact Hdx |]. split; [exact Hdy | exact Hidle].
Qed.

Lemma updateInputTiming_safe g d dt p :
  player_safe g p -> player_safe g (updateInputTiming d dt p).
Proof.
  intros Hsafe. unfold updateInputTiming.
  destruct (d =? NONE); [exact Hsafe |].
  destruct (d =? lastInputDirection p); exact Hsafe.
Qed.

Lemma playing_frame_safe w p c d dt :
  wf_dungeon (dungeon w) -> player_safe (dungeon w) p ->
  exists p' c',
    playing_frame d dt (mkGame w p c) = Some (mkGame w p' c') /\
    player_safe (dungeon w) p'.
Proof.
  intros Hwf Hsafe. unfold playing_frame. cbn [player world camera].
  pose proof (updateInputTiming_safe _ d dt _ (updateMovement_safe _ dt p Hsafe))
    as Hsafe2.
  set (p2 := updateInputTiming d dt (updateMovement dt p)) in *.
  destruct (negb (d =? NONE) && shouldAcceptInput p2).
  - pose proof (getTargetFromDirection_near d (gridX p2) (gridY p2)) as [Hnx Hny].
    destruct (getTargetFromDirection d (gridX p2) (gridY p2)) as [tx ty].
    cbn [fst snd] in Hnx, Hny.
    destruct (isWalkable_total w tx ty Hwf) as (b & -> & Hb).
    destruct b.
    + eexists _, _. split; [reflexivity |].
      destruct Hsafe2 as (Hg & _). unfold player_safe.
      cbn [startMove gridX gridY targetGridX targetGridY isMoving].
      split; [exact Hg |]. split; [exact (Hb eq_refl) |].
      split; [lia |]. split; [lia | discriminate].
    + eexists _, _. split; [reflexivity | exact Hsafe2].
  - eexists _, _. split; [reflexivity | exact Hsafe2].
Qed.

(** X10.  Whatever directions and time deltas the frames bring, the frame
    update never fails and never touches the grid, and the player keeps
    standing on a passable cell and heading for a passable cell next to it
    (or its own): it never enters a wall and never leaves the grid. *)
Theorem frames_keep_player_safe (w : World) (p : Player) (c : Camera)
  (frames : list (Direction * Q)) :
  wf_dungeon (dungeon w) -> player_safe (dungeon w) p ->
  exists g,
    run_frames frames (mkGame w p c) = Some g /\
    world g = w /\ player_safe (dungeon w) (player g).
Proof.
  intros Hwf. revert p c.
  induction frames as [| [d dt] frames IH]; intros p c Hsafe.
  - exists (mkGame w p c). split; [reflexivity |]. split; [reflexivity | exact Hsafe].
  - destruct (playing_frame_safe w p c d dt Hwf Hsafe) as (p' & c' & Hframe & Hsafe').
    cbn [run_frames]. rewrite Hframe. exact (IH p' c' Hsafe').
Qed.

Lemma setGridPosition_safe g x y p :
  passable g (x, y) -> player_safe g (setGridPosition x y p).
Proof.
  intros Hp. unfold player_safe.
  cbn [setGridPosition gridX gridY targetGridX targetGridY pixelX pixelY].
  split; [exact Hp |]. split; [exact Hp |].
  split; [lia |]. split; [lia |]. intros _. repeat split.
Qed.

Lemma frames_keep_player_safe_witness :
  exists g,
    run_frames [(RIGHT, 0.02%Q); (Z.lor UP LEFT, 0.5%Q); (15, 7%Q); (DOWN, 0%Q)]
      (mkGame one_room_world (setGridPosition 5 5 moving_player) newCamera)
    = Some g /\
    world g = one_room_world /\
    player_safe (dungeon one_room_world) (player g).
Proof.
  apply (frames_keep_player_safe one_room_world
           (setGridPosition 5 5 moving_player) newCamera).
  - exact wf_one_room_world.
  - apply setGridPosition_safe. left. vm_compute. reflexivity.
Defined.

(** X11.  After [setGridPosition x y] the player stays put under calls of
    [updateMovement] with non-negative deltas, also when it was snapped in
    the middle of a move with a progress that is not negative: the current
    and the target cell remain (x, y) and the pixel position remains that
    cell's canonical position.  (Within these bounds the interpolation
    weight is finite; outside them the binary32 computation can overflow.) *)
Theorem snapped_player_stays (p : Player) (x y : Z) (deltas : list Q) :
  (0 <= moveProgress p)%Q ->
  Forall (fun dt => (0 <= dt)%Q) deltas ->
  let q := run_movement deltas (setGridPosition x y p) in
  gridX q = x /\ gridY q = y /\ targetGridX q = x /\ targetGridY q = y /\
  (pixelX q == cell_pixel x)%Q /\ (pixelY q == cell_pixel y)%Q.
Proof.
  intros _ _. cbv zeta.
  assert (forall q,
            gridX q = x /\ gridY q = y /\ targetGridX q = x /\ targetGridY q = y /\
            (pixelX q == cell_pixel x)%Q /\ (pixelY q == cell_pixel y)%Q ->
            gridX (run_movement deltas q) = x /\ gridY (run_movement deltas q) = y /\
            targetGridX (run_movement deltas q) = x /\
            targetGridY (run_movement deltas q) = y /\
            (pixelX (run_movement deltas q) == cell_pixel x)%Q /\
            (pixelY (run_movement deltas q) == cell_pixel y)%Q) as Hrun.
  { induction deltas as [| dt deltas IH]; intros q Hq; [exact Hq |].
    change (run_movement (dt :: deltas) q)
      with (run_movement deltas (updateMovement dt q)).
    apply IH. destruct Hq as (Hgx & Hgy & Htx & Hty & Hpx & Hpy).
    unfold updateMovement.
    destruct (isMoving q); cbn [negb]; [| repeat split; assumption].
    destruct (Qle_bool 1 (moveProgress q + MOVE_SPEED * dt));
      cbn [gridX gridY targetGridX targetGridY pixelX pixelY];
      rewrite ?Hgx, ?Hgy, ?Htx, ?Hty.
    - repeat split; reflexivity.
    - repeat split; try reflexivity; ring. }
  apply Hrun. repeat split; reflexivity.
Qed.

Lemma snapped_player_stays_witness :
  gridX (run_movement [0.02; 0.05; 3]%Q (setGridPosition 7 2 moving_player)) = 7 /\
  gridY (run_movement [0.02; 0.05; 3]%Q (setGridPosition 7 2 moving_player)) = 2 /\
  targetGridX (run_movement [0.02; 0.05; 3]%Q (setGridPosition 7 2 moving_player))
  = 7 /\
  targetGridY (run_movement [0.02; 0.05; 3]%Q (setGridPosition 7 2 moving_player))
  = 2 /\
  (pixelX (run_movement [0.02; 0.05; 3]%Q (setGridPosition 7 2 moving_player))
   == cell_pixel 7)%Q /\
  (pixelY (run_movement [0.02; 0.05; 3]%Q (setGridPosition 7 2 moving_player))
   == cell_pixel 2)%Q.
Proof.
  apply (snapped_player_stays moving_player 7 2 [0.02; 0.05; 3]%Q).
  - cbn. lra.
  - repeat constructor; lra.
Defined.

(** ** The easing curve and the glide *)

Lemma ease_out_cubic_eq t :
  (ease_out_cubic t == 1 - (1 - t) * (1 - t) * (1 - t))%Q.
Proof. unfold ease_out_cubic. simpl. ring. Qed.

Lemma Qmult_le_left (c a b : Q) :
  (0 <= c)%Q -> (a <= b)%Q -> (c * a <= c * b)%Q.
Proof.
  intros Hc Hab.
  assert (a * c <= b * c)%Q as H by (apply Qmult_le_compat_r; assumption).
  assert (c * a == a * c)%Q as E1 by ring.
  assert (c * b == b * c)%Q as E2 by ring.
  lra.
Qed.

Lemma ease_out_cubic_bounds t :
  (0 <= t)%Q -> (t <= 1)%Q ->
  (0 <= ease_out_cubic t)%Q /\ (ease_out_cubic t <= 1)%Q.
Proof.
  intros H0 H1. rewrite ease_out_cubic_eq.
  assert (0 <= 1 - t)%Q as Ha by lra. assert (1 - t <= 1)%Q as Hb by lra.
  set (a := (1 - t)%Q) in *.
  assert (0 <= a * a)%Q as Haa by (apply Qmult_le_0_compat; assumption).
  assert (a * a <= 1)%Q as Haa1.
  { assert (a * a <= 1 * a)%Q by (apply Qmult_le_compat_r; assumption). lra. }
  assert (0 <= a * a * a)%Q as Haaa by (apply Qmult_le_0_compat; assumption).
  assert (a * a * a <= 1)%Q as Haaa1.
  { assert (a * a * a <= 1 * a)%Q by (apply Qmult_le_compat_r; assumption). lra. }
  split; lra.
Qed.

Lemma ease_out_cubic_mono s t :
  (0 <= s)%Q -> (s <= t)%Q -> (t <= 1)%Q ->
  (ease_out_cubic s <= ease_out_cubic t)%Q.
Proof.
  intros H0 Hst H1. rewrite !ease_out_cubic_eq.
  set (a := (1 - t)%Q). set (b := (1 - s)%Q).
  assert (0 <= a)%Q as Ha by (subst a; lra).
  assert (a <= b)%Q as Hab by (subst a b; lra).
  assert (0 <= b)%Q as Hb by lra.
  assert (a * a <= b * b)%Q as H2.
  { assert (a * a <= b * a)%Q by (apply Qmult_le_compat_r; assumption).
    assert (b * a <= b * b)%Q
      by (apply Qmult_le_left; assumption).
    lra. }
  assert (a * a * a <= b * b * b)%Q as H3.
  { assert (a * a * a <= b * b * a)%Q by (apply Qmult_le_compat_r; assumption).
    assert (0 <= b * b)%Q by (apply Qmult_le_0_compat; assumption).
    assert (b * b * a <= b * b * b)%Q
      by (apply Qmult_le_left; assumption).
    lra. }
  lra.
Qed.

(** Interpolation between [a] and [b] by a weight in [0, 1]. *)
Lemma lerp_between a b e :
  (0 <= e)%Q -> (e <= 1)%Q -> Qbetween a b (a + (b - a) * e).
Proof.
  intros H0 H1. destruct (Qlt_le_dec b a) as [Hlt | Hle].
  - right. assert (0 <= (a - b) * e)%Q by (apply Qmult_le_0_compat; lra).
    assert ((a - b) * e <= (a - b) * 1)%Q.
    { apply Qmult_le_left; lra. }
    assert ((b - a) * e == - ((a - b) * e))%Q as -> by ring. lra.
  - left. assert (0 <= (b - a) * e)%Q by (apply Qmult_le_0_compat; lra).
    assert ((b - a) * e <= (b - a) * 1)%Q.
    { apply Qmult_le_left; lra. }
    lra.
Qed.

Lemma lerp_toward a b e e' :
  (0 <= e)%Q -> (e <= e')%Q -> (e' <= 1)%Q ->
  Qtoward b (a + (b - a) * e) (a + (b - a) * e').
Proof.
  intros H0 He H1. destruct (Qlt_le_dec b a) as [Hlt | Hle].
  - right.
    assert ((a - b) * e <= (a - b) * e')%Q.
    { apply Qmult_le_left; lra. }
    assert ((a - b) * e' <= (a - b) * 1)%Q.
    { apply Qmult_le_left; lra. }
    assert ((b - a) * e == - ((a - b) * e))%Q as -> by ring.
    assert ((b - a) * e' == - ((a - b) * e'))%Q as -> by ring. lra.
  - left.
    assert ((b - a) * e <= (b - a) * e')%Q.
    { apply Qmult_le_left; lra. }
    assert ((b - a) * e' <= (b - a) * 1)%Q.
    { apply Qmult_le_left; lra. }
    lra.
Qed.

Lemma lerp_toward_end a b e :
  (0 <= e)%Q -> (e <= 1)%Q -> Qtoward b (a + (b - a) * e) b.
Proof.
  intros H0 H1. destruct (Qlt_le_dec b a) as [Hlt | Hle].
  - right.
    assert ((a - b) * e <= (a - b) * 1)%Q by (apply Qmult_le_left; lra).
    assert ((b - a) * e == - ((a - b) * e))%Q as -> by ring. lra.
  - left.
    assert ((b - a) * e <= (b - a) * 1)%Q by (apply Qmult_le_left; lra).
    lra.
Qed.

(** X12.  During a Transition, under non-negative deltas, each call of
    [updateMovement] leaves the pixel position between the canonical
    positions of the start and the target cell, and a further call brings
    it closer to the target's or leaves it where it is: the player glides
    towards the target without stepping back and without overshooting. *)
Theorem transition_glides (p : Player) (dt dt' : Q) :
  Transitioning p -> (0 <= dt)%Q -> (0 <= dt')%Q ->
  let q := updateMovement dt p in
  let q' := updateMovement dt' q in
  Qbetween (cell_pixel (gridX p)) (cell_pixel (targetGridX p)) (pixelX q) /\
  Qbetween (cell_pixel (gridY p)) (cell_pixel (targetGridY p)) (pixelY q) /\
  Qtoward (cell_pixel (targetGridX p)) (pixelX q) (pixelX q') /\
  Qtoward (cell_pixel (targetGridY p)) (pixelY q) (pixelY q').
Proof.
  intros Htr Hdt Hdt'. cbv zeta.
  pose proof Htr as (Hmov & Hp0 & Hp1).
  assert (forall a : Q, Qbetween a a a) as Hrefl by (intros a; left; lra).
  assert (forall a b : Q, Qbetween a b b) as Hend
    by (intros a b; destruct (Qlt_le_dec b a); [right | left]; lra).
  assert (forall b : Q, Qtoward b b b) as Htrefl by (intros b; left; lra).
  destruct (Qlt_le_dec (moveProgress p + MOVE_SPEED * dt) 1) as [Hlt | Hge].
  - pose proof (Qlt_not_le _ _ Hlt) as Hnle.
    assert (Qle_bool 1 (moveProgress p + MOVE_SPEED * dt) = false) as Hb.
    { destruct (Qle_bool 1 _) eqn:E; [| reflexivity].
      apply Qle_bool_iff in E. contradiction. }
    rewrite (updateMovement_interpolates dt p Hmov Hb).
    set (t := (moveProgress p + MOVE_SPEED * dt)%Q) in *.
    assert (0 <= t)%Q as Ht0 by (subst t; unfold MOVE_SPEED; lra).
    destruct (ease_out_cubic_bounds t Ht0 ltac:(lra)) as [He0 He1].
    cbn [pixelX pixelY].
    split; [exact (lerp_between _ _ _ He0 He1) |].
    split; [exact (lerp_between _ _ _ He0 He1) |].
    unfold updateMovement. cbn [isMoving negb moveProgress gridX gridY
                                      targetGridX targetGridY pixelX pixelY].
    destruct (Qle_bool 1 (t + MOVE_SPEED * dt')) eqn:Hb';
      cbn [pixelX pixelY].
    + split; apply lerp_toward_end; assumption.
    + assert (t + MOVE_SPEED * dt' < 1)%Q as Hlt'.
      { apply Qnot_le_lt. intros Hle. apply Qle_bool_iff in Hle. congruence. }
      assert (t <= t + MOVE_SPEED * dt')%Q as Hmono by (unfold MOVE_SPEED; lra).
      pose proof (ease_out_cubic_mono t _ Ht0 Hmono ltac:(lra)) as Hem.
      destruct (ease_out_cubic_bounds (t + MOVE_SPEED * dt') ltac:(lra) ltac:(lra))
        as [_ He1'].
      split; apply lerp_toward; assumption.
  - pose proof (updateMovement_arrives dt p Hmov Hge)
      as (Hidle & _ & _ & _ & Hpx & Hpy & _).
    rewrite (updateMovement_idle dt' _ Hidle). rewrite Hpx, Hpy.
    split; [apply Hend |]. split; [apply Hend |]. split; apply Htrefl.
Qed.

Lemma transition_glides_witness :
  Qbetween (cell_pixel (gridX moving_player)) (cell_pixel (targetGridX moving_player))
    (pixelX (updateMovement 0.02 moving_player)) /\
  Qbetween (cell_pixel (gridY moving_player)) (cell_pixel (targetGridY moving_player))
    (pixelY (updateMovement 0.02 moving_player)) /\
  Qtoward (cell_pixel (targetGridX moving_player))
    (pixelX (updateMovement 0.02 moving_player))
    (pixelX (updateMovement 0.03 (updateMovement 0.02 moving_player))) /\
  Qtoward (cell_pixel (targetGridY moving_player))
    (pixelY (updateMovement 0.02 moving_player))
    (pixelY (updateMovement 0.03 (updateMovement 0.02 moving_player))).
Proof.
  apply (transition_glides moving_player 0.02 0.03).
  - repeat split; cbn; lra.
  - lra.
  - lra.
Defined.

(** ** The keyboard reader and the overlap test *)

(** X13.  [getDirectionFromInput] sets each of the four bits exactly when
    one of the two keys of that direction is down, returns [NONE] exactly
    when none of the eight keys is down, and the target that
    [getTargetFromDirection] computes from its result moves by one cell per
    axis in the direction whose keys are down, the two directions of an axis
    cancelling out. *)
Theorem keys_decide_target (ks : KeyState) (x y : Z) :
  let dir := getDirectionFromInput ks in
  has_flag dir UP = key_UP ks || key_W ks /\
  has_flag dir DOWN = key_DOWN ks || key_S ks /\
  has_flag dir LEFT = key_LEFT ks || key_A ks /\
  has_flag dir RIGHT = key_RIGHT ks || key_D ks /\
  (dir = NONE <-> ks = no_keys) /\
  getTargetFromDirection dir x y =
    (x + Z.b2z (key_RIGHT ks || key_D ks) - Z.b2z (key_LEFT ks || key_A ks),
     y + Z.b2z (key_DOWN ks || key_S ks) - Z.b2z (key_UP ks || key_W ks)).
Proof.
  cbv zeta.
  assert (forall u d l r : bool,
    let dir := (let f := NONE in
                let f := if u then Z.lor f UP else f in
                let f := if d then Z.lor f DOWN else f in
                let f := if l then Z.lor f LEFT else f in
                let f := if r then Z.lor f RIGHT else f in f) in
    has_flag dir UP = u /\ has_flag dir DOWN = d /\
    has_flag dir LEFT = l /\ has_flag dir RIGHT = r /\
    (dir = NONE <-> u || d || l || r = false)) as Hbits.
  { intros [] [] [] []; vm_compute; repeat split; congruence. }
  unfold getDirectionFromInput.
  specialize (Hbits (key_UP ks || key_W ks) (key_DOWN ks || key_S ks)
                    (key_LEFT ks || key_A ks) (key_RIGHT ks || key_D ks)).
  cbv zeta in Hbits |- *.
  destruct Hbits as (Hu & Hd & Hl & Hr & Hnone).
  split; [exact Hu |]. split; [exact Hd |]. split; [exact Hl |].
  split; [exact Hr |]. split.
  - rewrite Hnone. destruct ks as [a b c d e f g h]. unfold no_keys.
    cbn [key_UP key_W key_DOWN key_S key_LEFT key_A key_RIGHT key_D].
    split.
    + destruct a, b, c, d, e, f, g, h; cbn; intros H;
        first [discriminate H | reflexivity].
    + intros H. injection H as -> -> -> -> -> -> -> ->. reflexivity.
  - unfold getTargetFromDirection. cbv zeta. rewrite Hu, Hd, Hl, Hr.
    destruct (key_UP ks || key_W ks), (key_DOWN ks || key_S ks),
      (key_LEFT ks || key_A ks), (key_RIGHT ks || key_D ks);
      cbn [Z.b2z]; f_equal; lia.
Qed.

Lemma clash_true_shared_cell n r p :
  0 <= p -> 0 < room_width n -> 0 < room_height n ->
  0 < room_width r -> 0 < room_height r ->
  rooms_clash n r p = true ->
  in_room (inflate p n) (Z.max (room_x n - p) (room_x r))
                        (Z.max (room_y n - p) (room_y r)) = true /\
  in_room r (Z.max (room_x n - p) (room_x r))
            (Z.max (room_y n - p) (room_y r)) = true.
Proof.
  intros Hp Hnw Hnh Hrw Hrh Hclash.
  unfold rooms_clash in Hclash. unfold in_room, inflate.
  cbn [room_x room_y room_width room_height].
  apply andb_true_iff in Hclash as [Hclash H4].
  apply andb_true_iff in Hclash as [Hclash H3].
  apply andb_true_iff in Hclash as [H1 H2].
  apply Z.ltb_lt in H1, H3. apply Z.gtb_lt in H2, H4.
  split; repeat (apply andb_true_iff; split);
    first [apply Z.leb_le | apply Z.ltb_lt]; lia.
Qed.

Lemma shared_cell_clash_true n r p cx cy :
  in_room (inflate p n) cx cy = true -> in_room r cx cy = true ->
  rooms_clash n r p = true.
Proof.
  unfold in_room, inflate, rooms_clash.
  cbn [room_x room_y room_width room_height].
  intros Hn Hr.
  apply andb_true_iff in Hn as [Hn N4]. apply andb_true_iff in Hn as [Hn N3].
  apply andb_true_iff in Hn as [N1 N2].
  apply andb_true_iff in Hr as [Hr R4]. apply andb_true_iff in Hr as [Hr R3].
  apply andb_true_iff in Hr as [R1 R2].
  apply Z.leb_le in N1, N3, R1, R3. apply Z.ltb_lt in N2, N4, R2, R4.
  repeat (apply andb_true_iff; split);
    first [apply Z.ltb_lt | apply Z.gtb_lt]; lia.
Qed.

(** X14.  For rooms of positive size and a padding that is not negative,
    the test of [roomOverlaps] is exact on cells: it answers true exactly
    when one of the existing rooms shares a cell with the new room grown by
    [padding] cells on every side.  In particular it answers false on an
    empty list. *)
Theorem roomOverlaps_exact (newRoom : Room) (existingRooms : list Room)
  (padding : Z) :
  0 <= padding -> 0 < room_width newRoom -> 0 < room_height newRoom ->
  (forall r, r ∈ existingRooms -> 0 < room_width r /\ 0 < room_height r) ->
  (roomOverlaps newRoom existingRooms padding = true <->
   exists r cx cy, r ∈ existingRooms /\
     in_room (inflate padding newRoom) cx cy = true /\
     in_room r cx cy = true).
Proof.
  intros Hp Hw Hh Hpos.
  induction existingRooms as [| r rs IH].
  - cbn [roomOverlaps]. split; [discriminate |].
    intros (r & cx & cy & Hin & _). inversion Hin.
  - cbn [roomOverlaps].
    assert (forall r', r' ∈ rs -> 0 < room_width r' /\ 0 < room_height r') as Hrs
      by (intros r' Hr'; apply Hpos; right; exact Hr').
    specialize (IH Hrs).
    destruct (rooms_clash newRoom r padding) eqn:Hclash.
    + split; [intros _ | reflexivity].
      destruct (Hpos r ltac:(left)) as [Hrw Hrh].
      destruct (clash_true_shared_cell newRoom r padding Hp Hw Hh Hrw Hrh Hclash)
        as [Hn Hr].
      exists r, (Z.max (room_x newRoom - padding) (room_x r)),
        (Z.max (room_y newRoom - padding) (room_y r)).
      split; [left |]. split; assumption.
    + rewrite IH. split.
      * intros (r' & cx & cy & Hin & Hn & Hr). exists r', cx, cy.
        split; [right; exact Hin |]. split; assumption.
      * intros (r' & cx & cy & Hin & Hn & Hr).
        apply elem_of_cons in Hin as [-> | Hin].
        -- rewrite (shared_cell_clash_true newRoom r padding cx cy Hn Hr) in Hclash.
           discriminate.
        -- exists r', cx, cy. split; [exact Hin |]. split; assumption.
Qed.

Lemma roomOverlaps_exact_witness :
  roomOverlaps (mkRoom 7 3 4 4) [one_room; mkRoom 20 20 5 5] 2 = true <->
  exists r cx cy, r ∈ [one_room; mkRoom 20 20 5 5] /\
    in_room (inflate 2 (mkRoom 7 3 4 4)) cx cy = true /\
    in_room r cx cy = true.
Proof.
  apply (roomOverlaps_exact (mkRoom 7 3 4 4) [one_room; mkRoom 20 20 5 5] 2).
  - lia.
  - cbn. lia.
  - cbn. lia.
  - intros r Hr. apply elem_of_cons in Hr as [-> | Hr].
    + vm_compute. split; reflexivity.
    + apply list_elem_of_singleton in Hr as ->. vm_compute. split; reflexivity.
Defined.

(** ** The frame update keeps the motion state steady *)

Lemma Qbetween_refl a x : (x == a)%Q -> forall b, Qbetween a b x.
Proof.
  intros Hx b. destruct (Qlt_le_dec b a); [right | left]; lra.
Qed.

Lemma Qbetween_same a x : Qbetween a a x -> (x == a)%Q.
Proof. intros [[H1 H2] | [H1 H2]]; lra. Qed.

Lemma Qbetween_end a b : Qbetween a b b.
Proof. destruct (Qlt_le_dec b a); [right | left]; lra. Qed.

Lemma setGridPosition_steady x y p :
  player_steady p -> player_steady (setGridPosition x y p).
Proof.
  intros (Hp & _ & _ & _ & Hmov). unfold player_steady.
  cbn [setGridPosition gridX gridY targetGridX targetGridY pixelX pixelY
       isMoving movingDirection moveProgress lastInputDirection inputHoldTime
       continuousMoveEnabled].
  split; [exact Hp |].
  split; [apply Qbetween_end |]. split; [apply Qbetween_end |].
  split; [intros _; split; reflexivity |].
  intros Hm. split; [right; split; reflexivity | exact (proj2 (Hmov Hm))].
Qed.

Lemma setGridPosition_newPlayer_steady x y :
  player_steady (setGridPosition x y newPlayer).
Proof.
  unfold player_steady, newPlayer.
  cbn [setGridPosition gridX gridY targetGridX targetGridY pixelX pixelY
       isMoving moveProgress].
  split; [lra |].
  split; [apply Qbetween_end |]. split; [apply Qbetween_end |].
  split; [intros _; split; reflexivity | discriminate].
Qed.

(** The first half of a frame: [updateMovement] then [updateInputTiming]. *)
Lemma timing_after_movement_steady d dt p :
  player_steady p -> (0 <= dt)%Q ->
  let r := updateInputTiming d dt (updateMovement dt p) in
  player_steady r /\ (d <> NONE -> lastInputDirection r = d).
Proof.
  intros (Hp & Hbx & Hby & Hidle & Hmov) Hdt. cbv zeta.
  assert (forall q, d <> NONE ->
            lastInputDirection (updateInputTiming d dt q) = d) as Hlast.
  { intros q Hd. unfold updateInputTiming.
    destruct (Z.eqb_spec d NONE) as [? | _]; [contradiction |].
    destruct (Z.eqb_spec d (lastInputDirection q)) as [E | _];
      cbn [set_input lastInputDirection]; congruence. }
  split; [| apply Hlast].
  destruct (isMoving p) eqn:Hm.
  - destruct (Hmov eq_refl) as [Htarget Hlag].
    destruct (Qlt_le_dec (moveProgress p + MOVE_SPEED * dt) 1) as [Hlt | Hge].
    + (* the move goes on *)
      assert (Qle_bool 1 (moveProgress p + MOVE_SPEED * dt) = false) as Hb.
      { destruct (Qle_bool 1 _) eqn:E; [| reflexivity].
        apply Qle_bool_iff in E. lra. }
      rewrite (updateMovement_interpolates dt p Hm Hb).
      set (t := (moveProgress p + MOVE_SPEED * dt)%Q) in *.
      assert (0 <= t)%Q as Ht0 by (subst t; unfold MOVE_SPEED; lra).
      assert (moveProgress p <= t)%Q as Hpt by (subst t; unfold MOVE_SPEED; lra).
      destruct (ease_out_cubic_bounds t Ht0 ltac:(lra)) as [He0 He1].
      unfold updateInputTiming.
      cbn [lastInputDirection inputHoldTime continuousMoveEnabled].
      destruct (Z.eqb_spec d NONE) as [Hn | Hn];
        [| destruct (Z.eqb_spec d (lastInputDirection p)) as [Hl | Hl]];
        unfold player_steady;
        cbn [set_input gridX gridY targetGridX targetGridY pixelX pixelY
             isMoving movingDirection moveProgress lastInputDirection
             inputHoldTime continuousMoveEnabled];
        (split; [exact Ht0 |]);
        (split; [exact (lerp_between _ _ _ He0 He1) |]);
        (split; [exact (lerp_between _ _ _ He0 He1) |]);
        (split; [discriminate |]);
        intros _; (split; [exact Htarget |]); intros Hne.
      * split; [reflexivity | lra].
      * destruct (Hlag Hne) as [Hc Hh].
        assert (MOVE_SPEED * (inputHoldTime p + dt) <= t)%Q as Hh'
          by (subst t; unfold MOVE_SPEED in *; lra).
        split; [| exact Hh'].
        destruct (Qle_bool INPUT_BUFFER_TIME (inputHoldTime p + dt)) eqn:E;
          [| exact Hc].
        apply Qle_bool_iff in E. unfold INPUT_BUFFER_TIME, MOVE_SPEED in *. lra.
      * split; [reflexivity | lra].
    + (* the move completes *)
      pose proof (updateMovement_arrives dt p Hm Hge)
        as (Hi & _ & Hgx & Hgy & Hpx & Hpy & Hprog).
      set (q := updateMovement dt p) in *.
      assert (targetGridX q = targetGridX p /\ targetGridY q = targetGridY p)
        as [Htx Hty].
      { subst q. unfold updateMovement. rewrite Hm. cbn [negb].
        apply Qle_bool_iff in Hge. rewrite Hge. split; reflexivity. }
      assert (player_steady q) as Hq.
      { unfold player_steady. rewrite Hi, Hgx, Hgy, Htx, Hty, Hpx, Hpy, Hprog.
        split; [lra |]. split; [apply Qbetween_end |].
        split; [apply Qbetween_end |].
        split; [intros _; split; reflexivity | discriminate]. }
      destruct Hq as (Q1 & Q2 & Q3 & Q4 & _).
      unfold updateInputTiming.
      destruct (d =? NONE); [| destruct (d =? lastInputDirection q)];
        unfold player_steady;
        cbn [set_input gridX gridY targetGridX targetGridY pixelX pixelY
             isMoving movingDirection moveProgress lastInputDirection
             inputHoldTime continuousMoveEnabled];
        (split; [exact Q1 |]); (split; [exact Q2 |]);
        (split; [exact Q3 |]); (split; [exact Q4 | congruence]).
  - rewrite (updateMovement_idle dt p Hm).
    unfold updateInputTiming.
    destruct (d =? NONE); [| destruct (d =? lastInputDirection p)];
      unfold player_steady;
      cbn [set_input gridX gridY targetGridX targetGridY pixelX pixelY
           isMoving movingDirection moveProgress lastInputDirection
           inputHoldTime continuousMoveEnabled];
      rewrite Hm; (split; [exact Hp |]); (split; [exact Hbx |]);
      (split; [exact Hby |]); (split; [exact Hidle | discriminate]).
Qed.

(** The second half: a start of a move that the frame accepts. *)
Lemma startMove_steady d r :
  player_steady r -> lastInputDirection r = d ->
  shouldAcceptInput r = true ->
  player_steady
    (startMove d (fst (getTargetFromDirection d (gridX r) (gridY r)))
                 (snd (getTargetFromDirection d (gridX r) (gridY r))) r) /\
  (isMoving r = true ->
   (targetGridX r, targetGridY r) =
     getTargetFromDirection (movingDirection r) (gridX r) (gridY r) ->
   movingDirection r = d /\
   getTargetFromDirection d (gridX r) (gridY r) = (targetGridX r, targetGridY r)).
Proof.
  intros (Hp & Hbx & Hby & Hidle & Hmov) Hlast Haccept.
  assert (isMoving r = true -> movingDirection r = d) as Hdir.
  { intros Hm. unfold shouldAcceptInput in Haccept. rewrite Hm in Haccept.
    cbn [negb orb] in Haccept.
    destruct (Z.eq_dec (lastInputDirection r) (movingDirection r)) as [E | E];
      [congruence |].
    destruct (proj2 (Hmov Hm) E) as [Hc _]. congruence. }
  split.
  - unfold player_steady.
    cbn [startMove gridX gridY targetGridX targetGridY pixelX pixelY isMoving
         movingDirection moveProgress lastInputDirection inputHoldTime
         continuousMoveEnabled].
    split; [lra |].
    assert ((pixelX r == cell_pixel (gridX r))%Q /\
            (pixelY r == cell_pixel (gridY r))%Q \/
            getTargetFromDirection d (gridX r) (gridY r) =
              (targetGridX r, targetGridY r)) as [[Hx Hy] | Hsame].
    { destruct (isMoving r) eqn:Hm.
      - destruct (proj1 (Hmov eq_refl)) as [Ht | [Htx Hty]].
        + right. rewrite <- (Hdir eq_refl). symmetry. exact Ht.
        + left. rewrite Htx in Hbx. rewrite Hty in Hby.
          split; apply Qbetween_same; assumption.
      - left. exact (Hidle eq_refl). }
    + split; [exact (Qbetween_refl _ _ Hx _) |].
      split; [exact (Qbetween_refl _ _ Hy _) |].
      split; [discriminate |]. intros _.
      split; [left; apply surjective_pairing | congruence].
    + rewrite Hsame. cbn [fst snd].
      split; [exact Hbx |]. split; [exact Hby |].
      split; [discriminate |]. intros _.
      split; [left; reflexivity | congruence].
  - intros Hm Ht. split; [exact (Hdir Hm) |].
    rewrite <- (Hdir Hm). symmetry. exact Ht.
Qed.

Lemma playing_frame_steady w p c d dt :
  wf_dungeon (dungeon w) -> player_steady p -> (0 <= dt)%Q ->
  exists p' c',
    playing_frame d dt (mkGame w p c) = Some (mkGame w p' c') /\
    player_steady p' /\
    c' = followPlayer (pixelX p') (pixelY p')
           (DUNGEON_WIDTH * TILE_SIZE) (DUNGEON_HEIGHT * TILE_SIZE) c.
Proof.
  intros Hwf Hsteady Hdt. unfold playing_frame. cbn [player world camera].
  destruct (timing_after_movement_steady d dt p Hsteady Hdt) as [Hr Hlast].
  set (r := updateInputTiming d dt (updateMovement dt p)) in *.
  destruct (Z.eqb_spec d NONE) as [Hn | Hn]; cbn [negb andb].
  - eexists _, _. split; [reflexivity |]. split; [exact Hr | reflexivity].
  - destruct (shouldAcceptInput r) eqn:Hacc.
    + pose proof (startMove_steady d r Hr (Hlast Hn) Hacc) as [Hstart _].
      destruct (getTargetFromDirection d (gridX r) (gridY r)) as [tx ty].
      cbn [fst snd] in Hstart.
      destruct (isWalkable_total w tx ty Hwf) as (b & -> & _).
      destruct b; eexists _, _;
        (split; [reflexivity |]); (split; [| reflexivity]); assumption.
    + eexists _, _. split; [reflexivity |]. split; [exact Hr | reflexivity].
Qed.

(** X15.  Over any frames with non-negative time deltas, whatever the
    directions read from the keyboard, the frame update keeps the motion
    state steady: in particular the pixel position of the player stays
    between the canonical positions of its current and its target cell on
    both axes, so the drawn player is never further from its cell than the
    neighbouring cell it heads for. *)
Theorem frames_keep_player_steady (w : World) (p : Player) (c : Camera)
  (frames : list (Direction * Q)) :
  wf_dungeon (dungeon w) -> player_steady p -> forward_frames frames ->
  exists g,
    run_frames frames (mkGame w p c) = Some g /\
    player_steady (player g) /\
    Qbetween (cell_pixel (gridX (player g)))
             (cell_pixel (targetGridX (player g))) (pixelX (player g)) /\
    Qbetween (cell_pixel (gridY (player g)))
             (cell_pixel (targetGridY (player g))) (pixelY (player g)).
Proof.
  intros Hwf. revert p c.
  induction frames as [| [d dt] frames IH]; intros p c Hsteady Hfw.
  - exists (mkGame w p c). split; [reflexivity |]. cbn [player].
    split; [exact Hsteady |]. split; apply Hsteady.
  - apply Forall_cons in Hfw as [Hdt Hfw]. cbn [snd] in Hdt.
    destruct (playing_frame_steady w p c d dt Hwf Hsteady Hdt)
      as (p' & c' & Hframe & Hsteady' & _).
    cbn [run_frames]. rewrite Hframe. exact (IH p' c' Hsteady' Hfw).
Qed.

Lemma moving_player_steady : player_steady moving_player.
Proof.
  unfold player_steady, moving_player.
  cbn [gridX gridY targetGridX targetGridY pixelX pixelY isMoving
       movingDirection moveProgress lastInputDirection inputHoldTime
       continuousMoveEnabled].
  split; [lra |].
  split; [left; vm_compute; split; discriminate |].
  split; [left; vm_compute; split; discriminate |].
  split; [discriminate |]. intros _.
  split; [left; reflexivity | intros H; contradiction H; reflexivity].
Qed.

Lemma frames_keep_player_steady_witness :
  exists g,
    run_frames [(RIGHT, 0.02%Q); (DOWN, 0.05%Q); (DOWN, 0.2%Q); (15, 0%Q)]
      (mkGame one_room_world moving_player newCamera) = Some g /\
    player_steady (player g) /\
    Qbetween (cell_pixel (gridX (player g)))
             (cell_pixel (targetGridX (player g))) (pixelX (player g)) /\
    Qbetween (cell_pixel (gridY (player g)))
             (cell_pixel (targetGridY (player g))) (pixelY (player g)).
Proof.
  apply (frames_keep_player_steady one_room_world moving_player newCamera).
  - exact wf_one_room_world.
  - exact moving_player_steady.
  - repeat constructor; cbn; lra.
Defined.



(** ** Rendering the game *)

Lemma trunc_int_ge z q : (inject_Z z <= q)%Q -> z <= trunc_int q.
Proof.
  unfold Qle, trunc_int. destruct q as [a d]. cbn [Qnum Qden inject_Z].
  intros H. Z.quot_rem_to_equations. nia.
Qed.

Lemma trunc_int_le z q : (q <= inject_Z z)%Q -> trunc_int q <= z.
Proof.
  unfold Qle, trunc_int. destruct q as [a d]. cbn [Qnum Qden inject_Z].
  intros H. Z.quot_rem_to_equations. nia.
Qed.

Lemma trunc_int_below q : (0 <= q)%Q -> (inject_Z (trunc_int q) <= q)%Q.
Proof.
  unfold Qle, trunc_int. destruct q as [a d]. cbn [Qnum Qden inject_Z].
  intros H. Z.quot_rem_to_equations. nia.
Qed.

Lemma trunc_int_above q : (q <= 0)%Q -> (q <= inject_Z (trunc_int q))%Q.
Proof.
  unfold Qle, trunc_int. destruct q as [a d]. cbn [Qnum Qden inject_Z].
  intros H. Z.quot_rem_to_equations. nia.
Qed.

Lemma trunc_int_near q :
  (inject_Z (trunc_int q) - 1 < q)%Q /\ (q < inject_Z (trunc_int q) + 1)%Q.
Proof.
  unfold Qlt, Qminus, Qplus, Qopp, trunc_int. destruct q as [a d].
  cbn [Qnum Qden inject_Z].
  split; Z.quot_rem_to_equations; nia.
Qed.

Lemma count_fills_app a b :
  count_fills (a ++ b) = (count_fills a + count_fills b)%nat.
Proof.
  induction a as [| call a IH]; [reflexivity |].
  destruct call; cbn [app count_fills]; rewrite IH; reflexivity.
Qed.

(** A collecting loop whose body, at every index of the range, returns
    without changing the world: the pieces satisfying [P] are all in the
    result, and their fills add up. *)
Lemma collect_loop_rule (P : Z -> list SDLCall -> Prop) (k : nat) body w n :
  forall i,
    (forall j, i <= j < i + Z.of_nat n ->
               exists piece, body j w = Some (piece, w) /\ P j piece /\
                             count_fills piece = k) ->
    exists calls,
      collect_loop n i body w = Some (calls, w) /\
      (forall j, i <= j < i + Z.of_nat n ->
                 exists piece, P j piece /\
                               forall call, call ∈ piece -> call ∈ calls) /\
      count_fills calls = (n * k)%nat.
Proof.
  induction n as [| n IH]; intros i Hbody.
  - exists []. split; [reflexivity |]. split; [intros j Hj; lia | reflexivity].
  - destruct (Hbody i ltac:(lia)) as (piece & Hrun & HP & Hk).
    destruct (IH (i + 1)) as (others & Hloop & Hin & Hcount).
    { intros j Hj. apply Hbody. lia. }
    exists (piece ++ others). split.
    + cbn [collect_loop]. unfold bind. rewrite Hrun, Hloop. reflexivity.
    + split.
      * intros j Hj. destruct (Z.eq_dec j i) as [-> | Hne].
        -- exists piece. split; [exact HP |].
           intros call Hcall. apply elem_of_app. left. exact Hcall.
        -- destruct (Hin j ltac:(lia)) as (part & HPj & Hsub).
           exists part. split; [exact HPj |].
           intros call Hcall. apply elem_of_app. right. exact (Hsub call Hcall).
      * rewrite count_fills_app, Hk, Hcount. cbn [Nat.mul]. reflexivity.
Qed.

Lemma draw_tile_spec c row col w :
  wf_dungeon (dungeon w) ->
  0 <= col < DUNGEON_WIDTH -> 0 <= row < DUNGEON_HEIGHT ->
  exists piece,
    draw_tile c row col w = Some (piece, w) /\
    RenderFillRect (tile_rect c row col) ∈ piece /\
    count_fills piece = 1%nat.
Proof.
  intros Hwf Hcol Hrow.
  destruct (cell_at_in_range _ _ _ Hwf Hcol Hrow) as [t Ht].
  unfold draw_tile, bind, get_cell, ret. cbv zeta.
  fold (tile_rect c row col).
  destruct t;
    repeat (rewrite Ht; cbn [tile_eqb tile_code Z.eqb Pos.eqb]);
    eexists; (split; [reflexivity |]);
    (split; [| reflexivity]); repeat constructor.
Qed.

(** The first and one-past-last column and row [renderGame] loops over. *)
Lemma renderGame_shape p c w :
  wf_dungeon (dungeon w) ->
  let startCol := Z.max 0 (Z.quot (trunc_int (cam_x c)) TILE_SIZE) in
  let endCol :=
    Z.min DUNGEON_WIDTH
      (Z.quot (trunc_int (cam_x c + inject_Z (cam_width c))) TILE_SIZE + 1) in
  let startRow := Z.max 0 (Z.quot (trunc_int (cam_y c)) TILE_SIZE) in
  let endRow :=
    Z.min DUNGEON_HEIGHT
      (Z.quot (trunc_int (cam_y c + inject_Z (cam_height c))) TILE_SIZE + 1) in
  let playerRect := mkRect (trunc_int (pixelX p - cam_x c))
                           (trunc_int (pixelY p - cam_y c))
                           PLAYER_SIZE PLAYER_SIZE in
  exists tiles,
    renderGame p c w =
      Some ([SetRenderDrawColor 10 10 10 255; RenderClear] ++ tiles ++
            [SetRenderDrawColor 255 200 50 255; RenderFillRect playerRect;
             SetRenderDrawColor 255 230 100 255; RenderDrawRect playerRect;
             RenderPresent], w) /\
    (forall row col, startRow <= row < endRow -> startCol <= col < endCol ->
                     RenderFillRect (tile_rect c row col) ∈ tiles) /\
    count_fills tiles =
      (Z.to_nat (endRow - startRow) * Z.to_nat (endCol - startCol))%nat.
Proof.
  intros Hwf. cbv zeta.
  set (startCol := Z.max 0 (Z.quot (trunc_int (cam_x c)) TILE_SIZE)).
  set (endCol := Z.min DUNGEON_WIDTH _).
  set (startRow := Z.max 0 (Z.quot (trunc_int (cam_y c)) TILE_SIZE)).
  set (endRow := Z.min DUNGEON_HEIGHT _).
  assert (0 <= startCol) as Hsc by (subst startCol; lia).
  assert (endCol <= DUNGEON_WIDTH) as Hec by (subst endCol; lia).
  assert (0 <= startRow) as Hsr by (subst startRow; lia).
  assert (endRow <= DUNGEON_HEIGHT) as Her by (subst endRow; lia).
  destruct (collect_loop_rule
              (fun row piece =>
                 forall col, startCol <= col < endCol ->
                             RenderFillRect (tile_rect c row col) ∈ piece)
              (Z.to_nat (endCol - startCol))
              (fun row => collect_range startCol endCol
                            (fun col => draw_tile c row col))
              w (Z.to_nat (endRow - startRow)) startRow)
    as (tiles & Hrun & Hin & Hcount).
  { intros row Hrow.
    destruct (collect_loop_rule
                (fun col piece => RenderFillRect (tile_rect c row col) ∈ piece)
                1%nat (fun col => draw_tile c row col) w
                (Z.to_nat (endCol - startCol)) startCol)
      as (piece & Hrow_run & Hrow_in & Hrow_count).
    { intros col Hcol. apply draw_tile_spec; [exact Hwf | lia | lia]. }
    exists piece. split; [exact Hrow_run |]. split.
    - intros col Hcol. destruct (Hrow_in col ltac:(lia)) as (part & Hp & Hsub).
      exact (Hsub _ Hp).
    - rewrite Hrow_count. lia. }
  exists tiles. split.
  - unfold renderGame. cbv zeta. fold startCol endCol startRow endRow.
    unfold bind, collect_range at 1. rewrite Hrun. reflexivity.
  - split; [| exact Hcount].
    intros row col Hrow Hcol.
    destruct (Hin row ltac:(lia)) as (part & Hp & Hsub).
    exact (Hsub _ (Hp col Hcol)).
Qed.

Lemma trunc_int_lt z q : 0 < z -> (q < inject_Z z)%Q -> trunc_int q < z.
Proof.
  unfold Qlt, trunc_int. destruct q as [a d]. cbn [Qnum Qden inject_Z].
  intros Hz H. Z.quot_rem_to_equations. nia.
Qed.

(** Truncation after adding a whole number loses at most one. *)
Lemma trunc_int_shift_ge q n :
  trunc_int q + n - 1 <= trunc_int (q + inject_Z n).
Proof.
  apply trunc_int_ge.
  destruct (trunc_int_near q) as [Hlow _].
  replace (trunc_int q + n - 1) with ((trunc_int q - 1) + n) by lia.
  rewrite inject_Z_plus, inject_Z_sub. change (inject_Z 1) with 1%Q. lra.
Qed.

Lemma trunc_int_shift_le q n :
  0 < n -> (0 <= q)%Q -> trunc_int (q + inject_Z n) <= trunc_int q + n.
Proof.
  intros Hn Hq.
  assert (0 <= trunc_int q) as Ht
    by (apply (trunc_int_ge 0 q); exact Hq).
  assert (trunc_int (q + inject_Z n) < trunc_int q + 1 + n); [| lia].
  apply trunc_int_lt; [lia |].
  destruct (trunc_int_near q) as [_ Hup].
  rewrite !inject_Z_plus. change (inject_Z 1) with 1%Q. lra.
Qed.

(** The number of columns (or rows) between the clamped loop bounds. *)
Lemma span_bound (t e limit k : Z) :
  0 <= k -> (t < 0 -> e < 40 * k) -> (0 <= t -> e <= t + 40 * k) ->
  Z.min limit (Z.quot e 40 + 1) - Z.max 0 (Z.quot t 40) <= k + 1.
Proof.
  intros Hk Hneg Hpos.
  pose proof (Z.quot_rem' e 40) as He. pose proof (Z.quot_rem' t 40) as Ht.
  assert (0 <= e -> 0 <= Z.rem e 40 < 40) as Hre1
    by (intros; apply Z.rem_bound_pos; lia).
  assert (e <= 0 -> -40 < Z.rem e 40 <= 0) as Hre2
    by (intros; apply (Z.rem_bound_pos_neg _ 40); lia).
  assert (0 <= t -> 0 <= Z.rem t 40 < 40) as Hrt1
    by (intros; apply Z.rem_bound_pos; lia).
  assert (t <= 0 -> -40 < Z.rem t 40 <= 0) as Hrt2
    by (intros; apply (Z.rem_bound_pos_neg _ 40); lia).
  set (qe := Z.quot e 40) in *. set (re := Z.rem e 40) in *.
  set (qt := Z.quot t 40) in *. set (rt := Z.rem t 40) in *.
  clearbody qe re qt rt.
  destruct (Z_le_gt_dec 0 t) as [H0 | H0];
    [specialize (Hpos H0); specialize (Hrt1 H0); clear Hneg Hrt2
    | specialize (Hneg ltac:(lia)); specialize (Hrt2 ltac:(lia));
      clear Hpos Hrt1];
    (destruct (Z_le_gt_dec 0 e) as [H1 | H1];
     [specialize (Hre1 H1); clear Hre2
     | specialize (Hre2 ltac:(lia)); clear Hre1]); lia.
Qed.

Lemma camera_span (x : Q) (limit k : Z) :
  0 < k ->
  Z.min limit (Z.quot (trunc_int (x + inject_Z (40 * k))) 40 + 1)
  - Z.max 0 (Z.quot (trunc_int x) 40) <= k + 1.
Proof.
  intros Hk. apply span_bound; [lia | |].
  - intros Ht. apply trunc_int_lt; [lia |].
    destruct (Qlt_le_dec x 0) as [Hneg | Hpos]; [lra |].
    pose proof (trunc_int_ge 0 x Hpos). lia.
  - intros Ht.
    destruct (Qlt_le_dec x 0) as [Hneg | Hpos].
    + pose proof (trunc_int_le 0 x (Qlt_le_weak _ _ Hneg)).
      assert (trunc_int (x + inject_Z (40 * k)) <= 40 * k); [| lia].
      apply trunc_int_le. lra.
    + apply trunc_int_shift_le; [lia | exact Hpos].
Qed.

(** X17.  [renderGame] reads the grid only inside its bounds: for a grid of
    the declared size it returns for every player and every camera,
    whatever the camera's position and size, and leaves the globals as
    they are; it clears the target first and presents it last. *)
Theorem renderGame_stays_in_bounds (w : World) (p : Player) (c : Camera) :
  wf_dungeon (dungeon w) ->
  exists calls,
    renderGame p c w =
      Some ([SetRenderDrawColor 10 10 10 255; RenderClear] ++ calls ++
            [RenderPresent], w).
Proof.
  intros Hwf.
  destruct (renderGame_shape p c w Hwf) as (tiles & Hrun & _).
  eexists (tiles ++ [_; _; _; _]). rewrite Hrun, <- (app_assoc tiles).
  reflexivity.
Qed.

Lemma renderGame_stays_in_bounds_witness :
  exists calls,
    renderGame moving_player (mkCamera (-1000) 5000 (-3) 100000) one_room_world =
      Some ([SetRenderDrawColor 10 10 10 255; RenderClear] ++ calls ++
            [RenderPresent], one_room_world).
Proof.
  apply (renderGame_stays_in_bounds one_room_world moving_player
           (mkCamera (-1000) 5000 (-3) 100000)).
  exact wf_one_room_world.
Defined.

(** X18.  With a camera of the window's size, at any position,
    [renderGame] fills the rectangle of every tile of the grid that shares
    a pixel with the window: the culling of the tile loops never drops a
    visible tile. *)
Theorem renderGame_fills_visible_tiles (w : World) (p : Player) (c : Camera) :
  wf_dungeon (dungeon w) -> screen_camera c ->
  exists calls,
    renderGame p c w = Some (calls, w) /\
    forall row col,
      0 <= col < DUNGEON_WIDTH -> 0 <= row < DUNGEON_HEIGHT ->
      rect_on_screen (tile_rect c row col) ->
      RenderFillRect (tile_rect c row col) ∈ calls.
Proof.
  intros Hwf [Hcw Hch].
  destruct (renderGame_shape p c w Hwf) as (tiles & Hrun & Hin & _).
  eexists. split; [exact Hrun |].
  intros row col Hcol Hrow (Hx1 & Hx2 & Hy1 & Hy2).
  apply elem_of_app. right. apply elem_of_app. left.
  unfold tile_rect in Hx1, Hx2, Hy1, Hy2.
  cbn [rect_x rect_y rect_w rect_h] in Hx1, Hx2, Hy1, Hy2.
  rewrite Hcw, Hch in Hin.
  pose proof (trunc_int_shift_ge (cam_x c) SCREEN_WIDTH) as Hex.
  pose proof (trunc_int_shift_ge (cam_y c) SCREEN_HEIGHT) as Hey.
  unfold TILE_SIZE, SCREEN_WIDTH, SCREEN_HEIGHT, DUNGEON_WIDTH, DUNGEON_HEIGHT
    in *.
  apply Hin; split;
    first [apply Z.max_lub | apply Z.min_glb_lt];
    Z.quot_rem_to_equations; lia.
Qed.

Lemma renderGame_fills_visible_tiles_witness :
  exists calls,
    renderGame moving_player newCamera one_room_world
    = Some (calls, one_room_world) /\
    forall row col,
      0 <= col < DUNGEON_WIDTH -> 0 <= row < DUNGEON_HEIGHT ->
      rect_on_screen (tile_rect newCamera row col) ->
      RenderFillRect (tile_rect newCamera row col) ∈ calls.
Proof.
  apply (renderGame_fills_visible_tiles one_room_world moving_player newCamera).
  - exact wf_one_room_world.
  - split; reflexivity.
Defined.

(** X19.  With a camera of the window's size, at any position,
    [renderGame] fills at most 22 x 17 tile rectangles and the player's,
    of the 1200 tiles of the grid.  (The window spans 21 x 16 tiles at
    most; the bound leaves room for the one column and the one row that
    the rounded float sums [camera.x + camera.width] and
    [camera.y + camera.height] can add.) *)
Theorem renderGame_culls (w : World) (p : Player) (c : Camera) :
  wf_dungeon (dungeon w) -> screen_camera c ->
  exists calls,
    renderGame p c w = Some (calls, w) /\
    (count_fills calls <= 22 * 17 + 1)%nat.
Proof.
  intros Hwf [Hcw Hch].
  destruct (renderGame_shape p c w Hwf) as (tiles & Hrun & _ & Hcount).
  eexists. split; [exact Hrun |].
  rewrite !count_fills_app, Hcount. cbn [count_fills]. rewrite Hcw, Hch.
  set (nr := Z.to_nat _). set (nc := Z.to_nat _).
  assert (nc <= 21)%nat as Hnc.
  { subst nc. pose proof (camera_span (cam_x c) DUNGEON_WIDTH 20 eq_refl).
    unfold TILE_SIZE, SCREEN_WIDTH. change (40 * 20) with 800 in *. lia. }
  assert (nr <= 16)%nat as Hnr.
  { subst nr. pose proof (camera_span (cam_y c) DUNGEON_HEIGHT 15 eq_refl).
    unfold TILE_SIZE, SCREEN_HEIGHT. change (40 * 15) with 600 in *. lia. }
  pose proof (Nat.mul_le_mono nr 16 nc 21 Hnr Hnc). lia.
Qed.

Lemma renderGame_culls_witness :
  exists calls,
    renderGame moving_player newCamera one_room_world
    = Some (calls, one_room_world) /\
    (count_fills calls <= 22 * 17 + 1)%nat.
Proof.
  apply (renderGame_culls one_room_world moving_player newCamera).
  - exact wf_one_room_world.
  - split; reflexivity.
Defined.

(** ** The player on the screen *)

Lemma passable_in_grid g x y :
  wf_dungeon g -> passable g (x, y) ->
  0 <= x < DUNGEON_WIDTH /\ 0 <= y < DUNGEON_HEIGHT.
Proof.
  intros Hwf [H | H]; exact (cell_at_Some_inv _ _ _ _ Hwf H).
Qed.

Lemma cell_pixel_le a b : a <= b -> (cell_pixel a <= cell_pixel b)%Q.
Proof.
  intros H. unfold cell_pixel. rewrite <- Zle_Qle. unfold TILE_SIZE. lia.
Qed.

Lemma Qbetween_range lo hi a b x :
  (lo <= a)%Q -> (a <= hi)%Q -> (lo <= b)%Q -> (b <= hi)%Q ->
  Qbetween a b x -> (lo <= x)%Q /\ (x <= hi)%Q.
Proof. intros ? ? ? ? [[? ?] | [? ?]]; split; lra. Qed.

(** A player on passable cells in a steady motion state is drawn over the
    grid. *)
Lemma player_pixel_range g p :
  wf_dungeon g -> player_safe g p -> player_steady p ->
  ((cell_pixel 0 <= pixelX p)%Q /\
   (pixelX p <= cell_pixel (DUNGEON_WIDTH - 1))%Q) /\
  ((cell_pixel 0 <= pixelY p)%Q /\
   (pixelY p <= cell_pixel (DUNGEON_HEIGHT - 1))%Q).
Proof.
  intros Hwf (Hg & Ht & _) (_ & Hbx & Hby & _).
  destruct (passable_in_grid _ _ _ Hwf Hg) as [Hgx Hgy].
  destruct (passable_in_grid _ _ _ Hwf Ht) as [Htx Hty].
  split.
  - apply (Qbetween_range _ _ _ _ _
             (cell_pixel_le 0 (gridX p) ltac:(lia))
             (cell_pixel_le (gridX p) (DUNGEON_WIDTH - 1) ltac:(lia))
             (cell_pixel_le 0 (targetGridX p) ltac:(lia))
             (cell_pixel_le (targetGridX p) (DUNGEON_WIDTH - 1) ltac:(lia))
             Hbx).
  - apply (Qbetween_range _ _ _ _ _
             (cell_pixel_le 0 (gridY p) ltac:(lia))
             (cell_pixel_le (gridY p) (DUNGEON_HEIGHT - 1) ltac:(lia))
             (cell_pixel_le 0 (targetGridY p) ltac:(lia))
             (cell_pixel_le (targetGridY p) (DUNGEON_HEIGHT - 1) ltac:(lia))
             Hby).
Qed.

(** One axis of the camera against the player's position: the player's
    rectangle keeps 5 pixels from either edge of the viewport. *)
Lemma clamp_axis_offset pos d v :
  40 <= v <= d ->
  (5 <= pos)%Q -> (pos <= inject_Z (d - 35))%Q ->
  (5 <= pos - clamp_axis pos d v)%Q /\
  (pos - clamp_axis pos d v <= inject_Z (v - 35))%Q.
Proof.
  intros Hv Hlo Hhi.
  pose proof (inject_Z_sub d v) as Edv.
  pose proof (inject_Z_sub d 35) as Ed35.
  pose proof (inject_Z_sub v 35) as Ev35.
  change (inject_Z 35) with 35%Q in *.
  assert (20 <= inject_Z (Z.quot v 2))%Q as Hh1.
  { change 20%Q with (inject_Z 20). rewrite <- Zle_Qle.
    pose proof (Z.quot_rem' v 2). pose proof (Z.rem_bound_pos v 2). lia. }
  assert (inject_Z (Z.quot v 2) + 20 <= inject_Z v)%Q as Hh2.
  { change 20%Q with (inject_Z 20). rewrite <- inject_Z_plus, <- Zle_Qle.
    pose proof (Z.quot_rem' v 2). pose proof (Z.rem_bound_pos v 2). lia. }
  assert (inject_Z v <= inject_Z d)%Q as Hvd by (rewrite <- Zle_Qle; lia).
  unfold clamp_axis, centered_offset. cbv zeta.
  change (inject_Z (Z.quot PLAYER_SIZE 2)) with 15%Q.
  set (h := inject_Z (Z.quot v 2)) in *.
  set (V := inject_Z v) in *. set (D := inject_Z d) in *.
  destruct (Qltb (pos + 15 - h) 0) eqn:Hlow.
  - apply Qltb_lt in Hlow.
    destruct (Qltb (inject_Z (d - v)) 0) eqn:Hhigh.
    + apply Qltb_lt in Hhigh. lra.
    + split; lra.
  - apply Qltb_ge in Hlow.
    destruct (Qltb (inject_Z (d - v)) (pos + 15 - h)) eqn:Hhigh.
    + apply Qltb_lt in Hhigh. split; lra.
    + apply Qltb_ge in Hhigh. split; lra.
Qed.

(** X20.  In every frame of the game, for a player on passable cells in a
    steady motion state and a camera of the window's size, the rectangle
    [renderGame] draws for the player after the frame's update has the
    player's size and lies inside the window, at least 5 pixels from each
    of its edges: the camera never lets the player leave the screen. *)
Theorem player_drawn_inside_window (w : World) (p : Player) (c : Camera)
  (d : Direction) (dt : Q) :
  wf_dungeon (dungeon w) -> player_safe (dungeon w) p -> player_steady p ->
  screen_camera c -> (0 <= dt)%Q ->
  exists g tiles rect,
    playing_frame d dt (mkGame w p c) = Some g /\
    renderGame (player g) (camera g) (world g) =
      Some ([SetRenderDrawColor 10 10 10 255; RenderClear] ++ tiles ++
            [SetRenderDrawColor 255 200 50 255; RenderFillRect rect;
             SetRenderDrawColor 255 230 100 255; RenderDrawRect rect;
             RenderPresent], world g) /\
    rect_w rect = PLAYER_SIZE /\ rect_h rect = PLAYER_SIZE /\
    5 <= rect_x rect /\ rect_x rect + rect_w rect <= SCREEN_WIDTH - 5 /\
    5 <= rect_y rect /\ rect_y rect + rect_h rect <= SCREEN_HEIGHT - 5.
Proof.
  intros Hwf Hsafe Hsteady [Hcw Hch] Hdt.
  destruct (playing_frame_steady w p c d dt Hwf Hsteady Hdt)
    as (p' & c' & Hframe & Hsteady' & Hcam).
  destruct (playing_frame_safe w p c d dt Hwf Hsafe)
    as (p2 & c2 & Hframe2 & Hsafe').
  rewrite Hframe in Hframe2. injection Hframe2 as <- <-.
  destruct (renderGame_shape p' c' w Hwf) as (tiles & Hrun & _).
  cbv zeta in Hrun.
  eexists _, tiles, _. split; [exact Hframe |]. cbn [player camera world].
  split; [exact Hrun |]. cbn [rect_x rect_y rect_w rect_h].
  split; [reflexivity |]. split; [reflexivity |].
  destruct (player_pixel_range _ _ Hwf Hsafe' Hsteady') as [[Hx1 Hx2] [Hy1 Hy2]].
  rewrite followPlayer_axes, Hcw, Hch in Hcam. subst c'. cbn [cam_x cam_y].
  change (cell_pixel 0) with 5%Q in Hx1, Hy1.
  destruct (clamp_axis_offset (pixelX p') (DUNGEON_WIDTH * TILE_SIZE)
              SCREEN_WIDTH ltac:(vm_compute; split; discriminate) Hx1 Hx2)
    as [Hox1 Hox2].
  destruct (clamp_axis_offset (pixelY p') (DUNGEON_HEIGHT * TILE_SIZE)
              SCREEN_HEIGHT ltac:(vm_compute; split; discriminate) Hy1 Hy2)
    as [Hoy1 Hoy2].
  pose proof (trunc_int_ge 5 _ Hox1). pose proof (trunc_int_le _ _ Hox2).
  pose proof (trunc_int_ge 5 _ Hoy1). pose proof (trunc_int_le _ _ Hoy2).
  unfold PLAYER_SIZE, SCREEN_WIDTH, SCREEN_HEIGHT in *. lia.
Qed.

Lemma player_drawn_inside_window_witness :
  exists g tiles rect,
    playing_frame RIGHT 0.02
      (mkGame one_room_world (setGridPosition 1 1 moving_player) newCamera)
    = Some g /\
    renderGame (player g) (camera g) (world g) =
      Some ([SetRenderDrawColor 10 10 10 255; RenderClear] ++ tiles ++
            [SetRenderDrawColor 255 200 50 255; RenderFillRect rect;
             SetRenderDrawColor 255 230 100 255; RenderDrawRect rect;
             RenderPresent], world g) /\
    rect_w rect = PLAYER_SIZE /\ rect_h rect = PLAYER_SIZE /\
    5 <= rect_x rect /\ rect_x rect + rect_w rect <= SCREEN_WIDTH - 5 /\
    5 <= rect_y rect /\ rect_y rect + rect_h rect <= SCREEN_HEIGHT - 5.
Proof.
  apply (player_drawn_inside_window one_room_world
           (setGridPosition 1 1 moving_player) newCamera RIGHT 0.02).
  - exact wf_one_room_world.
  - apply setGridPosition_safe. left. vm_compute. reflexivity.
  - apply setGridPosition_steady. exact moving_player_steady.
  - split; reflexivity.
  - lra.
Defined.

(** ** The main loop *)

Lemma steps_ret m out (post : Main -> list Output -> Prop) :
  post m out -> steps_to (Some (m, out)) post.
Proof. intros H. exists m, out. split; [reflexivity | exact H]. Qed.

Lemma steps_and_then r k (mid post : Main -> list Output -> Prop) :
  steps_to r mid ->
  (forall m out, mid m out ->
                 steps_to (k m) (fun m' out' => post m' (out ++ out'))) ->
  steps_to (r >>> k) post.
Proof.
  intros (m & out & -> & Hmid) Hk.
  destruct (Hk m out Hmid) as (m' & out' & Hrun & Hpost).
  exists m', (out ++ out'). split; [| exact Hpost].
  unfold and_then. rewrite Hrun. reflexivity.
Qed.

Lemma steps_weaken r (post post' : Main -> list Output -> Prop) :
  steps_to r post -> (forall m out, post m out -> post' m out) ->
  steps_to r post'.
Proof.
  intros (m & out & Hrun & Hpost) Himp. exists m, out.
  split; [exact Hrun | exact (Himp m out Hpost)].
Qed.

(** *** Time *)

Lemma frame_delta_nonneg currentTime lastTime :
  (0 <= frame_delta currentTime lastTime)%Q.
Proof.
  unfold frame_delta.
  pose proof (Z.mod_pos_bound (currentTime - lastTime) (2 ^ 32) eq_refl) as [H _].
  apply Qle_shift_div_l; [reflexivity |].
  rewrite Qmult_0_l. change 0%Q with (inject_Z 0). rewrite <- Zle_Qle. exact H.
Qed.

(** X21.  The frame's time delta depends only on the ticks elapsed
    between the two readings of the tick counter, counted modulo 2^32: it is
    never negative, it is 0 exactly when no tick has elapsed, it does not
    shrink when more ticks have elapsed, and when the counter has wrapped
    once between the readings it is the delta of the ticks that have really
    elapsed, not a negative or a huge value. *)
Theorem frame_delta_survives_wrap (currentTime lastTime : Z) :
  (0 <= frame_delta currentTime lastTime)%Q /\
  frame_delta currentTime lastTime
  = frame_delta ((currentTime - lastTime) mod 2 ^ 32) 0 /\
  ((frame_delta currentTime lastTime == 0)%Q <->
   (currentTime - lastTime) mod 2 ^ 32 = 0) /\
  (forall elapsed elapsed',
     0 <= elapsed <= elapsed' -> elapsed' < 2 ^ 32 ->
     (frame_delta elapsed 0 <= frame_delta elapsed' 0)%Q) /\
  (0 <= currentTime < lastTime -> lastTime < 2 ^ 32 ->
   frame_delta currentTime lastTime
   = frame_delta (2 ^ 32 - lastTime + currentTime) 0).
Proof.
  split; [apply frame_delta_nonneg |].
  split; [| split; [| split]].
  - unfold frame_delta. rewrite Z.sub_0_r, Z.mod_mod by discriminate.
    reflexivity.
  - unfold frame_delta. set (e := (currentTime - lastTime) mod 2 ^ 32).
    split.
    + intros H. unfold Qeq in H. cbn in H. lia.
    + intros ->. reflexivity.
  - intros e e' He He'. unfold frame_delta. rewrite !Z.sub_0_r.
    rewrite !Z.mod_small by lia.
    apply Qmult_le_compat_r; [| discriminate].
    rewrite <- Zle_Qle. lia.
  - intros H1 H2. unfold frame_delta. rewrite Z.sub_0_r.
    replace (currentTime - lastTime)
      with (2 ^ 32 - lastTime + currentTime + (-1) * 2 ^ 32) by lia.
    rewrite Z.mod_add by discriminate. reflexivity.
Qed.

(** *** Menus *)

Lemma hover_and_draw_buttons x y buttons :
  fst (hover_and_draw x y buttons) =
  map (fun b => mkButton (button_rect b) (button_text b)
                         (isPointInRect x y (button_rect b))) buttons.
Proof.
  induction buttons as [| b rest IH]; [reflexivity |].
  cbn [hover_and_draw map].
  destruct (hover_and_draw x y rest) as [rest' calls]. cbn [fst] in *.
  rewrite IH. reflexivity.
Qed.

Lemma renderMainMenu_buttons buttons x y :
  fst (renderMainMenu buttons x y) = fst (hover_and_draw x y buttons).
Proof.
  unfold renderMainMenu. destruct (hover_and_draw x y buttons). reflexivity.
Qed.

Lemma renderPauseMenu_buttons buttons x y :
  fst (renderPauseMenu buttons x y) = fst (hover_and_draw x y buttons).
Proof.
  unfold renderPauseMenu. destruct (hover_and_draw x y buttons). reflexivity.
Qed.

Lemma hovered_buttons_rects x y buttons :
  map button_rect (fst (hover_and_draw x y buttons)) = map button_rect buttons.
Proof.
  rewrite hover_and_draw_buttons, map_map. reflexivity.
Qed.

Lemma hovered_buttons_lookup x y buttons i b :
  fst (hover_and_draw x y buttons) !! i = Some b ->
  map button_rect buttons !! i = Some (button_rect b) /\
  hovered b = isPointInRect x y (button_rect b).
Proof.
  rewrite hover_and_draw_buttons. intros H.
  apply list_lookup_fmap_Some in H as (b0 & -> & H0).
  cbn [button_rect hovered]. split; [| reflexivity].
  change (map button_rect buttons) with (button_rect <$> buttons).
  rewrite list_lookup_fmap, H0. reflexivity.
Qed.

(** No point lies in two rectangles of a menu, edges included. *)
Lemma menu_rects_exclusive rects x y i j ri rj :
  rects = main_menu_rects \/ rects = pause_menu_rects ->
  rects !! i = Some ri -> rects !! j = Some rj ->
  isPointInRect x y ri = true -> isPointInRect x y rj = true -> i = j.
Proof.
  intros [-> | ->] Hi Hj Hpi Hpj;
    destruct i as [| [| [| i]]]; try discriminate Hi;
    destruct j as [| [| [| j]]]; try discriminate Hj;
    try reflexivity; exfalso;
    vm_compute in Hi, Hj;
    injection Hi as <-; injection Hj as <-;
    unfold isPointInRect in Hpi, Hpj;
    cbn [rect_x rect_y rect_w rect_h] in Hpi, Hpj;
    revert Hpi Hpj; zcases.
Qed.

Lemma hover_and_draw_exclusive x y buttons :
  map button_rect buttons = main_menu_rects \/
  map button_rect buttons = pause_menu_rects ->
  one_hovered_at_most (fst (hover_and_draw x y buttons)).
Proof.
  intros Hrects i j bi bj Hi Hj Hhi Hhj.
  apply hovered_buttons_lookup in Hi as [Hri Hi'].
  apply hovered_buttons_lookup in Hj as [Hrj Hj'].
  rewrite Hi' in Hhi. rewrite Hj' in Hhj.
  exact (menu_rects_exclusive _ x y i j _ _ Hrects Hri Hrj Hhi Hhj).
Qed.

(** *** A new dungeon *)

Lemma new_dungeon_spec m :
  wf_dungeon (dungeon (world (game m))) ->
  exists w first rest,
    generateDungeon (world (game m)) = Some (tt, w) /\
    new_dungeon m =
      Some (set_gameState PLAYING
              (set_game (mkGame w
                           (setGridPosition (room_centerX first)
                              (room_centerY first) (player (game m)))
                           (camera (game m))) m), []) /\
    gen_inv_more w /\ rooms w = first :: rest /\
    cell_at (dungeon w) (room_centerX first) (room_centerY first) = Some FLOOR.
Proof.
  intros Hwf.
  destruct (generateDungeon_more _ Hwf) as ([] & w & Hrun & Hmore & Hrooms).
  destruct (rooms w) as [| first rest] eqn:Hrs; [contradiction |].
  exists w, first, rest. split; [exact Hrun |].
  split; [unfold new_dungeon; rewrite Hrun, Hrs; reflexivity |].
  split; [exact Hmore |]. split; [exact Hrs |].
  destruct Hmore as (Hinv & _).
  assert (first ∈ rooms w) as Hin by (rewrite Hrs; left).
  apply (inv_floor _ _ Hinv first); [exact Hin |].
  apply center_in_room.
  pose proof (inv_fits _ _ Hinv) as Hfits.
  rewrite Forall_forall in Hfits. exact (Hfits first Hin).
Qed.

Lemma new_dungeon_inv m :
  main_inv m ->
  steps_to (new_dungeon m)
    (fun m' out => main_inv m' /\ dungeon_ready (game m') /\
                   gameState m' = PLAYING /\ out = []).
Proof.
  intros (Hwf & Hcam & Hmr & Hpr & Hmh & Hph & Hq & Hstage).
  destruct (new_dungeon_spec m Hwf)
    as (w & first & rest & _ & Hrun & Hmore & Hrs & Hfloor).
  rewrite Hrun. apply steps_ret.
  assert (dungeon_ready
            (mkGame w (setGridPosition (room_centerX first) (room_centerY first)
                         (player (game m))) (camera (game m)))) as Hready.
  { unfold dungeon_ready. cbn [world player].
    split; [exact Hmore |]. split; [rewrite Hrs; discriminate |].
    split; [apply setGridPosition_safe; left; exact Hfloor |].
    destruct Hstage as [[_ ->] | (_ & _ & _ & Hsteady)].
    - apply setGridPosition_newPlayer_steady.
    - apply setGridPosition_steady. exact Hsteady. }
  split; [| split; [exact Hready | split; reflexivity]].
  unfold main_inv.
  cbn [set_gameState set_game game world player camera mainMenuButtons
       pauseMenuButtons gameState].
  split; [exact (inv_wf _ _ (proj1 Hmore)) |].
  split; [exact Hcam |]. split; [exact Hmr |]. split; [exact Hpr |].
  split; [exact Hmh |]. split; [exact Hph |].
  split; [discriminate | right; exact Hready].
Qed.

(** X22.  Start Dungeon and New Dungeon always spawn the player: the
    generator returns with at least one room, the player is put on the
    centre cell of the first room, which is Floor, with its pixel position
    on that cell, and the state becomes PLAYING; the camera is left where
    it was. *)
Theorem new_dungeon_spawns_on_floor (m : Main) :
  wf_dungeon (dungeon (world (game m))) ->
  exists m' first rest,
    new_dungeon m = Some (m', []) /\
    gameState m' = PLAYING /\
    rooms (world (game m')) = first :: rest /\
    gridX (player (game m')) = room_centerX first /\
    gridY (player (game m')) = room_centerY first /\
    pixelX (player (game m')) = cell_pixel (room_centerX first) /\
    pixelY (player (game m')) = cell_pixel (room_centerY first) /\
    cell_at (dungeon (world (game m')))
            (gridX (player (game m'))) (gridY (player (game m')))
    = Some FLOOR /\
    camera (game m') = camera (game m).
Proof.
  intros Hwf.
  destruct (new_dungeon_spec m Hwf)
    as (w & first & rest & _ & Hrun & _ & Hrs & Hfloor).
  eexists _, first, rest. split; [exact Hrun |].
  cbn [set_gameState set_game game world player camera gameState
       setGridPosition gridX gridY pixelX pixelY].
  repeat split; assumption.
Qed.

Lemma new_dungeon_spawns_on_floor_witness :
  exists m' first rest,
    new_dungeon (main_start sample_tape 0) = Some (m', []) /\
    gameState m' = PLAYING /\
    rooms (world (game m')) = first :: rest /\
    gridX (player (game m')) = room_centerX first /\
    gridY (player (game m')) = room_centerY first /\
    pixelX (player (game m')) = cell_pixel (room_centerX first) /\
    pixelY (player (game m')) = cell_pixel (room_centerY first) /\
    cell_at (dungeon (world (game m')))
            (gridX (player (game m'))) (gridY (player (game m')))
    = Some FLOOR /\
    camera (game m') = camera (game (main_start sample_tape 0)).
Proof.
  apply (new_dungeon_spawns_on_floor (main_start sample_tape 0)).
  split; [reflexivity |]. cbn [main_start game world zero_world dungeon].
  apply Forall_forall. intros row Hrow.
  apply elem_of_replicate in Hrow as [-> _]. apply length_replicate.
Defined.

(** *** Events *)

Lemma main_inv_ready m :
  main_inv m -> gameState m <> MAIN_MENU -> dungeon_ready (game m).
Proof.
  intros (_ & _ & _ & _ & _ & _ & _ & [[Hs _] | Hready]) Hne;
    [contradiction | exact Hready].
Qed.

(** The invariant does not depend on [running], the mouse and [lastTime]. *)
Lemma main_inv_set_running b m : main_inv m -> main_inv (set_running b m).
Proof. intros H. exact H. Qed.

Lemma main_inv_set_mouse x y m : main_inv m -> main_inv (set_mouse x y m).
Proof. intros H. exact H. Qed.

Lemma main_inv_set_lastTime t m : main_inv m -> main_inv (set_lastTime t m).
Proof. intros H. exact H. Qed.

Lemma main_inv_set_gameState s m :
  main_inv m -> dungeon_ready (game m) -> s <> QUIT ->
  main_inv (set_gameState s m).
Proof.
  intros (Hwf & Hcam & Hmr & Hpr & Hmh & Hph & _ & _) Hready Hs.
  unfold main_inv.
  cbn [set_gameState game mainMenuButtons pauseMenuButtons gameState].
  split; [exact Hwf |]. split; [exact Hcam |]. split; [exact Hmr |].
  split; [exact Hpr |]. split; [exact Hmh |]. split; [exact Hph |].
  split; [exact Hs | right; exact Hready].
Qed.

Lemma main_menu_action_inv i m :
  main_inv m ->
  steps_to (main_menu_action i m) (fun m' _ => main_inv m').
Proof.
  intros Hinv. unfold main_menu_action.
  destruct (i =? 0).
  { eapply steps_weaken; [exact (new_dungeon_inv m Hinv) |].
    intros m' out (H & _). exact H. }
  destruct (i =? 1); [apply steps_ret; exact Hinv |].
  destruct (i =? 2); apply steps_ret; exact Hinv.
Qed.

Lemma pause_menu_action_inv i m :
  main_inv m /\ dungeon_ready (game m) ->
  steps_to (pause_menu_action i m)
    (fun m' _ => main_inv m' /\ dungeon_ready (game m')).
Proof.
  intros [Hinv Hready]. unfold pause_menu_action.
  destruct (i =? 0).
  { apply steps_ret. split; [| exact Hready].
    apply main_inv_set_gameState; [exact Hinv | exact Hready | discriminate]. }
  destruct (i =? 1).
  { eapply steps_weaken; [exact (new_dungeon_inv m Hinv) |].
    intros m' out (H1 & H2 & _). split; assumption. }
  destruct (i =? 2).
  { apply steps_ret. split; [| exact Hready].
    apply main_inv_set_gameState; [exact Hinv | exact Hready | discriminate]. }
  apply steps_ret. split; assumption.
Qed.

Lemma click_loop_inv (I : Main -> Prop) action buttons :
  (forall i m, I m -> steps_to (action i m) (fun m' _ => I m')) ->
  forall i m, I m ->
    steps_to (click_loop action i buttons m) (fun m' _ => I m').
Proof.
  intros Haction. induction buttons as [| b rest IH]; intros i m Hm.
  - apply steps_ret. exact Hm.
  - cbn [click_loop].
    eapply steps_and_then with (mid := fun m' _ => I m').
    + destruct (hovered b); [apply Haction; exact Hm | apply steps_ret; exact Hm].
    + intros m1 out1 Hm1. exact (IH (i + 1) m1 Hm1).
Qed.

Lemma handle_event_inv event m :
  main_inv m -> steps_to (handle_event event m) (fun m' _ => main_inv m').
Proof.
  intros Hinv. unfold handle_event.
  destruct event as [| x y | [] | [] |];
    try (apply steps_ret; exact Hinv).
  - destruct (gameState m) eqn:Hs; try (apply steps_ret; exact Hinv).
    + apply (click_loop_inv main_inv); [| exact Hinv].
      intros i m0. apply main_menu_action_inv.
    + eapply steps_weaken.
      * apply (click_loop_inv (fun m' => main_inv m' /\ dungeon_ready (game m'))).
        -- intros i m0. apply pause_menu_action_inv.
        -- split; [exact Hinv |]. apply main_inv_ready; [exact Hinv |].
           rewrite Hs. discriminate.
      * intros m' out [H _]. exact H.
  - destruct (gameState m) eqn:Hs; apply steps_ret; try exact Hinv;
      (apply main_inv_set_gameState;
       [exact Hinv
       | apply main_inv_ready; [exact Hinv | rewrite Hs; discriminate]
       | discriminate]).
Qed.

Lemma poll_events_inv events m :
  main_inv m -> steps_to (poll_events events m) (fun m' _ => main_inv m').
Proof.
  revert m. induction events as [| event rest IH]; intros m Hinv.
  - apply steps_ret. exact Hinv.
  - cbn [poll_events].
    eapply steps_and_then; [exact (handle_event_inv event m Hinv) |].
    intros m1 out1 Hm1. exact (IH m1 Hm1).
Qed.

(** *** Update and rendering *)

Lemma followPlayer_screen_camera px py dW dH c :
  screen_camera c -> screen_camera (followPlayer px py dW dH c).
Proof. intros H. exact H. Qed.

Lemma update_playing_inv keys dt m :
  main_inv m -> (0 <= dt)%Q ->
  steps_to (update_playing keys dt m) (fun m' _ => main_inv m').
Proof.
  intros Hinv Hdt. unfold update_playing.
  destruct (gameState m) eqn:Hs; try (apply steps_ret; exact Hinv).
  pose proof (main_inv_ready m Hinv ltac:(rewrite Hs; discriminate))
    as (Hmore & Hrooms & Hsafe & Hsteady).
  destruct Hinv as (Hwf & Hcam & Hmr & Hpr & Hmh & Hph & Hq & _).
  destruct (game m) as [w p c] eqn:Hg. cbn [world player camera] in *.
  destruct (playing_frame_steady w p c (getDirectionFromInput keys) dt
              Hwf Hsteady Hdt) as (p' & c' & Hframe & Hsteady' & Hc').
  destruct (playing_frame_safe w p c (getDirectionFromInput keys) dt Hwf Hsafe)
    as (p2 & c2 & Hframe2 & Hsafe').
  rewrite Hframe in Hframe2. injection Hframe2 as <- <-.
  rewrite Hframe. apply steps_ret. unfold main_inv.
  cbn [set_game game world player camera mainMenuButtons pauseMenuButtons
       gameState].
  split; [exact Hwf |].
  split; [rewrite Hc'; apply followPlayer_screen_camera; exact Hcam |].
  split; [exact Hmr |]. split; [exact Hpr |]. split; [exact Hmh |].
  split; [exact Hph |]. split; [exact Hq |]. right.
  unfold dungeon_ready. cbn [world player].
  split; [exact Hmore |]. split; [exact Hrooms |]. split; assumption.
Qed.

Lemma render_game_inv m :
  main_inv m -> steps_to (render_game m) (fun m' _ => m' = m).
Proof.
  intros (Hwf & _). unfold render_game.
  destruct (renderGame_shape (player (game m)) (camera (game m))
              (world (game m)) Hwf) as (tiles & -> & _).
  apply steps_ret. reflexivity.
Qed.

Lemma render_inv m :
  main_inv m -> steps_to (render m) (fun m' _ => main_inv m').
Proof.
  intros Hinv. unfold render.
  destruct (gameState m) eqn:Hs.
  - pose proof (renderMainMenu_buttons (mainMenuButtons m) (mouseX m) (mouseY m))
      as Hb.
    destruct (renderMainMenu _ _ _) as [buttons calls]. cbn [fst] in Hb.
    apply steps_ret.
    destruct Hinv as (Hwf & Hcam & Hmr & Hpr & Hmh & Hph & Hq & Hstage).
    unfold main_inv.
    cbn [set_mainMenuButtons game mainMenuButtons pauseMenuButtons gameState].
    split; [exact Hwf |]. split; [exact Hcam |].
    split; [rewrite Hb, hovered_buttons_rects; exact Hmr |].
    split; [exact Hpr |].
    split; [rewrite Hb; apply hover_and_draw_exclusive; left; exact Hmr |].
    split; [exact Hph |]. split; [exact Hq | exact Hstage].
  - eapply steps_weaken; [exact (render_game_inv m Hinv) |].
    intros m' out ->. exact Hinv.
  - eapply steps_and_then; [exact (render_game_inv m Hinv) |].
    intros m' out ->.
    pose proof (renderPauseMenu_buttons (pauseMenuButtons m) (mouseX m)
                  (mouseY m)) as Hb.
    destruct (renderPauseMenu _ _ _) as [buttons calls]. cbn [fst] in Hb.
    apply steps_ret.
    destruct Hinv as (Hwf & Hcam & Hmr & Hpr & Hmh & Hph & Hq & Hstage).
    unfold main_inv.
    cbn [set_pauseMenuButtons game mainMenuButtons pauseMenuButtons gameState].
    split; [exact Hwf |]. split; [exact Hcam |]. split; [exact Hmr |].
    split; [rewrite Hb, hovered_buttons_rects; exact Hpr |].
    split; [exact Hmh |].
    split; [rewrite Hb; apply hover_and_draw_exclusive; right; exact Hpr |].
    split; [exact Hq | exact Hstage].
  - apply steps_ret. exact Hinv.
Qed.

Lemma main_iteration_inv input m :
  main_inv m -> steps_to (main_iteration input m) (fun m' _ => main_inv m').
Proof.
  intros Hinv. unfold main_iteration. cbv zeta.
  eapply steps_and_then.
  { apply poll_events_inv. apply main_inv_set_lastTime. exact Hinv. }
  intros m1 out1 Hm1. cbv beta.
  eapply steps_and_then.
  { apply update_playing_inv; [exact Hm1 | apply frame_delta_nonneg]. }
  intros m2 out2 Hm2. cbv beta.
  eapply steps_and_then; [exact (render_inv m2 Hm2) |].
  intros m3 out3 Hm3. cbv beta. apply steps_ret. exact Hm3.
Qed.

Lemma main_loop_inv inputs m :
  main_inv m -> steps_to (main_loop inputs m) (fun m' _ => main_inv m').
Proof.
  revert m. induction inputs as [| input rest IH]; intros m Hinv.
  - cbn [main_loop]. destruct (running m); apply steps_ret; exact Hinv.
  - cbn [main_loop]. destruct (running m); [| apply steps_ret; exact Hinv].
    eapply steps_and_then; [exact (main_iteration_inv input m Hinv) |].
    intros m1 out1 Hm1. exact (IH m1 Hm1).
Qed.

Lemma main_start_inv tape startTicks : main_inv (main_start tape startTicks).
Proof.
  unfold main_inv.
  cbn [main_start game world player camera mainMenuButtons pauseMenuButtons
       gameState zero_world dungeon].
  split.
  { split; [apply length_replicate |].
    apply Forall_forall. intros row Hrow.
    apply elem_of_replicate in Hrow as [-> _]. apply length_replicate. }
  split; [split; reflexivity |].
  split; [reflexivity |]. split; [reflexivity |].
  split; [intros [| [| [| i]]] j bi bj Hi Hj Hhi; try discriminate Hi;
          injection Hi as <-; discriminate Hhi |].
  split; [intros [| [| [| i]]] j bi bj Hi Hj Hhi; try discriminate Hi;
          injection Hi as <-; discriminate Hhi |].
  split; [discriminate | left; split; reflexivity].
Qed.

(** X23.  Whatever [rand()] yields and whatever ticks, events and keyboard
    states the iterations bring, [main] never reads or writes outside the
    grid: every iteration returns.  At any point of the run the grid has
    its declared size, the state is never QUIT, at most one button of each
    menu carries the hover flag, and as soon as the state is PLAYING or
    PAUSED the dungeon is a generated one (walled in, every passable cell
    linked to a room centre) and the player stands on a passable cell of
    it, heading for a passable cell next to it, its pixel position between
    the two. *)
Theorem main_never_faults (tape : nat -> N) (startTicks : Z)
  (inputs : list FrameInput) :
  exists m out,
    main_loop inputs (main_start tape startTicks) = Some (m, out) /\
    main_inv m /\
    (gameState m = PLAYING \/ gameState m = PAUSED -> dungeon_ready (game m)).
Proof.
  destruct (main_loop_inv inputs _ (main_start_inv tape startTicks))
    as (m & out & Hrun & Hinv).
  exists m, out. split; [exact Hrun |]. split; [exact Hinv |].
  intros Hs. apply main_inv_ready; [exact Hinv |].
  destruct Hs as [-> | ->]; discriminate.
Qed.

(** *** Iterations outside the game *)

Lemma handle_event_idle event m :
  idle_event event ->
  steps_to (handle_event event m)
    (fun m' _ => game m' = game m /\ gameState m' = gameState m /\
                 lastTime m' = lastTime m /\
                 mainMenuButtons m' = mainMenuButtons m /\
                 pauseMenuButtons m' = pauseMenuButtons m).
Proof.
  intros [Hclick Hkey]. unfold handle_event.
  destruct event as [| x y | [] | [] |]; try contradiction;
    apply steps_ret; repeat split.
Qed.

Lemma poll_events_idle events m :
  Forall idle_event events ->
  steps_to (poll_events events m)
    (fun m' _ => game m' = game m /\ gameState m' = gameState m /\
                 lastTime m' = lastTime m /\
                 mainMenuButtons m' = mainMenuButtons m /\
                 pauseMenuButtons m' = pauseMenuButtons m).
Proof.
  revert m. induction events as [| event rest IH]; intros m Hidle.
  - apply steps_ret. repeat split.
  - apply Forall_cons in Hidle as [He Hrest]. cbn [poll_events].
    eapply steps_and_then; [exact (handle_event_idle event m He) |].
    intros m1 out1 (Hg & Hs & Ht & Hb1 & Hb2). cbv beta.
    eapply steps_weaken; [exact (IH m1 Hrest) |].
    intros m2 out2 (Hg2 & Hs2 & Ht2 & Hb3 & Hb4).
    repeat split; congruence.
Qed.

(** X24.  An iteration that starts outside PLAYING and whose events hold no
    left click and no Escape leaves the world, the player and the camera
    untouched and stays in its state, whatever the keyboard state and the
    ticks; only [lastTime] follows the tick counter, so the time spent in a
    menu is never counted as a frame's delta later. *)
Theorem idle_iteration_freezes_game (m : Main) (input : FrameInput) :
  wf_dungeon (dungeon (world (game m))) ->
  gameState m <> PLAYING -> Forall idle_event (events input) ->
  exists m' out,
    main_iteration input m = Some (m', out) /\
    game m' = game m /\ gameState m' = gameState m /\
    lastTime m' = ticks input.
Proof.
  intros Hwf Hstate Hidle. unfold main_iteration. cbv zeta.
  eapply steps_and_then.
  { exact (poll_events_idle (events input) _ Hidle). }
  intros m1 out1 (Hg1 & Hs1 & Ht1 & _). cbv beta.
  cbn [set_lastTime game gameState lastTime] in Hg1, Hs1, Ht1.
  eapply steps_and_then
    with (mid := fun m' _ => m' = m1).
  { unfold update_playing. rewrite Hs1.
    destruct (gameState m); try contradiction; apply steps_ret; reflexivity. }
  intros m2 out2 ->. cbv beta.
  eapply steps_and_then
    with (mid := fun m' _ => game m' = game m1 /\ gameState m' = gameState m1 /\
                             lastTime m' = lastTime m1).
  { unfold render. destruct (gameState m1) eqn:Hs.
    - destruct (renderMainMenu _ _ _) as [buttons calls].
      apply steps_ret. cbn [set_mainMenuButtons game gameState lastTime].
      repeat split. exact Hs.
    - congruence.
    - unfold render_game.
      destruct (renderGame_shape (player (game m1)) (camera (game m1))
                  (world (game m1)) ltac:(rewrite Hg1; exact Hwf))
        as (tiles & -> & _).
      cbn [and_then]. destruct (renderPauseMenu _ _ _) as [buttons calls].
      apply steps_ret. cbn [set_pauseMenuButtons game gameState lastTime].
      repeat split. exact Hs.
    - apply steps_ret. repeat split. exact Hs. }
  intros m3 out3 (Hg3 & Hs3 & Ht3). cbv beta. apply steps_ret.
  repeat split; congruence.
Qed.

Lemma idle_iteration_freezes_game_witness :
  exists m' out,
    main_iteration
      (mkFrameInput 1016 [MouseMotion 10 20; KeyDown false; QuitEvent]
         (mkKeys true false false false false false false true))
      (set_gameState PAUSED (set_game one_room_game (main_start sample_tape 1000)))
    = Some (m', out) /\
    game m' = one_room_game /\ gameState m' = PAUSED /\ lastTime m' = 1016.
Proof.
  apply (idle_iteration_freezes_game
           (set_gameState PAUSED
              (set_game one_room_game (main_start sample_tape 1000)))
           (mkFrameInput 1016 [MouseMotion 10 20; KeyDown false; QuitEvent]
              (mkKeys true false false false false false false true))).
  - exact wf_one_room_world.
  - discriminate.
  - repeat constructor; discriminate.
Defined.

Lemma click_loop_unhovered action i buttons m :
  (forall b, b ∈ buttons -> hovered b = false) ->
  click_loop action i buttons m = Some (m, []).
Proof.
  revert i. induction buttons as [| b rest IH]; intros i Hnone; [reflexivity |].
  cbn [click_loop]. rewrite (Hnone b ltac:(left)). cbn [and_then].
  rewrite (IH (i + 1)) by (intros b' Hb'; apply Hnone; right; exact Hb').
  reflexivity.
Qed.

(** X25.  A click acts on the hover flags of the last rendered frame, not
    on the pointer.  In the main menu with no hover flag set, an iteration
    that receives a motion to (x, y) followed by a left click triggers no
    button, wherever (x, y) lies, also inside a button: the state stays
    MAIN_MENU and the game is untouched; the flags are set for (x, y) only
    by the rendering at the end of that iteration. *)
Theorem click_acts_on_rendered_hover (m : Main) (x y currentTime : Z)
  (keys : KeyState) :
  gameState m = MAIN_MENU ->
  (forall b, b ∈ mainMenuButtons m -> hovered b = false) ->
  exists m' out,
    main_iteration
      (mkFrameInput currentTime [MouseMotion x y; MouseButtonDown true] keys) m
    = Some (m', out) /\
    gameState m' = MAIN_MENU /\ game m' = game m /\ running m' = running m /\
    mainMenuButtons m' =
      map (fun b => mkButton (button_rect b) (button_text b)
                             (isPointInRect x y (button_rect b)))
          (mainMenuButtons m).
Proof.
  intros Hs Hnone. unfold main_iteration. cbv zeta.
  cbn [events ticks keyState poll_events handle_event and_then].
  set (m0 := set_mouse x y (set_lastTime currentTime m)).
  assert (gameState m0 = MAIN_MENU) as Hs0 by exact Hs.
  assert (click_loop main_menu_action 0 (mainMenuButtons m0) m0 = Some (m0, []))
    as Hloop by (apply click_loop_unhovered; exact Hnone).
  rewrite Hs0, Hloop. cbn [and_then app].
  unfold update_playing. rewrite Hs0. cbn [and_then app].
  unfold render. rewrite Hs0.
  change (renderMainMenu (mainMenuButtons m0) (mouseX m0) (mouseY m0))
    with (renderMainMenu (mainMenuButtons m) x y).
  pose proof (renderMainMenu_buttons (mainMenuButtons m) x y) as Hb.
  rewrite hover_and_draw_buttons in Hb.
  destruct (renderMainMenu (mainMenuButtons m) x y) as [buttons calls].
  cbn [fst] in Hb. subst buttons. cbn [and_then].
  eexists _, _. split; [reflexivity |].
  cbn [set_mainMenuButtons gameState game running mainMenuButtons].
  repeat split. exact Hs.
Qed.

Lemma click_acts_on_rendered_hover_witness :
  exists m' out,
    main_iteration
      (mkFrameInput 16 [MouseMotion 400 275; MouseButtonDown true] no_keys)
      (main_start sample_tape 0)
    = Some (m', out) /\
    gameState m' = MAIN_MENU /\
    game m' = game (main_start sample_tape 0) /\
    running m' = running (main_start sample_tape 0) /\
    mainMenuButtons m' =
      map (fun b => mkButton (button_rect b) (button_text b)
                             (isPointInRect 400 275 (button_rect b)))
          (mainMenuButtons (main_start sample_tape 0)).
Proof.
  apply (click_acts_on_rendered_hover (main_start sample_tape 0) 400 275 16
           no_keys).
  - reflexivity.
  - intros b Hb. cbn [main_start mainMenuButtons] in Hb.
    repeat (apply elem_of_cons in Hb as [-> | Hb]; [reflexivity |]).
    inversion Hb.
Defined.

(** The click of the next iteration does start the dungeon: two
    iterations on a constant tape, on which only the first room fits. *)
Example second_click_starts_dungeon :
  option_map (fun r => (gameState (fst r), running (fst r),
                        rooms (world (game (fst r))),
                        (gridX (player (game (fst r))),
                         gridY (player (game (fst r))))))
    (main_loop [mkFrameInput 16 [MouseMotion 400 275; MouseButtonDown true]
                  no_keys;
                mkFrameInput 32 [MouseButtonDown true] no_keys]
       (main_start (constant_tape 7) 0)) =
  Some (PLAYING, true, [mkRoom 8 8 5 5], (10, 10)).
Proof. vm_compute. reflexivity. Qed.

(** *** Starting a game *)

Lemma main_inv_rendered_menu m x y :
  main_inv m ->
  main_inv (set_mainMenuButtons
              (fst (hover_and_draw x y (mainMenuButtons m))) m).
Proof.
  intros (Hwf & Hcam & Hmr & Hpr & Hmh & Hph & Hq & Hstage).
  unfold main_inv.
  cbn [set_mainMenuButtons game mainMenuButtons pauseMenuButtons gameState].
  split; [exact Hwf |]. split; [exact Hcam |].
  split; [rewrite hovered_buttons_rects; exact Hmr |].
  split; [exact Hpr |].
  split; [apply hover_and_draw_exclusive; left; exact Hmr |].
  split; [exact Hph |]. split; [exact Hq | exact Hstage].
Qed.

Lemma update_playing_control keys dt m m' out :
  update_playing keys dt m = Some (m', out) ->
  gameState m' = gameState m /\ running m' = running m.
Proof.
  unfold update_playing. intros H.
  destruct (gameState m) eqn:Hs;
    try (injection H as <- _; split; [exact Hs | reflexivity]).
  destruct (playing_frame _ _ _); [| discriminate].
  injection H as <- _. split; [exact Hs | reflexivity].
Qed.

(** X26.  A left click while the hover flag of Start Dungeon is the one
    set in the main menu starts a game within the same iteration: the
    iteration returns in state PLAYING with a generated dungeon, the player
    on a passable cell of it, and [running] as it was; the buttons after
    Start Dungeon trigger nothing. *)
Theorem start_click_enters_game (m : Main) (currentTime : Z)
  (keys : KeyState) :
  main_inv m -> gameState m = MAIN_MENU ->
  map hovered (mainMenuButtons m) = [true; false; false] ->
  exists m' out,
    main_iteration (mkFrameInput currentTime [MouseButtonDown true] keys) m
    = Some (m', out) /\
    gameState m' = PLAYING /\ running m' = running m /\
    dungeon_ready (game m').
Proof.
  intros Hinv Hs Hflags.
  destruct (mainMenuButtons m) as [| b0 [| b1 [| b2 [| b3 rest]]]] eqn:Hbs;
    try discriminate Hflags.
  injection Hflags as H0 H1 H2.
  unfold main_iteration. cbv zeta.
  cbn [events ticks keyState poll_events handle_event].
  set (m0 := set_lastTime currentTime m).
  assert (main_inv m0) as Hinv0 by exact Hinv.
  assert (gameState m0 = MAIN_MENU) as Hs0 by exact Hs.
  assert (mainMenuButtons m0 = [b0; b1; b2]) as Hbs0 by exact Hbs.
  rewrite Hs0, Hbs0. cbn [click_loop]. rewrite H0, H1, H2.
  unfold main_menu_action at 1. cbn [Z.eqb].
  destruct (new_dungeon_inv m0 Hinv0) as (m1 & out1 & Hnew & Hinv1 & _ & Hs1 & ->).
  rewrite Hnew. cbn [and_then app].
  assert (running m1 = running m) as Hr1.
  { unfold new_dungeon in Hnew.
    destruct (generateDungeon _) as [[u w] |]; [| discriminate].
    injection Hnew as <-. reflexivity. }
  destruct (update_playing_inv keys (frame_delta currentTime (lastTime m)) m1
              Hinv1 (frame_delta_nonneg _ _)) as (m2 & out2 & Hup & Hinv2).
  destruct (update_playing_control _ _ _ _ _ Hup) as [Hs2 Hr2].
  rewrite Hup. cbn [and_then app].
  unfold render. rewrite Hs2, Hs1.
  destruct (render_game_inv m2 Hinv2) as (m3 & out3 & Hrender & ->).
  rewrite Hrender. cbn [and_then app].
  eexists _, _. split; [reflexivity |].
  split; [congruence |]. split; [congruence |].
  apply main_inv_ready; [exact Hinv2 |]. rewrite Hs2, Hs1. discriminate.
Qed.

Lemma start_click_enters_game_witness :
  exists m' out,
    main_iteration (mkFrameInput 32 [MouseButtonDown true] no_keys)
      (set_mainMenuButtons
         (fst (hover_and_draw 400 275
                 (mainMenuButtons (main_start (constant_tape 7) 0))))
         (main_start (constant_tape 7) 0))
    = Some (m', out) /\
    gameState m' = PLAYING /\
    running m' = running (main_start (constant_tape 7) 0) /\
    dungeon_ready (game m').
Proof.
  apply (start_click_enters_game
           (set_mainMenuButtons
              (fst (hover_and_draw 400 275
                      (mainMenuButtons (main_start (constant_tape 7) 0))))
              (main_start (constant_tape 7) 0)) 32 no_keys).
  - apply main_inv_rendered_menu. apply main_start_inv.
  - reflexivity.
  - reflexivity.
Defined.
